(** * Insta.py: the Instagram story scheduler

    A shallow embedding of [InstagramStoryScheduler] (src/Insta.py) and the
    properties of its scheduled-post lifecycle.

    - [Py]: the Python values, exceptions and results the class works with.
    - [Json]: the text written by [json.dump] and read back by [json.load],
      for the documents this program stores (an array of flat objects with
      integer and string members).
    - [Timer]: the job store of the APScheduler [BackgroundScheduler].
    - [Insta]: the class itself, one definition per method, with the
      instance attributes threaded through as an explicit state; the
      operations of a running deployment and its reachable states.
    - [Examples]: sample worlds and states.
    - [Lifecycle]: the example driver [main], and the steps in the life of a
      list of stories.
    - [Wide]: the store once more, over strings of arbitrary code points,
      where [json] pairs surrogates; the records of [Insta] are those with
      code points below 256.
    - [JsonFacts], [InstaFacts]: the round trip of the store, the loop of
      cancel and modify, the invariant of the reachable states.
    - [WideFacts]: the round trip over arbitrary code points, and its
      agreement with [Json] on the records of [Insta].
    - [Spec]: the properties of the specification, one theorem each.
    - [LifecycleFacts], [Behaviour]: further properties of the methods, of
      the driver and of the file. *)

From Stdlib Require Import ZArith NArith String Ascii List Bool Lia.
From Stdlib Require Import DecimalString DecimalN.
From stdpp Require Import base option list strings gmap.

(** ** Python values, exceptions and results *)

Module Py.

(** The exception classes that occur in the program and in the libraries it
    calls.  All of them derive from [Exception], so the handler
    [except Exception as e] of [post_story] catches every one. *)
Inductive exc_class :=
| FileNotFoundError
| ValueError
| JobLookupError
| ConflictingIdError
| JSONDecodeError
| RequestException
| OtherException.

(** An exception object: its class and the text [str(e)] yields. *)
Record exception := mkExc { exc_type : exc_class; exc_str : string }.

(** The outcome of a call: a returned value or a raised exception. *)
Inductive result (A : Type) :=
| Return (a : A)
| Raise (e : exception).
Arguments Return {A} a.
Arguments Raise {A} e.

(** The scalar values stored in a story dictionary. *)
Inductive pyval :=
| PInt (z : Z)
| PStr (s : string).

(** Truthiness, as tested by [if x:]. *)
Definition truthy (v : pyval) : bool :=
  match v with
  | PInt z => negb (z =? 0)%Z
  | PStr s => negb (String.eqb s "")
  end.

(** A [dict] with string keys, in insertion order. *)
Definition dict := list (string * pyval).

(** [d.get(k)] *)
Fixpoint dict_get (d : dict) (k : string) : option pyval :=
  match d with
  | [] => None
  | (k', v) :: rest => if String.eqb k' k then Some v else dict_get rest k
  end.

(** [d[k] = v]: an existing key keeps its position, a new key goes last. *)
Fixpoint dict_set (d : dict) (k : string) (v : pyval) : dict :=
  match d with
  | [] => [(k, v)]
  | (k', v') :: rest =>
      if String.eqb k' k then (k', v) :: rest else (k', v') :: dict_set rest k v
  end.

(** Decimal digits of a natural number, most significant first. *)
Definition digits (n : N) : string := NilEmpty.string_of_uint (N.to_uint n).

(** [str(z)] for an [int]; [json.dump] writes integers the same way. *)
Definition str_int (z : Z) : string :=
  match z with
  | Z0 => "0"
  | Zpos p => digits (Npos p)
  | Zneg p => String "-" (digits (Npos p))
  end.

#[global] Instance pyval_eq_dec : EqDecision pyval.
Proof. solve_decision. Defined.

#[global] Instance exc_class_eq_dec : EqDecision exc_class.
Proof. solve_decision. Defined.

End Py.

(** ** The JSON text of the store *)

Module Json.
Import Py.

Definition dquote : ascii := ascii_of_N 34.
Definition backslash : ascii := ascii_of_N 92.

Definition hex_digit (n : N) : ascii :=
  if (n <? 10)%N then ascii_of_N (48 + n) else ascii_of_N (87 + n).

Definition hex_value (c : ascii) : option N :=
  let n := N_of_ascii c in
  if (48 <=? n)%N && (n <=? 57)%N then Some (n - 48)%N
  else if (97 <=? n)%N && (n <=? 102)%N then Some (n - 87)%N
  else if (65 <=? n)%N && (n <=? 70)%N then Some (n - 55)%N
  else None.

(** *** Writing: [json.dump] with its defaults ([ensure_ascii], separators
    [", "] and [": "]) *)

(** One character of a string literal: the two-character escapes for the
    quote, the backslash and the five named control characters, the
    character itself inside the printable ASCII range, [\u00xx] otherwise. *)
Definition escape_char (c : ascii) : string :=
  let n := N_of_ascii c in
  if (n =? 34)%N then String backslash (String dquote "")
  else if (n =? 92)%N then String backslash (String backslash "")
  else if (n =? 10)%N then String backslash "n"
  else if (n =? 13)%N then String backslash "r"
  else if (n =? 9)%N then String backslash "t"
  else if (n =? 8)%N then String backslash "b"
  else if (n =? 12)%N then String backslash "f"
  else if (32 <=? n)%N && (n <=? 126)%N then String c ""
  else String backslash
         (String "u" (String "0" (String "0"
           (String (hex_digit (n / 16)) (String (hex_digit (n mod 16)) ""))))).

Fixpoint escape (s : string) : string :=
  match s with
  | EmptyString => ""
  | String c rest => escape_char c +:+ escape rest
  end.

Definition dump_str (s : string) : string :=
  String dquote (escape s +:+ String dquote "").

Definition dump_val (v : pyval) : string :=
  match v with
  | PInt z => str_int z
  | PStr s => dump_str s
  end.

Definition dump_member (m : string * pyval) : string :=
  dump_str m.1 +:+ ": " +:+ dump_val m.2.

(** The members of an object after its opening brace, up to and including
    the closing brace. *)
Fixpoint dump_members (d : dict) : string :=
  match d with
  | [] => "}"
  | [m] => dump_member m +:+ "}"
  | m :: rest => dump_member m +:+ ", " +:+ dump_members rest
  end.

Definition dump_dict (d : dict) : string := String "{" (dump_members d).

(** The elements of an array after its opening bracket, up to and including
    the closing bracket. *)
Fixpoint dump_elements (l : list dict) : string :=
  match l with
  | [] => "]"
  | [d] => dump_dict d +:+ "]"
  | d :: rest => dump_dict d +:+ ", " +:+ dump_elements rest
  end.

(** [json.dumps(l)] for a list of dictionaries. *)
Definition dumps (l : list dict) : string := String "[" (dump_elements l).

(** *** Reading: [json.load] *)

Definition is_ws (c : ascii) : bool :=
  let n := N_of_ascii c in
  (n =? 32)%N || (n =? 9)%N || (n =? 10)%N || (n =? 13)%N.

Fixpoint skip_ws (s : string) : string :=
  match s with
  | EmptyString => ""
  | String c rest => if is_ws c then skip_ws rest else s
  end.

Definition is_digit (c : ascii) : bool :=
  let n := N_of_ascii c in (48 <=? n)%N && (n <=? 57)%N.

(** The longest prefix of digits, and what follows it. *)
Fixpoint span_digits (s : string) : string * string :=
  match s with
  | EmptyString => ("", "")
  | String c rest =>
      if is_digit c
      then let '(ds, r) := span_digits rest in (String c ds, r)
      else ("", s)
  end.

(** A fraction or an exponent follows: the number is a float. *)
Definition starts_float (s : string) : bool :=
  match s with
  | String c _ =>
      let n := N_of_ascii c in (n =? 46)%N || (n =? 101)%N || (n =? 69)%N
  | EmptyString => false
  end.

(** A digit run without a superfluous leading zero, not continued as a
    float. *)
Definition parse_nat (s : string) : option (N * string) :=
  let '(ds, rest) := span_digits s in
  match NilEmpty.uint_of_string ds with
  | Some d =>
      let n := N.of_uint d in
      if String.eqb (digits n) ds && negb (starts_float rest)
      then Some (n, rest)
      else None
  | None => None
  end.

(** An integer literal: an optional minus sign, then the digits. *)
Definition parse_int (s : string) : option (Z * string) :=
  match s with
  | String c r =>
      if Ascii.eqb c "-" then
        match parse_nat r with
        | Some (n, rest) => Some ((- Z.of_N n)%Z, rest)
        | None => None
        end
      else
        match parse_nat s with
        | Some (n, rest) => Some (Z.of_N n, rest)
        | None => None
        end
  | EmptyString => None
  end.

(** The characters of a string literal after its opening quote, up to the
    closing quote.  Unescaped control characters are refused, as the strict
    decoder does.  The strings of [Insta] hold code points below 256, so an
    escape from [\u0100] on stands for no character of theirs and is
    reported like an error here; [Wide.parse_chars] below is the decoder
    over all code points, surrogate pairs included, and reads every literal
    this one reads as the same characters. *)
Fixpoint parse_chars (s : string) : option (string * string) :=
  match s with
  | EmptyString => None
  | String c rest =>
      if Ascii.eqb c dquote then Some ("", rest)
      else if Ascii.eqb c backslash then
        match rest with
        | String e rest1 =>
            if Ascii.eqb e "u" then
              match rest1 with
              | String h3 (String h2 (String h1 (String h0 rest2))) =>
                  match hex_value h3, hex_value h2, hex_value h1, hex_value h0 with
                  | Some a, Some b, Some c1, Some d =>
                      let code := (((a * 16 + b) * 16 + c1) * 16 + d)%N in
                      if (code <? 256)%N then
                        match parse_chars rest2 with
                        | Some (str, r) => Some (String (ascii_of_N code) str, r)
                        | None => None
                        end
                      else None
                  | _, _, _, _ => None
                  end
              | _ => None
              end
            else
              let simple (x : ascii) :=
                match parse_chars rest1 with
                | Some (str, r) => Some (String x str, r)
                | None => None
                end in
              if Ascii.eqb e dquote then simple dquote
              else if Ascii.eqb e backslash then simple backslash
              else if Ascii.eqb e "/" then simple "/"%char
              else if Ascii.eqb e "b" then simple (ascii_of_N 8)
              else if Ascii.eqb e "f" then simple (ascii_of_N 12)
              else if Ascii.eqb e "n" then simple (ascii_of_N 10)
              else if Ascii.eqb e "r" then simple (ascii_of_N 13)
              else if Ascii.eqb e "t" then simple (ascii_of_N 9)
              else None
        | EmptyString => None
        end
      else if (N_of_ascii c <? 32)%N then None
      else
        match parse_chars rest with
        | Some (str, r) => Some (String c str, r)
        | None => None
        end
  end.

(** A member value: a string literal or an integer. *)
Definition parse_value (s : string) : option (pyval * string) :=
  match s with
  | String c rest =>
      if Ascii.eqb c dquote
      then match parse_chars rest with
           | Some (str, r) => Some (PStr str, r)
           | None => None
           end
      else match parse_int s with
           | Some (z, r) => Some (PInt z, r)
           | None => None
           end
  | EmptyString => None
  end.

(** The members of an object, from the first key on; a repeated key
    overwrites the earlier value, as building a [dict] does. *)
Fixpoint parse_members (fuel : nat) (s : string) (acc : dict)
  : option (dict * string) :=
  match fuel with
  | O => None
  | S fuel' =>
      match s with
      | String c r0 =>
          if Ascii.eqb c dquote then
            match parse_chars r0 with
            | Some (k, r1) =>
                match skip_ws r1 with
                | String c2 r2 =>
                    if Ascii.eqb c2 ":" then
                      match parse_value (skip_ws r2) with
                      | Some (v, r3) =>
                          let acc' := dict_set acc k v in
                          match skip_ws r3 with
                          | String c4 r4 =>
                              if Ascii.eqb c4 "," then parse_members fuel' (skip_ws r4) acc'
                              else if Ascii.eqb c4 "}" then Some (acc', r4)
                              else None
                          | EmptyString => None
                          end
                      | None => None
                      end
                    else None
                | EmptyString => None
                end
            | None => None
            end
          else None
      | EmptyString => None
      end
  end.

(** An object, after its opening brace. *)
Definition parse_dict (s : string) : option (dict * string) :=
  match skip_ws s with
  | String c r =>
      if Ascii.eqb c "}" then Some ([], r)
      else parse_members (String.length (skip_ws s)) (skip_ws s) []
  | EmptyString => None
  end.

(** The elements of an array, from the first one on. *)
Fixpoint parse_elements (fuel : nat) (s : string) (acc : list dict)
  : option (list dict * string) :=
  match fuel with
  | O => None
  | S fuel' =>
      match s with
      | String c r0 =>
          if Ascii.eqb c "{" then
            match parse_dict r0 with
            | Some (d, r1) =>
                match skip_ws r1 with
                | String c2 r2 =>
                    if Ascii.eqb c2 "," then parse_elements fuel' (skip_ws r2) (acc ++ [d])%list
                    else if Ascii.eqb c2 "]" then Some ((acc ++ [d])%list, r2)
                    else None
                | EmptyString => None
                end
            | None => None
            end
          else None
      | EmptyString => None
      end
  end.

(** [json.loads(text)] on the documents of the store: an array of flat
    objects.  [None] stands for the decoder's error; a document outside this
    fragment (nesting, floats, [true], [false], [null]) is reported the same
    way. *)
Definition loads (text : string) : option (list dict) :=
  match skip_ws text with
  | String c r =>
      if Ascii.eqb c "[" then
        match skip_ws r with
        | String c1 r1 =>
            if Ascii.eqb c1 "]"
            then match skip_ws r1 with EmptyString => Some [] | _ => None end
            else
              match parse_elements (String.length (skip_ws r)) (skip_ws r) [] with
              | Some (l, r2) =>
                  match skip_ws r2 with EmptyString => Some l | _ => None end
              | None => None
              end
        | EmptyString => None
        end
      else None
  | EmptyString => None
  end.

(** What may follow a number for it to end there: nothing, or a character
    that is neither a digit nor the start of a fraction or exponent. *)
Definition ends_number (rest : string) : Prop :=
  match rest with
  | String c _ => is_digit c = false ∧ starts_float rest = false
  | EmptyString => True
  end.

(** A separator the encoder writes after a value. *)
Definition closes_value (c : ascii) : Prop :=
  c = ","%char ∨ c = "}"%char.

(** One more member stored into the dictionary being built. *)
Definition set_member (acc : dict) (m : string * pyval) : dict :=
  dict_set acc m.1 m.2.

(** The keys of a dictionary are pairwise distinct. *)
Definition dict_wf (d : dict) : Prop := NoDup d.*1.

End Json.

(** ** The timer: APScheduler's job store *)

(** [self.scheduler] is a [BackgroundScheduler] of APScheduler 3 with its
    default job store, a dictionary in memory keyed by job identifier.  The
    three calls the program makes are modelled with the behaviour the library
    documents for a running scheduler: [add_job] raises [ConflictingIdError]
    for an identifier that is taken, [remove_job] and [reschedule_job] raise
    [JobLookupError] for an identifier that is not in the store.  The store
    lives and dies with the process; nothing of it is written to the file. *)

Module Timer.
Import Py.

(** A [datetime]; the program only ever takes its ISO-8601 text. *)
Record datetime := mkDatetime { isoformat : string }.

(** A one-shot job of the store: the run date of its [DateTrigger] and its
    argument list [args=[story_data]].  The argument is the story dictionary
    itself, held by reference: the object appended to [scheduled_stories],
    named here by its position in that list, which never shrinks nor is
    reordered while the process lives.  The callable is always
    [post_story]. *)
Record job := mkJob { run_date : datetime; args : nat }.

(** [ConflictingIdError] and [JobLookupError] are subclasses of [KeyError],
    whose [str(e)] is the [repr] of the message, not the message: the text
    between single quotes.  (The job identifiers of this program are the
    decimal numerals [str(story_id)], which [repr] writes as they are.) *)
Definition key_error_str (message : string) : string :=
  "'" +:+ message +:+ "'".

Definition conflicting_id (job_id : string) : exception :=
  mkExc ConflictingIdError
    (key_error_str
       ("Job identifier (" +:+ job_id +:+ ") conflicts with an existing job")).

Definition job_lookup (job_id : string) : exception :=
  mkExc JobLookupError
    (key_error_str ("No job by the id of " +:+ job_id +:+ " was found")).

(** [scheduler.add_job(..., id=job_id)] on a running scheduler: an identifier
    already in the store is refused. *)
Definition add_job (js : gmap string job) (job_id : string) (j : job)
  : result (gmap string job) :=
  match js !! job_id with
  | Some _ => Raise (conflicting_id job_id)
  | None => Return (<[job_id := j]> js)
  end.

(** [scheduler.remove_job(job_id)]: an unknown identifier raises. *)
Definition remove_job (js : gmap string job) (job_id : string)
  : result (gmap string job) :=
  match js !! job_id with
  | Some _ => Return (delete job_id js)
  | None => Raise (job_lookup job_id)
  end.

(** [scheduler.reschedule_job(job_id, trigger=DateTrigger(run_date))]: the
    job keeps its identifier and arguments and gets the new trigger; an
    unknown identifier raises. *)
Definition reschedule_job (js : gmap string job) (job_id : string)
    (new_run_date : datetime) : result (gmap string job) :=
  match js !! job_id with
  | Some j => Return (<[job_id := mkJob new_run_date (args j)]> js)
  | None => Raise (job_lookup job_id)
  end.

End Timer.

(** ** The class [InstagramStoryScheduler] *)

Module Insta.
Import Py Timer.

(** A story dictionary, with the keys [schedule_story] gives it; [error] is
    the key [post_story] adds on failure. *)
Record story := mkStory {
  id : Z;
  media_path : string;
  scheduled_time : string;
  caption : string;
  status : string;
  error : option string
}.

#[global] Instance story_eq_dec : EqDecision story.
Proof. solve_decision. Defined.

#[global] Instance story_inhabited : Inhabited story :=
  populate (mkStory 0 "" "" "" "" None).

Definition set_status (v : string) (s : story) : story :=
  mkStory (id s) (media_path s) (scheduled_time s) (caption s) v (error s).

Definition set_error (v : string) (s : story) : story :=
  mkStory (id s) (media_path s) (scheduled_time s) (caption s) (status s) (Some v).

Definition set_scheduled_time (v : string) (s : story) : story :=
  mkStory (id s) (media_path s) v (caption s) (status s) (error s).

Definition set_caption (v : string) (s : story) : story :=
  mkStory (id s) (media_path s) (scheduled_time s) v (status s) (error s).

(** The dictionary a story is, key by key in insertion order. *)
Definition dict_of_story (s : story) : dict :=
  ([ ("id", PInt (id s));
    ("media_path", PStr (media_path s));
    ("scheduled_time", PStr (scheduled_time s));
    ("caption", PStr (caption s));
    ("status", PStr (status s)) ]
  ++ match error s with
     | Some e => [("error", PStr e)]
     | None => []
     end)%list.

(** A loaded dictionary read as a story; a dictionary of another shape is
    not one of this program's records. *)
Definition story_of_dict (d : dict) : option story :=
  match dict_get d "id", dict_get d "media_path", dict_get d "scheduled_time",
        dict_get d "caption", dict_get d "status" with
  | Some (PInt i), Some (PStr p), Some (PStr t), Some (PStr c), Some (PStr s) =>
      let e := match dict_get d "error" with
               | Some (PStr e) => Some e
               | _ => None
               end in
      let cand := mkStory i p t c s e in
      if decide (dict_of_story cand = d) then Some cand else None
  | _, _, _, _, _ => None
  end.

(** What the methods reach outside the process: the file system and the two
    calls of the Graph API, each answering with a value or an exception. *)
Record world := mkWorld {
  (** [os.path.exists(path)], and whether [open(path, 'rb')] succeeds *)
  path_exists : string → bool;
  (** [requests.post(url, params, files)], [raise_for_status()], [json()] *)
  http_upload : string → dict → string → result dict;
  (** [requests.post(url, params)], [raise_for_status()]; [None] is success *)
  http_create_story : string → dict → option exception
}.

(** The instance attributes, and the file [scheduled_stories.json]
    ([None] while it does not exist). *)
Record scheduler := mkScheduler {
  access_token : string;
  instagram_account_id : string;
  jobs : gmap string job;
  scheduled_stories : list story;
  store : option string
}.

Definition base_url : string := "https://graph.facebook.com/v18.0".

Definition with_jobs (js : gmap string job) (st : scheduler) : scheduler :=
  mkScheduler (access_token st) (instagram_account_id st) js
              (scheduled_stories st) (store st).

Definition with_stories (l : list story) (st : scheduler) : scheduler :=
  mkScheduler (access_token st) (instagram_account_id st) (jobs st) l (store st).

Definition with_store (f : option string) (st : scheduler) : scheduler :=
  mkScheduler (access_token st) (instagram_account_id st) (jobs st)
              (scheduled_stories st) f.

(** An assignment [story[key] = ...] on the story object at position [ref]. *)
Definition update_story (ref : nat) (f : story → story) (st : scheduler)
  : scheduler :=
  with_stories (alter f ref (scheduled_stories st)) st.

(** [load_scheduled_stories] *)
Definition load_scheduled_stories (st : scheduler) : scheduler * result unit :=
  match store st with
  | None => (with_stories [] st, Return tt)
  | Some text =>
      match Json.loads text ≫= mapM story_of_dict with
      | Some l => (with_stories l st, Return tt)
      | None => (st, Raise (mkExc JSONDecodeError "Expecting value"))
      end
  end.

(** [save_scheduled_stories]: the file is rewritten whole. *)
Definition save_scheduled_stories (st : scheduler) : scheduler :=
  with_store (Some (Json.dumps (map dict_of_story (scheduled_stories st)))) st.

(** [__init__], given the two environment variables and the file as the
    process finds it: a fresh job store, then the load. *)
Definition init (token account : string) (file : option string)
  : scheduler * result unit :=
  load_scheduled_stories (mkScheduler token account ∅ [] file).

(** [schedule_story] *)
Definition schedule_story (w : world) (st : scheduler) (media_path : string)
    (scheduled_time : datetime) (caption : string) : scheduler * result story :=
  if negb (path_exists w media_path) then
    (st, Raise (mkExc FileNotFoundError "Media file not found"))
  else
    let story_data :=
      mkStory (Z.of_nat (length (scheduled_stories st)) + 1) media_path
              (isoformat scheduled_time) caption "scheduled" None in
    let ref := length (scheduled_stories st) in
    let st1 := with_stories (scheduled_stories st ++ [story_data])%list st in
    let st2 := save_scheduled_stories st1 in
    match add_job (jobs st2) (str_int (id story_data)) (mkJob scheduled_time ref) with
    | Raise e => (st2, Raise e)
    | Return js => (with_jobs js st2, Return story_data)
    end.

(** [upload_media] *)
Definition upload_media (w : world) (st : scheduler) (media_path : string)
  : result dict :=
  let media_url := base_url +:+ "/" +:+ instagram_account_id st +:+ "/media" in
  if path_exists w media_path then
    let params := [("access_token", PStr (access_token st));
                   ("media_type", PStr "STORY")] in
    http_upload w media_url params media_path
  else
    Raise (mkExc FileNotFoundError
             ("[Errno 2] No such file or directory: '" +:+ media_path +:+ "'")).

(** [post_story], called with the story object at position [ref] of
    [scheduled_stories] (every story object the program creates is in that
    list, so a position outside it names no object). *)
Definition post_story (w : world) (st : scheduler) (ref : nat)
  : scheduler * result unit :=
  let story_data := scheduled_stories st !!! ref in
  let on_exception (e : exception) :=
    let st1 := update_story ref (set_status "failed") st in
    let st2 := update_story ref (set_error (exc_str e)) st1 in
    (save_scheduled_stories st2, Raise e) in
  match upload_media w st (media_path story_data) with
  | Raise e => on_exception e
  | Return media_response =>
      match dict_get media_response "id" with
      | Some media_id =>
          if truthy media_id then
            let story_url :=
              base_url +:+ "/" +:+ instagram_account_id st +:+ "/stories" in
            let params := [("access_token", PStr (access_token st));
                           ("media_type", PStr "STORY");
                           ("media_id", media_id)] in
            let params :=
              if truthy (PStr (caption story_data))
              then dict_set params "caption" (PStr (caption story_data))
              else params in
            match http_create_story w story_url params with
            | Some e => on_exception e
            | None =>
                let st1 := update_story ref (set_status "posted") st in
                (save_scheduled_stories st1, Return tt)
            end
          else (st, Return tt)
      | None => (st, Return tt)
      end
  end.

(** [get_scheduled_stories] *)
Definition get_scheduled_stories (st : scheduler) : list story :=
  scheduled_stories st.

(** The story the loops of [cancel_scheduled_story] and
    [modify_scheduled_story] stop at: the first one, in list order, with
    [story['id'] == story_id and story['status'] == 'scheduled']. *)
Fixpoint find_scheduled (story_id : Z) (l : list story) : option nat :=
  match l with
  | [] => None
  | story :: rest =>
      if (id story =? story_id)%Z && String.eqb (status story) "scheduled"
      then Some O
      else S <$> find_scheduled story_id rest
  end.

(** [cancel_scheduled_story] *)
Definition cancel_scheduled_story (st : scheduler) (story_id : Z)
  : scheduler * result bool :=
  match find_scheduled story_id (scheduled_stories st) with
  | Some ref =>
      let st1 := update_story ref (set_status "cancelled") st in
      match remove_job (jobs st1) (str_int story_id) with
      | Raise e => (st1, Raise e)
      | Return js => (save_scheduled_stories (with_jobs js st1), Return true)
      end
  | None => (st, Return false)
  end.

(** [modify_scheduled_story] *)
Definition modify_scheduled_story (st : scheduler) (story_id : Z)
    (new_time : option datetime) (new_caption : option string)
  : scheduler * result story :=
  match find_scheduled story_id (scheduled_stories st) with
  | Some ref =>
      let rescheduled :=
        match new_time with
        | Some t =>
            let st1 := update_story ref (set_scheduled_time (isoformat t)) st in
            match reschedule_job (jobs st1) (str_int story_id) t with
            | Raise e => (st1, Some e)
            | Return js => (with_jobs js st1, None)
            end
        | None => (st, None)
        end in
      match rescheduled with
      | (st1, Some e) => (st1, Raise e)
      | (st1, None) =>
          let st2 :=
            match new_caption with
            | Some c => update_story ref (set_caption c) st1
            | None => st1
            end in
          let st3 := save_scheduled_stories st2 in
          (st3, Return (scheduled_stories st3 !!! ref))
      end
  | None =>
      (st, Raise (mkExc ValueError "Story not found or already posted/cancelled"))
  end.

(** The state [post_story] leaves when its handler has run for [e]. *)
Definition marked_failed (e : exception) (ref : nat) (st : scheduler) : scheduler :=
  save_scheduled_stories
    (update_story ref (set_error (exc_str e))
       (update_story ref (set_status "failed") st)).

(** The state [post_story] leaves when both calls succeeded. *)
Definition marked_posted (ref : nat) (st : scheduler) : scheduler :=
  save_scheduled_stories (update_story ref (set_status "posted") st).

(** *** The life of a scheduler process *)

(** The timer fires the job [job_id]: the one-shot job leaves the store and
    its callable runs on the story it was registered with.  An exception of
    the callable ends in the executor's log. *)
Definition fire (w : world) (st : scheduler) (job_id : string)
  : scheduler * result unit :=
  match jobs st !! job_id with
  | Some j => post_story w (with_jobs (delete job_id (jobs st)) st) (args j)
  | None => (st, Return tt)
  end.

(** The four operations on posts: the three public calls and the timer
    callback, each with the answers the outside world gives during it. *)
Inductive operation :=
| Schedule (w : world) (media_path : string) (scheduled_time : datetime)
           (caption : string)
| Execute (w : world) (job_id : string)
| Cancel (story_id : Z)
| Modify (story_id : Z) (new_time : option datetime) (new_caption : option string).

(** The state an operation leaves, whether it returns or raises. *)
Definition run (o : operation) (st : scheduler) : scheduler :=
  match o with
  | Schedule w p t c => (schedule_story w st p t c).1
  | Execute w k => (fire w st k).1
  | Cancel i => (cancel_scheduled_story st i).1
  | Modify i t c => (modify_scheduled_story st i t c).1
  end.

(** The states a deployment goes through: it starts without a file; the
    operations run one at a time; the timer may drop a job whose run date
    was missed; the process may be started anew on the file the previous one
    left, with an empty job store. *)
Inductive reachable : scheduler → Prop :=
| reachable_first token account :
    reachable (mkScheduler token account ∅ [] None)
| reachable_run o st :
    reachable st → reachable (run o st)
| reachable_misfire job_id st :
    reachable st → reachable (with_jobs (delete job_id (jobs st)) st)
| reachable_restart token account st st' :
    reachable st →
    init token account (store st) = (st', Return tt) →
    reachable st'.

(** The terminal statuses. *)
Definition terminal (s : string) : Prop :=
  s = "posted" ∨ s = "failed" ∨ s = "cancelled".

(** [story] is one the loops of cancel and modify stop at. *)
Definition scheduled_with (story_id : Z) (story : story) : Prop :=
  id story = story_id ∧ status story = "scheduled".

(** [ref] is the position the loops stop at: the first story in list order
    that is scheduled under [story_id]. *)
Definition first_scheduled (story_id : Z) (l : list story) (ref : nat) : Prop :=
  (∃ s, l !! ref = Some s ∧ scheduled_with story_id s) ∧
  ∀ i s, i < ref → l !! i = Some s → ¬ scheduled_with story_id s.

(** The file holds the whole list as it is now. *)
Definition persisted (st : scheduler) : Prop :=
  store st = Some (Json.dumps (map dict_of_story (scheduled_stories st))).


(** The lists [l] and [l'] differ at position [ref] at most. *)
Definition agree_off (ref : nat) (l l' : list story) : Prop :=
  length l' = length l ∧ ∀ i, i ≠ ref → l' !! i = l !! i.

(** Going from [l] to [l'], the length is kept, every story filed under
    another identifier than [story_id] is kept where it was, and at most one
    position holds a changed record. *)
Definition only_touches (story_id : Z) (l l' : list story) : Prop :=
  length l' = length l
  ∧ (∀ i s, l !! i = Some s → id s ≠ story_id → l' !! i = Some s)
  ∧ (∀ i j, l' !! i ≠ l !! i → l' !! j ≠ l !! j → i = j).

(** *** Invariants of the reachable states *)

(** Identifiers count the positions from one. *)
Definition ids_ok (l : list story) : Prop :=
  ∀ i s, l !! i = Some s → id s = (Z.of_nat i + 1)%Z.

(** The file, when there is one, was written by [save_scheduled_stories]. *)
Definition store_ok (f : option string) : Prop :=
  ∀ text, f = Some text →
    ∃ l, text = Json.dumps (map dict_of_story l) ∧ ids_ok l.

(** Every pending job belongs to a story that is still scheduled and is
    filed under that story's identifier. *)
Definition jobs_ok (st : scheduler) : Prop :=
  ∀ k j, jobs st !! k = Some j →
    ∃ s, scheduled_stories st !! args j = Some s ∧
         status s = "scheduled" ∧ k = str_int (id s).

Record invariant (st : scheduler) : Prop := mkInvariant {
  inv_ids : ids_ok (scheduled_stories st);
  inv_store : store_ok (store st);
  inv_jobs : jobs_ok st
}.

End Insta.

(** ** Sample worlds and states *)

Module Examples.
Import Py Timer Insta.

Definition noon : datetime := mkDatetime "2026-11-05T12:00:00".
Definition evening : datetime := mkDatetime "2026-11-05T19:30:00".

(** The media file is there, upload and publication succeed. *)
Definition api_ok : world :=
  mkWorld (λ _, true)
          (λ _ _ _, Return [("id", PStr "17900000000000001")])
          (λ _ _, None).

(** The upload is answered with a body that carries no identifier. *)
Definition api_no_id : world :=
  mkWorld (λ _, true) (λ _ _ _, Return []) (λ _ _, None).

(** The upload is answered with an error status. *)
Definition api_down : world :=
  mkWorld (λ _, true)
          (λ _ _ _, Raise (mkExc RequestException "503 Server Error: Service Unavailable"))
          (λ _ _, None).

(** No media file exists. *)
Definition no_files : world :=
  mkWorld (λ _, false)
          (λ _ _ _, Return [("id", PStr "17900000000000001")])
          (λ _ _, None).

(** A first start, without a file. *)
Definition first_start : scheduler := mkScheduler "token" "account" ∅ [] None.

(** One story scheduled. *)
Definition one_scheduled : scheduler :=
  (schedule_story api_ok first_start "a.jpg" noon "hi").1.

(** The process started anew on the file [one_scheduled] left. *)
Definition restarted : scheduler :=
  (init "token" "account" (store one_scheduled)).1.

(** The story of [one_scheduled] cancelled. *)
Definition one_cancelled : scheduler :=
  (cancel_scheduled_story one_scheduled 1).1.

End Examples.

(** ** The example driver, and the life of a list of stories *)

Module Lifecycle.
Import Py Timer Insta.

(** The address and the parameters of the call that publishes the story [s]
    once its media has the identifier [media_id]: the caption is sent along
    only when it is not empty. *)
Definition story_url (st : scheduler) : string :=
  base_url +:+ "/" +:+ instagram_account_id st +:+ "/stories".

Definition story_params (st : scheduler) (s : story) (media_id : pyval) : dict :=
  [("access_token", PStr (access_token st));
   ("media_type", PStr "STORY");
   ("media_id", media_id)]
  ++ (if String.eqb (caption s) "" then [] else [("caption", PStr (caption s))]).

(** [main]: a scheduler is created on the file as it is found, one story is
    scheduled, the list is read, the story is modified and then cancelled.
    The two dates are [datetime.now()] plus one and two hours.  The four
    values handed to [print] are returned as they are when printed; an
    exception of any step ends the run. *)
Definition main (w : world) (token account : string) (file : option string)
    (in_one_hour in_two_hours : datetime)
  : scheduler * result (story * list story * story * bool) :=
  match init token account file with
  | (scheduler, Raise e) => (scheduler, Raise e)
  | (scheduler, Return _) =>
      match schedule_story w scheduler "/media.jpg" in_one_hour
              "Check out our new product launch! #newproduct" with
      | (scheduler, Raise e) => (scheduler, Raise e)
      | (scheduler, Return story_data) =>
          let scheduled_stories := get_scheduled_stories scheduler in
          match modify_scheduled_story scheduler (id story_data)
                  (Some in_two_hours)
                  (Some "Updated caption for our product launch! #newproduct") with
          | (scheduler, Raise e) => (scheduler, Raise e)
          | (scheduler, Return modified_story) =>
              match cancel_scheduled_story scheduler (id story_data) with
              | (scheduler, Raise e) => (scheduler, Raise e)
              | (scheduler, Return cancelled) =>
                  (scheduler,
                   Return (story_data, scheduled_stories, modified_story, cancelled))
              end
          end
      end
  end.

(** One step in the life of a list of stories: a new scheduled story is
    appended under the next identifier, or one story that is scheduled gets
    a new time, a new caption, or one of the three final statuses. *)
Inductive lifecycle_step : list story → list story → Prop :=
| life_new l s :
    id s = (Z.of_nat (length l) + 1)%Z → status s = "scheduled" →
    error s = None →
    lifecycle_step l (l ++ [s])
| life_retime l ref s t :
    l !! ref = Some s → status s = "scheduled" →
    lifecycle_step l (alter (set_scheduled_time t) ref l)
| life_recaption l ref s c :
    l !! ref = Some s → status s = "scheduled" →
    lifecycle_step l (alter (set_caption c) ref l)
| life_cancel l ref s :
    l !! ref = Some s → status s = "scheduled" →
    lifecycle_step l (alter (set_status "cancelled") ref l)
| life_post l ref s :
    l !! ref = Some s → status s = "scheduled" →
    lifecycle_step l (alter (set_status "posted") ref l)
| life_fail l ref s e :
    l !! ref = Some s → status s = "scheduled" →
    lifecycle_step l (alter (λ x, set_error e (set_status "failed" x)) ref l).

(** What identifies a post for good: its identifier and its media. *)
Definition post_key (s : story) : Z * string := (id s, media_path s).

(** Every status is one of the four. *)
Definition status_ok (l : list story) : Prop :=
  ∀ s, s ∈ l → status s = "scheduled" ∨ terminal (status s).

(** A story carries an error text exactly when it has failed. *)
Definition error_ok (l : list story) : Prop :=
  ∀ s, s ∈ l → is_Some (error s) ↔ status s = "failed".

(** The file [f] holds a list with the property [P]. *)
Definition file_holds (P : list story → Prop) (f : option string) : Prop :=
  ∀ text, f = Some text →
    ∃ l, text = Json.dumps (map dict_of_story l) ∧ P l.

(** Every character is printable ASCII. *)
Fixpoint printable (s : string) : Prop :=
  match s with
  | EmptyString => True
  | String c rest =>
      (32 <= N_of_ascii c <= 126)%N ∧ printable rest
  end.

(** Only whitespace, if anything. *)
Fixpoint blank (s : string) : Prop :=
  match s with
  | EmptyString => True
  | String c rest => Json.is_ws c = true ∧ blank rest
  end.

(** The file and the list in memory hold the same posts: without a file the
    list is empty, and a file holds a list with the same identifiers and
    media paths in the same order. *)
Definition in_step (st : scheduler) : Prop :=
  match store st with
  | None => scheduled_stories st = []
  | Some text =>
      ∃ l, text = Json.dumps (map dict_of_story l)
           ∧ post_key <$> l = post_key <$> scheduled_stories st
  end.

(** A world in which the upload succeeds and the publication is answered
    with an error status. *)
Definition publish_down : world :=
  mkWorld (λ _, true)
          (λ _ _ _, Return [("id", PStr "17900000000000001")])
          (λ _ _, Some (mkExc RequestException "400 Client Error: Bad Request")).

End Lifecycle.

(** ** The store over full Python strings *)

(** The records of [Insta] hold strings of code points below 256.  A Python
    [str] is a sequence of code points up to 0x10FFFF, the surrogates
    0xD800-0xDFFF included, and [json] has a treatment of its own for the
    code points above 0xFFFF and for the surrogates.  This module embeds
    [save_scheduled_stories] and [load_scheduled_stories] once more, over
    such strings; numbers, separators and whitespace are read and written as
    in [Json]. *)

Module Wide.
Import Py.

(** A [str]: its code points. *)
Definition str := list N.

(** The code points [chr] accepts: up to [sys.maxunicode]. *)
Definition is_char (c : N) : Prop := (c < 1114112)%N.
Definition is_str (s : str) : Prop := Forall is_char s.

(** A string of [Insta], character by character. *)
Definition of_string (s : string) : str :=
  N_of_ascii <$> list_ascii_of_string s.

(** 0xD800-0xDBFF and 0xDC00-0xDFFF *)
Definition high_surrogate (c : N) : bool := (55296 <=? c)%N && (c <=? 56319)%N.
Definition low_surrogate (c : N) : bool := (56320 <=? c)%N && (c <=? 57343)%N.

(** The code point above 0xFFFF a surrogate pair stands for. *)
Definition join_surrogates (high low : N) : N :=
  (65536 + ((high - 55296) * 1024 + (low - 56320)))%N.

(** *** Writing *)

(** Four hexadecimal digits, in lower case. *)
Definition hex4 (n : N) : string :=
  String (Json.hex_digit (n / 4096))
    (String (Json.hex_digit (n / 256 mod 16))
       (String (Json.hex_digit (n / 16 mod 16))
          (String (Json.hex_digit (n mod 16)) ""))).

Definition u_escape (n : N) : string :=
  String Json.backslash (String "u" (hex4 n)).

(** One character of a string literal under [ensure_ascii]: the
    two-character escapes, the character itself inside the printable ASCII
    range, one [\uxxxx] escape up to 0xFFFF (a surrogate is written like any
    other code point), and the escapes of the two halves of its surrogate
    pair above. *)
Definition escape_char (c : N) : string :=
  if (c =? 34)%N then String Json.backslash (String Json.dquote "")
  else if (c =? 92)%N then String Json.backslash (String Json.backslash "")
  else if (c =? 10)%N then String Json.backslash "n"
  else if (c =? 13)%N then String Json.backslash "r"
  else if (c =? 9)%N then String Json.backslash "t"
  else if (c =? 8)%N then String Json.backslash "b"
  else if (c =? 12)%N then String Json.backslash "f"
  else if (32 <=? c)%N && (c <=? 126)%N then String (ascii_of_N c) ""
  else if (c <? 65536)%N then u_escape c
  else
    let v := (c - 65536)%N in
    u_escape (55296 + v / 1024) +:+ u_escape (56320 + v mod 1024).

Fixpoint escape (s : str) : string :=
  match s with
  | [] => ""
  | c :: rest => escape_char c +:+ escape rest
  end.

Definition dump_str (s : str) : string :=
  String Json.dquote (escape s +:+ String Json.dquote "").

(** The scalar values of a story dictionary, and the dictionary. *)
Inductive value :=
| VInt (z : Z)
| VStr (s : str).

#[global] Instance value_eq_dec : EqDecision value.
Proof. solve_decision. Defined.

Definition dict := list (str * value).

Fixpoint dict_get (d : dict) (k : str) : option value :=
  match d with
  | [] => None
  | (k', v) :: rest => if bool_decide (k' = k) then Some v else dict_get rest k
  end.

Fixpoint dict_set (d : dict) (k : str) (v : value) : dict :=
  match d with
  | [] => [(k, v)]
  | (k', v') :: rest =>
      if bool_decide (k' = k) then (k', v) :: rest
      else (k', v') :: dict_set rest k v
  end.

Definition dump_val (v : value) : string :=
  match v with
  | VInt z => str_int z
  | VStr s => dump_str s
  end.

Definition dump_member (m : str * value) : string :=
  dump_str m.1 +:+ ": " +:+ dump_val m.2.

Fixpoint dump_members (d : dict) : string :=
  match d with
  | [] => "}"
  | [m] => dump_member m +:+ "}"
  | m :: rest => dump_member m +:+ ", " +:+ dump_members rest
  end.

Definition dump_dict (d : dict) : string := String "{" (dump_members d).

Fixpoint dump_elements (l : list dict) : string :=
  match l with
  | [] => "]"
  | [d] => dump_dict d +:+ "]"
  | d :: rest => dump_dict d +:+ ", " +:+ dump_elements rest
  end.

(** [json.dumps(l)] *)
Definition dumps (l : list dict) : string := String "[" (dump_elements l).

(** *** Reading *)

Definition hex4_value (h3 h2 h1 h0 : ascii) : option N :=
  match Json.hex_value h3, Json.hex_value h2, Json.hex_value h1,
        Json.hex_value h0 with
  | Some a, Some b, Some c, Some d => Some (((a * 16 + b) * 16 + c) * 16 + d)%N
  | _, _, _, _ => None
  end.

Definition prepend (c : N) (r : option (str * string)) : option (str * string) :=
  match r with
  | Some (s, rest) => Some (c :: s, rest)
  | None => None
  end.

(** The characters of a string literal after its opening quote, up to the
    closing quote.  After the escape of a high surrogate the decoder looks
    ahead: when a second [\u] escape follows and is that of a low surrogate,
    the two are read as one character; when it is the escape of anything
    else, the first is a character of its own and reading goes on at the
    second; when the four characters after the second [\u] are not
    hexadecimal digits, the literal is refused. *)
Fixpoint parse_chars (s : string) : option (str * string) :=
  match s with
  | EmptyString => None
  | String c rest =>
      if Ascii.eqb c Json.dquote then Some ([], rest)
      else if Ascii.eqb c Json.backslash then
        match rest with
        | String e rest1 =>
            if Ascii.eqb e "u" then
              match rest1 with
              | String h3 (String h2 (String h1 (String h0 rest2))) =>
                  match hex4_value h3 h2 h1 h0 with
                  | Some uni =>
                      let alone := prepend uni (parse_chars rest2) in
                      if high_surrogate uni then
                        match rest2 with
                        | String b (String u rest3) =>
                            if Ascii.eqb b Json.backslash && Ascii.eqb u "u" then
                              match rest3 with
                              | String g3 (String g2 (String g1 (String g0 rest4))) =>
                                  match hex4_value g3 g2 g1 g0 with
                                  | Some uni2 =>
                                      if low_surrogate uni2
                                      then prepend (join_surrogates uni uni2)
                                                   (parse_chars rest4)
                                      else alone
                                  | None => None
                                  end
                              | _ => None
                              end
                            else alone
                        | _ => alone
                        end
                      else alone
                  | None => None
                  end
              | _ => None
              end
            else
              let simple (x : N) := prepend x (parse_chars rest1) in
              if Ascii.eqb e Json.dquote then simple 34%N
              else if Ascii.eqb e Json.backslash then simple 92%N
              else if Ascii.eqb e "/" then simple 47%N
              else if Ascii.eqb e "b" then simple 8%N
              else if Ascii.eqb e "f" then simple 12%N
              else if Ascii.eqb e "n" then simple 10%N
              else if Ascii.eqb e "r" then simple 13%N
              else if Ascii.eqb e "t" then simple 9%N
              else None
        | EmptyString => None
        end
      else if (N_of_ascii c <? 32)%N then None
      else prepend (N_of_ascii c) (parse_chars rest)
  end.

Definition parse_value (s : string) : option (value * string) :=
  match s with
  | String c rest =>
      if Ascii.eqb c Json.dquote
      then match parse_chars rest with
           | Some (str, r) => Some (VStr str, r)
           | None => None
           end
      else match Json.parse_int s with
           | Some (z, r) => Some (VInt z, r)
           | None => None
           end
  | EmptyString => None
  end.

Fixpoint parse_members (fuel : nat) (s : string) (acc : dict)
  : option (dict * string) :=
  match fuel with
  | O => None
  | S fuel' =>
      match s with
      | String c r0 =>
          if Ascii.eqb c Json.dquote then
            match parse_chars r0 with
            | Some (k, r1) =>
                match Json.skip_ws r1 with
                | String c2 r2 =>
                    if Ascii.eqb c2 ":" then
                      match parse_value (Json.skip_ws r2) with
                      | Some (v, r3) =>
                          let acc' := dict_set acc k v in
                          match Json.skip_ws r3 with
                          | String c4 r4 =>
                              if Ascii.eqb c4 ","
                              then parse_members fuel' (Json.skip_ws r4) acc'
                              else if Ascii.eqb c4 "}" then Some (acc', r4)
                              else None
                          | EmptyString => None
                          end
                      | None => None
                      end
                    else None
                | EmptyString => None
                end
            | None => None
            end
          else None
      | EmptyString => None
      end
  end.

Definition parse_dict (s : string) : option (dict * string) :=
  match Json.skip_ws s with
  | String c r =>
      if Ascii.eqb c "}" then Some ([], r)
      else parse_members (String.length (Json.skip_ws s)) (Json.skip_ws s) []
  | EmptyString => None
  end.

Fixpoint parse_elements (fuel : nat) (s : string) (acc : list dict)
  : option (list dict * string) :=
  match fuel with
  | O => None
  | S fuel' =>
      match s with
      | String c r0 =>
          if Ascii.eqb c "{" then
            match parse_dict r0 with
            | Some (d, r1) =>
                match Json.skip_ws r1 with
                | String c2 r2 =>
                    if Ascii.eqb c2 ","
                    then parse_elements fuel' (Json.skip_ws r2) (acc ++ [d])%list
                    else if Ascii.eqb c2 "]" then Some ((acc ++ [d])%list, r2)
                    else None
                | EmptyString => None
                end
            | None => None
            end
          else None
      | EmptyString => None
      end
  end.

(** [json.loads(text)], on the same fragment of documents as [Json.loads]. *)
Definition loads (text : string) : option (list dict) :=
  match Json.skip_ws text with
  | String c r =>
      if Ascii.eqb c "[" then
        match Json.skip_ws r with
        | String c1 r1 =>
            if Ascii.eqb c1 "]"
            then match Json.skip_ws r1 with EmptyString => Some [] | _ => None end
            else
              match parse_elements (String.length (Json.skip_ws r))
                                   (Json.skip_ws r) [] with
              | Some (l, r2) =>
                  match Json.skip_ws r2 with EmptyString => Some l | _ => None end
              | None => None
              end
        | EmptyString => None
        end
      else None
  | EmptyString => None
  end.

Definition set_member (acc : dict) (m : str * value) : dict :=
  dict_set acc m.1 m.2.

Definition dict_wf (d : dict) : Prop := NoDup d.*1.

(** *** The records and the two methods *)

Record story := mkStory {
  id : Z;
  media_path : str;
  scheduled_time : str;
  caption : str;
  status : str;
  error : option str
}.

#[global] Instance story_eq_dec : EqDecision story.
Proof. solve_decision. Defined.

Definition dict_of_story (s : story) : dict :=
  ([ (of_string "id", VInt (id s));
     (of_string "media_path", VStr (media_path s));
     (of_string "scheduled_time", VStr (scheduled_time s));
     (of_string "caption", VStr (caption s));
     (of_string "status", VStr (status s)) ]
  ++ match error s with
     | Some e => [(of_string "error", VStr e)]
     | None => []
     end)%list.

Definition story_of_dict (d : dict) : option story :=
  match dict_get d (of_string "id"), dict_get d (of_string "media_path"),
        dict_get d (of_string "scheduled_time"),
        dict_get d (of_string "caption"), dict_get d (of_string "status") with
  | Some (VInt i), Some (VStr p), Some (VStr t), Some (VStr c), Some (VStr s) =>
      let e := match dict_get d (of_string "error") with
               | Some (VStr e) => Some e
               | _ => None
               end in
      let cand := mkStory i p t c s e in
      if decide (dict_of_story cand = d) then Some cand else None
  | _, _, _, _, _ => None
  end.

(** The attribute and the file the two methods work on. *)
Record scheduler := mkScheduler {
  scheduled_stories : list story;
  store : option string
}.

(** [load_scheduled_stories] *)
Definition load_scheduled_stories (st : scheduler) : scheduler * result unit :=
  match store st with
  | None => (mkScheduler [] (store st), Return tt)
  | Some text =>
      match loads text ≫= mapM story_of_dict with
      | Some l => (mkScheduler l (store st), Return tt)
      | None => (st, Raise (mkExc JSONDecodeError "Expecting value"))
      end
  end.

(** [save_scheduled_stories] *)
Definition save_scheduled_stories (st : scheduler) : scheduler :=
  mkScheduler (scheduled_stories st)
              (Some (dumps (map dict_of_story (scheduled_stories st)))).

(** A high surrogate directly followed by a low surrogate somewhere in the
    string. *)
Fixpoint has_surrogate_pair (s : str) : bool :=
  match s with
  | c :: rest =>
      match rest with
      | c' :: _ => high_surrogate c && low_surrogate c' || has_surrogate_pair rest
      | [] => false
      end
  | [] => false
  end.

(** The strings that are written and read back as they are. *)
Definition plain (s : str) : Prop :=
  is_str s ∧ has_surrogate_pair s = false.

Definition story_plain (s : story) : Prop :=
  plain (media_path s) ∧ plain (scheduled_time s) ∧ plain (caption s)
  ∧ plain (status s) ∧ (∀ e, error s = Some e → plain e).

(** What may follow the escape of a high surrogate for it to be read as a
    character of its own: anything but the [\u] escape of a low surrogate. *)
Definition unpaired (text : string) : Prop :=
  match text with
  | String b r =>
      if Ascii.eqb b Json.backslash then
        match r with
        | String u r' =>
            if Ascii.eqb u "u" then
              match r' with
              | String g3 (String g2 (String g1 (String g0 _))) =>
                  ∃ x, hex4_value g3 g2 g1 g0 = Some x ∧ low_surrogate x = false
              | _ => False
              end
            else True
        | EmptyString => True
        end
      else True
  | EmptyString => True
  end.

Definition value_plain (v : value) : Prop :=
  match v with
  | VInt _ => True
  | VStr s => plain s
  end.

Definition dict_plain (d : dict) : Prop :=
  Forall (λ m, plain m.1 ∧ value_plain m.2) d.

(** *** The records of [Insta] among these *)

Definition widen_value (v : pyval) : value :=
  match v with
  | PInt z => VInt z
  | PStr s => VStr (of_string s)
  end.

Definition widen_dict (d : Py.dict) : dict :=
  (λ m, (of_string m.1, widen_value m.2)) <$> d.

Definition widen (s : Insta.story) : story :=
  mkStory (Insta.id s) (of_string (Insta.media_path s))
          (of_string (Insta.scheduled_time s)) (of_string (Insta.caption s))
          (of_string (Insta.status s)) (of_string <$> Insta.error s).

(** *** A record that is not read back as it was written *)

(** A story whose caption is the two code points 0xD83D and 0xDE00, a high
    surrogate and a low surrogate that were not entered as one character
    (the text of a caption that was cut or decoded half by half, say). *)
Definition paired : story :=
  mkStory 1 (of_string "a.jpg") (of_string "2026-11-05T12:00:00")
          [55357; 56832]%N (of_string "scheduled") None.

(** A story whose caption is made of a Latin letter with an accent, a
    character of the basic plane, a character above 0xFFFF and a high
    surrogate on its own. *)
Definition mixed : story :=
  mkStory 1 (of_string "a.jpg") (of_string "2026-11-05T12:00:00")
          [233; 26085; 128512; 55357; 33]%N (of_string "scheduled") None.

End Wide.

(** * Properties *)

(** ** Reading back what was written *)

Module JsonFacts.
Import Py Json.

Lemma append_nil (b : string) : "" +:+ b = b.
Proof. reflexivity. Qed.

Lemma append_cons (x : ascii) (a b : string) :
  String x a +:+ b = String x (a +:+ b).
Proof. reflexivity. Qed.

Lemma append_assoc (a b c : string) : (a +:+ b) +:+ c = a +:+ (b +:+ c).
Proof.
  induction a as [|x a IH]; [reflexivity|].
  by rewrite !append_cons, IH.
Qed.

Lemma length_append (a b : string) :
  String.length (a +:+ b) = String.length a + String.length b.
Proof.
  induction a as [|x a IH]; [reflexivity|].
  rewrite append_cons. simpl. by rewrite IH.
Qed.

(** *** String literals *)

Lemma parse_chars_escape_char (c : ascii) (tl : string) :
  parse_chars (escape_char c +:+ tl) =
  match parse_chars tl with
  | Some (str, r) => Some (String c str, r)
  | None => None
  end.
Proof.
  destruct c as [[] [] [] [] [] [] [] []]; reflexivity.
Qed.

Lemma parse_chars_escape (s rest : string) :
  parse_chars (escape s +:+ String dquote rest) = Some (s, rest).
Proof.
  induction s as [|c s IH].
  - reflexivity.
  - change (escape (String c s)) with (escape_char c +:+ escape s).
    by rewrite append_assoc, parse_chars_escape_char, IH.
Qed.

Lemma dump_str_append (s rest : string) :
  dump_str s +:+ rest = String dquote (escape s +:+ String dquote rest).
Proof. unfold dump_str. by rewrite append_cons, append_assoc. Qed.

(** *** Integers *)

Lemma span_digits_uint (d : Decimal.uint) (rest : string) :
  ends_number rest →
  span_digits (NilEmpty.string_of_uint d +:+ rest) =
  (NilEmpty.string_of_uint d, rest).
Proof.
  intros Hrest.
  induction d as [|d IH|d IH|d IH|d IH|d IH|d IH|d IH|d IH|d IH|d IH];
    simpl NilEmpty.string_of_uint;
    rewrite ?append_cons; simpl span_digits; rewrite ?IH; try reflexivity.
  rewrite append_nil. destruct rest as [|c r]; [reflexivity|].
  destruct Hrest as [Hc _]. simpl. by rewrite Hc.
Qed.

Lemma digits_head (n : N) :
  ∃ c s, digits n = String c s ∧ is_digit c = true.
Proof.
  unfold digits. destruct n as [|p].
  - by exists "0"%char, "".
  - simpl. pose proof (DecimalPos.Unsigned.to_uint_nonnil p) as Hnil.
    destruct (Pos.to_uint p); try done; simpl; eauto.
Qed.

Lemma parse_nat_digits (n : N) (rest : string) :
  ends_number rest →
  parse_nat (digits n +:+ rest) = Some (n, rest).
Proof.
  intros Hrest. unfold parse_nat, digits.
  rewrite span_digits_uint by done.
  rewrite NilEmpty.usu, DecimalN.Unsigned.of_to, String.eqb_refl.
  destruct rest as [|c r]; [reflexivity|].
  destruct Hrest as [_ ->]. reflexivity.
Qed.

Lemma parse_int_str_int (z : Z) (rest : string) :
  ends_number rest →
  parse_int (str_int z +:+ rest) = Some (z, rest).
Proof.
  intros Hrest. destruct z as [|p|p].
  - change (str_int 0) with (digits 0).
    destruct (digits_head 0) as (c & s & Hd & Hc).
    pose proof (parse_nat_digits 0 rest Hrest) as Hp. rewrite Hd in *.
    rewrite append_cons in *. unfold parse_int.
    destruct (Ascii.eqb_spec c "-") as [->|_]; [done|]. by rewrite Hp.
  - change (str_int (Z.pos p)) with (digits (N.pos p)).
    destruct (digits_head (N.pos p)) as (c & s & Hd & Hc).
    pose proof (parse_nat_digits (N.pos p) rest Hrest) as Hp. rewrite Hd in *.
    rewrite append_cons in *. unfold parse_int.
    destruct (Ascii.eqb_spec c "-") as [->|_]; [done|]. by rewrite Hp.
  - change (str_int (Z.neg p)) with (String "-" (digits (N.pos p))).
    rewrite append_cons. unfold parse_int.
    change (Ascii.eqb "-" "-") with true. cbv iota.
    by rewrite parse_nat_digits.
Qed.

(** The first character of a written integer is a digit or the sign. *)
Lemma str_int_head (z : Z) :
  ∃ c s, str_int z = String c s ∧ (is_digit c = true ∨ c = "-"%char).
Proof.
  destruct z as [|p|p].
  - exists "0"%char, "". auto.
  - destruct (digits_head (N.pos p)) as (c & s & Hd & Hc). exists c, s. auto.
  - exists "-"%char, (digits (N.pos p)). auto.
Qed.

(** *** Values and members *)

Lemma closes_value_ends_number (c : ascii) (r : string) :
  closes_value c → ends_number (String c r).
Proof. by intros [-> | ->]. Qed.

Lemma parse_value_dump_val (v : pyval) (c : ascii) (r : string) :
  closes_value c →
  parse_value (dump_val v +:+ String c r) = Some (v, String c r).
Proof.
  intros Hc. destruct v as [z|s]; unfold dump_val.
  - pose proof (parse_int_str_int z _ (closes_value_ends_number c r Hc)) as Hp.
    destruct (str_int_head z) as (x & s & Hz & Hx). rewrite Hz in *.
    rewrite append_cons in *. unfold parse_value.
    destruct (Ascii.eqb_spec x dquote) as [->|_].
    + by destruct Hx.
    + by rewrite Hp.
  - rewrite dump_str_append. unfold parse_value.
    change (Ascii.eqb dquote dquote) with true. cbv iota.
    by rewrite parse_chars_escape.
Qed.

Lemma skip_ws_dump_val (v : pyval) (rest : string) :
  skip_ws (dump_val v +:+ rest) = dump_val v +:+ rest.
Proof.
  destruct v as [z|s]; unfold dump_val.
  - destruct (str_int_head z) as (x & s & -> & Hx). rewrite append_cons.
    destruct Hx as [Hx | ->]; [|reflexivity].
    destruct x as [[] [] [] [] [] [] [] []]; done.
  - by rewrite dump_str_append.
Qed.

Lemma skip_ws_closes (c : ascii) (r : string) :
  closes_value c → skip_ws (String c r) = String c r.
Proof. by intros [-> | ->]. Qed.

(** One member followed by a separator. *)
Lemma parse_member (k : string) (v : pyval) (c : ascii) (r : string) :
  closes_value c →
  ∃ r0, dump_member (k, v) +:+ String c r = String dquote r0 ∧
        parse_chars r0 = Some (k, ": " +:+ dump_val v +:+ String c r) ∧
        skip_ws (": " +:+ dump_val v +:+ String c r) =
          String ":" (" " +:+ dump_val v +:+ String c r) ∧
        skip_ws (" " +:+ dump_val v +:+ String c r) = dump_val v +:+ String c r.
Proof.
  intros Hc. unfold dump_member. simpl fst. simpl snd.
  rewrite !append_assoc, dump_str_append.
  eexists. split; [reflexivity|]. split; [apply parse_chars_escape|].
  split; [reflexivity|].
  rewrite append_cons, append_nil.
  change (skip_ws (String " " ?x)) with (skip_ws x).
  apply skip_ws_dump_val.
Qed.

Lemma parse_members_dump (d : dict) :
  ∀ (fuel : nat) (acc : dict) (rest : string),
    d ≠ [] → length d ≤ fuel →
    parse_members fuel (dump_members d +:+ rest) acc =
    Some (foldl set_member acc d, rest).
Proof.
  induction d as [|[k v] d IH]; intros fuel acc rest Hne Hfuel; [done|].
  destruct fuel as [|fuel]; [simpl in Hfuel; lia|].
  destruct d as [|m d].
  - change (dump_members [(k, v)]) with (dump_member (k, v) +:+ "}").
    rewrite append_assoc, append_cons, append_nil.
    destruct (parse_member k v "}" rest) as (r0 & -> & Hk & Hws1 & Hws2);
      [by right|].
    cbn [parse_members]. change (Ascii.eqb dquote dquote) with true. cbv iota.
    rewrite Hk. cbv iota beta. rewrite Hws1.
    change (Ascii.eqb ":" ":") with true. cbv iota.
    rewrite Hws2, parse_value_dump_val by (by right).
    reflexivity.
  - change (dump_members ((k, v) :: m :: d))
      with (dump_member (k, v) +:+ ", " +:+ dump_members (m :: d)).
    rewrite !append_assoc, append_cons.
    destruct (parse_member k v "," (" " +:+ dump_members (m :: d) +:+ rest))
      as (r0 & -> & Hk & Hws1 & Hws2); [by left|].
    cbn [parse_members]. change (Ascii.eqb dquote dquote) with true. cbv iota.
    rewrite Hk. cbv iota beta. rewrite Hws1.
    change (Ascii.eqb ":" ":") with true. cbv iota.
    rewrite Hws2, parse_value_dump_val by (by left).
    cbv iota beta. change (skip_ws (String "," ?x)) with (String "," x).
    cbv iota. change (Ascii.eqb "," ",") with true. cbv iota.
    rewrite append_cons, append_nil.
    change (skip_ws (String " " ?x)) with (skip_ws x).
    assert (∃ x, dump_members (m :: d) +:+ rest = String dquote x) as [x Hx].
    { destruct d; simpl dump_members; unfold dump_member;
        rewrite !append_assoc, dump_str_append; eauto. }
    rewrite Hx. change (skip_ws (String dquote x)) with (String dquote x).
    rewrite <- Hx. apply IH; [done | simpl in *; lia].
Qed.

Lemma dict_set_fresh (acc : dict) (k : string) (v : pyval) :
  k ∉ acc.*1 → dict_set acc k v = acc ++ [(k, v)].
Proof.
  induction acc as [|[k' v'] acc IH]; intros Hk; [reflexivity|].
  simpl in *. apply not_elem_of_cons in Hk as [Hne Hk].
  destruct (String.eqb_spec k' k) as [->|_]; [done|].
  by rewrite IH.
Qed.

Lemma foldl_set_member (d acc : dict) :
  dict_wf (acc ++ d) → foldl set_member acc d = acc ++ d.
Proof.
  revert acc. induction d as [|[k v] d IH]; intros acc Hwf; simpl.
  - by rewrite app_nil_r.
  - unfold set_member at 2. simpl.
    assert (Hwf' : dict_wf ((acc ++ [(k, v)]) ++ d)) by (by rewrite <- app_assoc).
    unfold dict_wf in Hwf. rewrite fmap_app in Hwf.
    apply NoDup_app in Hwf as (_ & Hdisj & _).
    rewrite dict_set_fresh.
    + rewrite IH by done. by rewrite <- app_assoc.
    + intros Hin. apply (Hdisj _ Hin). csimpl. left.
Qed.

Lemma dump_members_length (d : dict) (rest : string) :
  length d ≤ String.length (dump_members d +:+ rest).
Proof.
  induction d as [|[k v] d IH]; [simpl; lia|].
  destruct d as [|m d].
  - change (dump_members [(k, v)]) with (dump_member (k, v) +:+ "}").
    rewrite !length_append. simpl. lia.
  - change (dump_members ((k, v) :: m :: d))
      with (dump_member (k, v) +:+ ", " +:+ dump_members (m :: d)).
    rewrite !length_append in *. change (String.length ", ") with 2.
    change (length ((k, v) :: m :: d)) with (S (length (m :: d))). lia.
Qed.

Lemma dump_members_head (d : dict) (rest : string) :
  d ≠ [] → ∃ x, dump_members d +:+ rest = String dquote x.
Proof.
  destruct d as [|[k v] d]; [done|]. intros _.
  destruct d; simpl dump_members; unfold dump_member;
    rewrite !append_assoc, dump_str_append; eauto.
Qed.

(** *** Objects and the array *)

Lemma parse_dict_dump (d : dict) (rest : string) :
  dict_wf d →
  parse_dict (dump_members d +:+ rest) = Some (d, rest).
Proof.
  intros Hwf. destruct d as [|m d]; [reflexivity|].
  destruct (dump_members_head (m :: d) rest) as [x Hx]; [done|].
  unfold parse_dict. rewrite Hx.
  change (skip_ws (String dquote x)) with (String dquote x). cbv iota.
  change (Ascii.eqb dquote "}") with false. cbv iota.
  rewrite <- Hx, parse_members_dump; [| done | apply dump_members_length].
  by rewrite foldl_set_member.
Qed.

Lemma dump_elements_length (l : list dict) (rest : string) :
  length l ≤ String.length (dump_elements l +:+ rest).
Proof.
  induction l as [|d l IH]; [simpl; lia|].
  destruct l as [|d' l].
  - change (dump_elements [d]) with (dump_dict d +:+ "]").
    rewrite !length_append. simpl. lia.
  - change (dump_elements (d :: d' :: l))
      with (dump_dict d +:+ ", " +:+ dump_elements (d' :: l)).
    rewrite !length_append in *. change (String.length ", ") with 2.
    change (length (d :: d' :: l)) with (S (length (d' :: l))). lia.
Qed.

Lemma parse_elements_dump (l : list dict) :
  ∀ (fuel : nat) (acc : list dict) (rest : string),
    l ≠ [] → Forall dict_wf l → length l ≤ fuel →
    parse_elements fuel (dump_elements l +:+ rest) acc = Some (acc ++ l, rest).
Proof.
  induction l as [|d l IH]; intros fuel acc rest Hne Hwf Hfuel; [done|].
  destruct fuel as [|fuel]; [simpl in Hfuel; lia|].
  apply Forall_cons in Hwf as [Hd Hl].
  destruct l as [|d' l].
  - change (dump_elements [d]) with (String "{" (dump_members d) +:+ "]").
    rewrite append_assoc, !append_cons, append_nil.
    cbn [parse_elements]. change (Ascii.eqb "{" "{") with true. cbv iota.
    rewrite parse_dict_dump by done. reflexivity.
  - change (dump_elements (d :: d' :: l))
      with (String "{" (dump_members d) +:+ ", " +:+ dump_elements (d' :: l)).
    rewrite !append_assoc, !append_cons, append_nil.
    cbn [parse_elements]. change (Ascii.eqb "{" "{") with true. cbv iota.
    rewrite parse_dict_dump by done. cbv iota beta.
    change (skip_ws (String "," ?x)) with (String "," x). cbv iota.
    change (Ascii.eqb "," ",") with true. cbv iota.
    change (skip_ws (String " " ?x)) with (skip_ws x).
    assert (∃ x, dump_elements (d' :: l) +:+ rest = String "{" x) as [x Hx].
    { destruct l; simpl dump_elements; unfold dump_dict;
        rewrite ?append_assoc, append_cons; eauto. }
    rewrite Hx. change (skip_ws (String "{" x)) with (String "{" x).
    rewrite <- Hx, IH; [| done | done | simpl in *; lia].
    by rewrite <- app_assoc.
Qed.

Lemma append_nil_r (a : string) : a +:+ "" = a.
Proof.
  induction a as [|x a IH]; [reflexivity|]. by rewrite append_cons, IH.
Qed.

(** [json.loads(json.dumps(l)) == l] *)
Lemma loads_dumps (l : list dict) :
  Forall dict_wf l → loads (dumps l) = Some l.
Proof.
  intros Hwf. destruct l as [|d l]; [reflexivity|].
  unfold loads, dumps.
  change (skip_ws (String "[" ?x)) with (String "[" x). cbv iota.
  change (Ascii.eqb "[" "[") with true. cbv iota.
  assert (∃ x, dump_elements (d :: l) = String "{" x) as [x Hx].
  { destruct l; simpl dump_elements; unfold dump_dict;
      rewrite ?append_cons; eauto. }
  rewrite Hx. change (skip_ws (String "{" x)) with (String "{" x). cbv iota.
  change (Ascii.eqb "{" "]") with false. cbv iota.
  rewrite <- Hx, <- (append_nil_r (dump_elements (d :: l))).
  rewrite parse_elements_dump; [reflexivity | done | done |].
  apply dump_elements_length.
Qed.

End JsonFacts.

(** ** The scheduler *)

Module InstaFacts.
Import Py Json Timer Insta JsonFacts.

(** *** Stories as dictionaries *)

Lemma dict_of_story_wf (s : story) : dict_wf (dict_of_story s).
Proof.
  destruct s as [i p t c st [e|]]; unfold dict_wf, dict_of_story; simpl;
    apply (bool_decide_unpack _); vm_compute; exact I.
Qed.

Lemma story_of_dict_of_story (s : story) :
  story_of_dict (dict_of_story s) = Some s.
Proof.
  destruct s as [i p t c st [e|]]; unfold story_of_dict; simpl;
    by rewrite decide_True.
Qed.

Lemma mapM_story_of_dict (l : list story) :
  mapM story_of_dict (map dict_of_story l) = Some l.
Proof.
  induction l as [|s l IH]; [reflexivity|].
  simpl. by rewrite story_of_dict_of_story, IH.
Qed.

Lemma loads_stories (l : list story) :
  loads (dumps (map dict_of_story l)) ≫= mapM story_of_dict = Some l.
Proof.
  rewrite loads_dumps.
  - simpl. apply mapM_story_of_dict.
  - apply Forall_forall. intros d Hd.
    apply list_elem_of_In, in_map_iff in Hd as (s & <- & _).
    apply dict_of_story_wf.
Qed.

(** *** The loop of cancel and modify *)

Lemma scheduled_with_test (story_id : Z) (s : story) :
  (id s =? story_id)%Z && String.eqb (status s) "scheduled" = true
  ↔ scheduled_with story_id s.
Proof.
  unfold scheduled_with.
  rewrite andb_true_iff, Z.eqb_eq, String.eqb_eq. reflexivity.
Qed.

Lemma find_scheduled_None (story_id : Z) (l : list story) :
  find_scheduled story_id l = None ↔
  ∀ s, s ∈ l → ¬ scheduled_with story_id s.
Proof.
  induction l as [|x l IH]; simpl.
  - split; [|done]. intros _ s Hs. by apply elem_of_nil in Hs.
  - destruct ((id x =? story_id)%Z && String.eqb (status x) "scheduled") eqn:Hx.
    + split; [done|]. intros H. exfalso.
      apply (H x); [left | by apply scheduled_with_test].
    + rewrite fmap_None, IH. split.
      * intros H s Hs. apply elem_of_cons in Hs as [->|Hs]; [|by apply H].
        rewrite <- scheduled_with_test. by rewrite Hx.
      * intros H s Hs. apply H. by right.
Qed.

Lemma find_scheduled_Some (story_id : Z) (l : list story) (ref : nat) :
  find_scheduled story_id l = Some ref ↔ first_scheduled story_id l ref.
Proof.
  revert ref. induction l as [|x l IH]; intros ref; simpl.
  - split; [done|]. by intros [(s & Hs & _) _].
  - destruct ((id x =? story_id)%Z && String.eqb (status x) "scheduled") eqn:Hx.
    + split.
      * intros [= <-]. split.
        -- exists x. split; [done|]. by apply scheduled_with_test.
        -- intros i s Hi. lia.
      * intros [_ Hfirst]. destruct ref as [|ref]; [done|].
        exfalso. apply (Hfirst 0 x); [lia | done |].
        by apply scheduled_with_test.
    + rewrite fmap_Some. split.
      * intros (r & Hr & ->). apply IH in Hr as [Hhere Hfirst]. split; [done|].
        intros [|i] s Hi Hs; simpl in Hs.
        -- injection Hs as <-. rewrite <- scheduled_with_test. by rewrite Hx.
        -- apply (Hfirst i s); [lia | done].
      * intros [(s & Hs & Hm) Hfirst]. destruct ref as [|ref].
        -- simpl in Hs. injection Hs as <-.
           apply scheduled_with_test in Hm. congruence.
        -- exists ref. split; [|done]. apply IH. split; [by exists s|].
           intros i s' Hi Hs'. apply (Hfirst (S i) s'); [lia | done].
Qed.

(** *** Assignments to a story *)

Lemma lookup_update_story (st : scheduler) (ref i : nat) (f : story → story) :
  scheduled_stories (update_story ref f st) !! i =
  if decide (i = ref) then f <$> scheduled_stories st !! i
  else scheduled_stories st !! i.
Proof.
  unfold update_story. simpl. rewrite list_lookup_alter.
  repeat case_decide; by subst.
Qed.

Lemma length_update_story (st : scheduler) (ref : nat) (f : story → story) :
  length (scheduled_stories (update_story ref f st)) =
  length (scheduled_stories st).
Proof. unfold update_story. simpl. apply length_alter. Qed.

(** *** The outcomes of [post_story] *)

Lemma post_story_cases (w : world) (st : scheduler) (ref : nat) :
  post_story w st ref = (st, Return tt)
  ∨ (∃ e, post_story w st ref = (marked_failed e ref st, Raise e))
  ∨ post_story w st ref = (marked_posted ref st, Return tt).
Proof.
  unfold post_story, marked_failed, marked_posted.
  destruct (upload_media _ _ _) as [resp|e]; [|right; left; by exists e].
  destruct (dict_get resp "id") as [media_id|]; [|by left].
  destruct (truthy media_id); [|by left].
  destruct (http_create_story _ _ _) as [e|].
  - right; left. by exists e.
  - by right; right.
Qed.

(** *** The invariant of the reachable states *)

Lemma ids_ok_update (st : scheduler) (ref : nat) (f : story → story) :
  (∀ s, id (f s) = id s) →
  ids_ok (scheduled_stories st) →
  ids_ok (scheduled_stories (update_story ref f st)).
Proof.
  intros Hf Hids i s. rewrite lookup_update_story.
  case_decide; [|apply Hids]. subst. rewrite fmap_Some.
  intros (s0 & Hs0 & ->). rewrite Hf. by apply Hids.
Qed.

Lemma store_ok_save (st : scheduler) :
  ids_ok (scheduled_stories st) → store_ok (store (save_scheduled_stories st)).
Proof. intros Hids text [= <-]. eauto. Qed.

Lemma jobs_ok_update_keep (st : scheduler) (ref : nat) (f : story → story) :
  (∀ s, id (f s) = id s ∧ status (f s) = status s) →
  jobs_ok st → jobs_ok (update_story ref f st).
Proof.
  intros Hf Hjobs k j Hk. destruct (Hjobs k j Hk) as (s & Hs & Hst & ->).
  rewrite lookup_update_story. case_decide.
  - exists (f s). rewrite Hs. destruct (Hf s) as [-> ->]. done.
  - by exists s.
Qed.

Lemma jobs_ok_update_other (st : scheduler) (ref : nat) (f : story → story) :
  (∀ k j, jobs st !! k = Some j → args j ≠ ref) →
  jobs_ok st → jobs_ok (update_story ref f st).
Proof.
  intros Hother Hjobs k j Hk. destruct (Hjobs k j Hk) as (s & Hs & Hst & ->).
  rewrite lookup_update_story. rewrite decide_False by by eapply Hother.
  by exists s.
Qed.

Lemma jobs_ok_save (st : scheduler) :
  jobs_ok st → jobs_ok (save_scheduled_stories st).
Proof. done. Qed.

Lemma jobs_ok_delete (st : scheduler) (k : string) :
  jobs_ok st → jobs_ok (with_jobs (delete k (jobs st)) st).
Proof.
  intros Hjobs k' j Hk. simpl in Hk.
  apply lookup_delete_Some in Hk as [_ Hk]. by apply Hjobs.
Qed.

(** Two pending jobs never share a story. *)
Lemma jobs_ok_unique (st : scheduler) (k1 k2 : string) (j1 j2 : job) :
  jobs_ok st →
  jobs st !! k1 = Some j1 → jobs st !! k2 = Some j2 →
  args j1 = args j2 → k1 = k2.
Proof.
  intros Hjobs H1 H2 Hargs.
  destruct (Hjobs _ _ H1) as (s1 & Hs1 & _ & ->).
  destruct (Hjobs _ _ H2) as (s2 & Hs2 & _ & ->).
  rewrite Hargs in Hs1. congruence.
Qed.

Lemma invariant_first (token account : string) :
  invariant (mkScheduler token account ∅ [] None).
Proof.
  split; simpl.
  - intros i s Hs. by rewrite lookup_nil in Hs.
  - intros text Htext. discriminate.
  - intros k j Hk. simpl in Hk. by rewrite lookup_empty in Hk.
Qed.

Lemma invariant_schedule (w : world) (st : scheduler) (media_path : string)
    (scheduled_time : datetime) (caption : string) :
  invariant st →
  invariant (schedule_story w st media_path scheduled_time caption).1.
Proof.
  intros [Hids Hstore Hjobs]. unfold schedule_story.
  destruct (path_exists w media_path); simpl; [|done].
  set (story_data := mkStory _ _ _ _ _ _).
  assert (Hids' : ids_ok (scheduled_stories st ++ [story_data])).
  { intros i s Hs. apply lookup_app_Some in Hs as [Hs | [Hlen Hs]].
    - by apply Hids.
    - apply list_lookup_singleton_Some in Hs as [Hi <-]. simpl. lia. }
  assert (Hjobs' : ∀ k j, jobs st !! k = Some j →
            ∃ s, (scheduled_stories st ++ [story_data]) !! args j = Some s ∧
                 status s = "scheduled" ∧ k = str_int (id s)).
  { intros k j Hk. destruct (Hjobs k j Hk) as (s & Hs & Hst & ->).
    exists s. split; [|done]. by apply lookup_app_l_Some. }
  unfold add_job. simpl.
  destruct (jobs st !! _) as [j0|] eqn:Hfree; simpl.
  - split; simpl; [done | by apply (store_ok_save (with_stories _ st)) | done].
  - split; simpl; [done | by apply (store_ok_save (with_stories _ st)) |].
    intros k j Hk. simpl in Hk. apply lookup_insert_Some in Hk as [[<- <-] | [_ Hk]].
    + exists story_data. simpl. split; [|done].
      by apply list_lookup_middle.
    + by apply Hjobs'.
Qed.

Lemma invariant_post_story (w : world) (st : scheduler) (ref : nat) :
  invariant st →
  (∀ k j, jobs st !! k = Some j → args j ≠ ref) →
  invariant (post_story w st ref).1.
Proof.
  intros [Hids Hstore Hjobs] Hother.
  destruct (post_story_cases w st ref) as [-> | [[e ->] | ->]]; simpl.
  - done.
  - unfold marked_failed. split.
    + by do 2 (apply ids_ok_update; [done|]).
    + apply store_ok_save. by do 2 (apply ids_ok_update; [done|]).
    + apply jobs_ok_save. by do 2 (apply jobs_ok_update_other; [done|]).
  - unfold marked_posted. split.
    + by apply ids_ok_update.
    + apply store_ok_save. by apply ids_ok_update.
    + apply jobs_ok_save. by apply jobs_ok_update_other.
Qed.

Lemma invariant_fire (w : world) (st : scheduler) (job_id : string) :
  invariant st → invariant (fire w st job_id).1.
Proof.
  intros Hinv. unfold fire.
  destruct (jobs st !! job_id) as [j|] eqn:Hj; [|done].
  apply invariant_post_story.
  - destruct Hinv as [Hids Hstore Hjobs]. split; [done | done |].
    by apply jobs_ok_delete.
  - intros k j' Hk Hargs. simpl in Hk.
    apply lookup_delete_Some in Hk as [Hne Hk].
    apply Hne. symmetry.
    by apply (jobs_ok_unique st k job_id j' j (inv_jobs _ Hinv)).
Qed.

Lemma invariant_cancel (st : scheduler) (story_id : Z) :
  invariant st → invariant (cancel_scheduled_story st story_id).1.
Proof.
  intros [Hids Hstore Hjobs]. unfold cancel_scheduled_story.
  destruct (find_scheduled story_id (scheduled_stories st)) as [ref|] eqn:Hfind;
    [|done].
  apply find_scheduled_Some in Hfind as [(s & Hs & <- & Hst) _].
  unfold remove_job. simpl.
  destruct (jobs st !! str_int (id s)) as [j|] eqn:Hj; simpl.
  - assert (Hother : ∀ k j', delete (str_int (id s)) (jobs st) !! k = Some j' →
                       args j' ≠ ref).
    { intros k j' Hk Hargs. apply lookup_delete_Some in Hk as [Hne Hk].
      destruct (Hjobs k j' Hk) as (s' & Hs' & _ & ->).
      rewrite Hargs in Hs'. congruence. }
    split.
    + by apply (ids_ok_update st).
    + apply (store_ok_save (with_jobs _ (update_story _ _ _))).
      by apply (ids_ok_update st).
    + apply (jobs_ok_save (with_jobs _ (update_story _ _ _))).
      apply (jobs_ok_update_other (with_jobs _ st)); [done|].
      by apply jobs_ok_delete.
  - split; [by apply (ids_ok_update st) | done |].
    apply jobs_ok_update_other; [|done].
    intros k j' Hk Hargs. destruct (Hjobs k j' Hk) as (s' & Hs' & _ & ->).
    rewrite Hargs in Hs'. congruence.
Qed.

Lemma jobs_ok_reschedule (st : scheduler) (k : string) (j : job) (t : datetime) :
  jobs_ok st → jobs st !! k = Some j →
  jobs_ok (with_jobs (<[k := mkJob t (args j)]> (jobs st)) st).
Proof.
  intros Hjobs Hj k' j' Hk. simpl in Hk.
  apply lookup_insert_Some in Hk as [[<- <-] | [_ Hk]]; simpl.
  - by apply Hjobs.
  - by apply Hjobs.
Qed.

Lemma invariant_modify (st : scheduler) (story_id : Z)
    (new_time : option datetime) (new_caption : option string) :
  invariant st →
  invariant (modify_scheduled_story st story_id new_time new_caption).1.
Proof.
  intros Hinv. unfold modify_scheduled_story.
  destruct (find_scheduled story_id (scheduled_stories st)) as [ref|]; [|done].
  assert (Hstep1 : ∀ st0 f,
            (∀ s, id (f s) = id s ∧ status (f s) = status s) →
            invariant st0 → invariant (update_story ref f st0)).
  { intros st0 f Hf [Hids Hstore Hjobs]. split.
    - apply ids_ok_update; [apply Hf | done].
    - done.
    - by apply jobs_ok_update_keep. }
  assert (Hsave : ∀ st0, invariant st0 → invariant (save_scheduled_stories st0)).
  { intros st0 [Hids Hstore Hjobs]. split; [done | by apply store_ok_save | done]. }
  assert (Hcap : ∀ st0, invariant st0 →
            invariant (match new_caption with
                       | Some c => update_story ref (set_caption c) st0
                       | None => st0
                       end)).
  { intros st0 Hst0. destruct new_caption; [by apply Hstep1 | done]. }
  destruct new_time as [t|]; simpl.
  - unfold reschedule_job. simpl.
    destruct (jobs st !! str_int story_id) as [j|] eqn:Hj; simpl.
    + apply Hsave, Hcap.
      assert (Hinv1 : invariant (update_story ref (set_scheduled_time (isoformat t)) st))
        by by apply Hstep1.
      destruct Hinv1 as [Hids Hstore Hjobs]. split; [done | done |].
      by apply (jobs_ok_reschedule (update_story _ _ st)).
    + by apply Hstep1.
  - by apply Hsave, Hcap.
Qed.

Lemma invariant_init (token account : string) (f : option string)
    (st' : scheduler) :
  store_ok f → init token account f = (st', Return tt) → invariant st'.
Proof.
  intros Hstore. unfold init, load_scheduled_stories. simpl.
  destruct f as [text|].
  - destruct (Hstore text eq_refl) as (l & -> & Hids).
    rewrite loads_stories. intros [= <-]. split; simpl; [done | done |].
    intros k j Hk. simpl in Hk. by rewrite lookup_empty in Hk.
  - intros [= <-]. apply invariant_first.
Qed.

Lemma invariant_run (o : operation) (st : scheduler) :
  invariant st → invariant (run o st).
Proof.
  destruct o; simpl.
  - apply invariant_schedule.
  - apply invariant_fire.
  - apply invariant_cancel.
  - apply invariant_modify.
Qed.

Lemma reachable_invariant (st : scheduler) : reachable st → invariant st.
Proof.
  induction 1 as [token account | o st _ IH | k st _ IH
                 | token account st st' _ IH Hinit].
  - apply invariant_first.
  - by apply invariant_run.
  - destruct IH as [Hids Hstore Hjobs]. split; [done | done |].
    by apply jobs_ok_delete.
  - eapply invariant_init; [apply (inv_store _ IH) | done].
Qed.

(** *** Frames *)

Lemma agree_off_refl (ref : nat) (l : list story) : agree_off ref l l.
Proof. by split. Qed.

Lemma agree_off_trans (ref : nat) (l1 l2 l3 : list story) :
  agree_off ref l1 l2 → agree_off ref l2 l3 → agree_off ref l1 l3.
Proof.
  intros [Hlen1 H1] [Hlen2 H2]. split; [congruence|].
  intros i Hi. rewrite H2, H1; done.
Qed.

Lemma agree_off_update (st : scheduler) (ref : nat) (f : story → story) :
  agree_off ref (scheduled_stories st) (scheduled_stories (update_story ref f st)).
Proof.
  split; [apply length_update_story|].
  intros i Hi. rewrite lookup_update_story. by rewrite decide_False.
Qed.

Lemma agree_off_only_touches (story_id : Z) (ref : nat) (l l' : list story) :
  (∀ s, l !! ref = Some s → id s = story_id) →
  agree_off ref l l' → only_touches story_id l l'.
Proof.
  intros Href [Hlen Hoff]. split; [done|]. split.
  - intros i s Hs Hid. rewrite Hoff; [done|]. intros ->. by apply Hid, Href.
  - intros i j Hi Hj. destruct (decide (i = ref)) as [->|Hni].
    + destruct (decide (j = ref)) as [->|Hnj]; [done|]. by destruct Hj; apply Hoff.
    + by destruct Hi; apply Hoff.
Qed.

Lemma only_touches_refl (story_id : Z) (l : list story) :
  only_touches story_id l l.
Proof. by repeat split. Qed.

Lemma ids_ok_NoDup (l : list story) : ids_ok l → NoDup (id <$> l).
Proof.
  intros Hids. apply NoDup_alt. intros i j x Hi Hj.
  rewrite list_lookup_fmap in Hi, Hj.
  apply fmap_Some in Hi as (si & Hsi & ->).
  apply fmap_Some in Hj as (sj & Hsj & Heq).
  apply Hids in Hsi, Hsj. lia.
Qed.

(** *** Status transitions *)

Lemma stories_save (st : scheduler) :
  scheduled_stories (save_scheduled_stories st) = scheduled_stories st.
Proof. reflexivity. Qed.

Lemma stories_with_jobs (js : gmap string job) (st : scheduler) :
  scheduled_stories (with_jobs js st) = scheduled_stories st.
Proof. reflexivity. Qed.



(** A story after an assignment at [ref]. *)
Lemma lookup_update_story_Some (st : scheduler) (ref i : nat)
    (f : story → story) (s : story) :
  scheduled_stories st !! i = Some s →
  scheduled_stories (update_story ref f st) !! i =
  Some (if decide (i = ref) then f s else s).
Proof.
  intros Hs. rewrite lookup_update_story, Hs. by case_decide.
Qed.






(** *** Finding the story, and the handler of [post_story] *)

Lemma find_scheduled_elem (story_id : Z) (l : list story) (s : story) :
  s ∈ l → scheduled_with story_id s →
  ∃ ref s0, find_scheduled story_id l = Some ref ∧
            first_scheduled story_id l ref ∧
            l !! ref = Some s0 ∧ scheduled_with story_id s0.
Proof.
  intros Hin Hs.
  destruct (find_scheduled story_id l) as [ref|] eqn:Hfind.
  - pose proof Hfind as Hfirst. apply find_scheduled_Some in Hfirst.
    pose proof Hfirst as [(s0 & Hs0 & Hm) _].
    by exists ref, s0.
  - exfalso. by apply (proj1 (find_scheduled_None story_id l) Hfind s).
Qed.

(** What the handler leaves at position [ref]. *)
Lemma marked_failed_lookup (e : exception) (ref : nat) (st : scheduler)
    (s : story) :
  scheduled_stories st !! ref = Some s →
  scheduled_stories (marked_failed e ref st) !! ref
    = Some (set_error (exc_str e) (set_status "failed" s))
  ∧ persisted (marked_failed e ref st).
Proof.
  intros Hs. split; [|reflexivity].
  unfold marked_failed. rewrite stories_save.
  erewrite lookup_update_story_Some by by apply lookup_update_story_Some.
  by rewrite !decide_True.
Qed.

(** The part of the failure handling that holds: when the upload raises, or
    the upload gives an identifier and the publication raises, the story is
    marked "failed" with [str(e)] as its error, the list is written and the
    exception is raised again. *)
Lemma post_story_exception (w : world) (st : scheduler) (ref : nat) (s : story)
    (e : exception) :
  scheduled_stories st !! ref = Some s →
  upload_media w st (media_path s) = Raise e
  ∨ (∃ resp media_id params,
       upload_media w st (media_path s) = Return resp ∧
       dict_get resp "id" = Some media_id ∧ truthy media_id = true ∧
       http_create_story w
         (base_url +:+ "/" +:+ instagram_account_id st +:+ "/stories") params
         = Some e ∧
       params = (if truthy (PStr (caption s))
                 then dict_set [("access_token", PStr (access_token st));
                                ("media_type", PStr "STORY");
                                ("media_id", media_id)]
                               "caption" (PStr (caption s))
                 else [("access_token", PStr (access_token st));
                       ("media_type", PStr "STORY");
                       ("media_id", media_id)])) →
  post_story w st ref = (marked_failed e ref st, Raise e)
  ∧ scheduled_stories (marked_failed e ref st) !! ref
      = Some (mkStory (id s) (media_path s) (scheduled_time s) (caption s)
                      "failed" (Some (exc_str e)))
  ∧ persisted (marked_failed e ref st).
Proof.
  intros Hs Hfail. split; [|by apply marked_failed_lookup].
  unfold post_story. rewrite (list_lookup_total_correct _ _ _ Hs).
  destruct Hfail as [-> | (resp & media_id & params & -> & -> & -> & Hpost & ->)];
    [done|].
  by rewrite Hpost.
Qed.

(** *** The sample states, run *)

Example sample_posted :
  fire Examples.api_ok Examples.one_scheduled "1"
  = (marked_posted 0 (with_jobs ∅ Examples.one_scheduled), Return tt)
  ∧ scheduled_stories (fire Examples.api_ok Examples.one_scheduled "1").1
    = [mkStory 1 "a.jpg" "2026-11-05T12:00:00" "hi" "posted" None].
Proof. split; vm_compute; reflexivity. Qed.

Example sample_failed :
  (fire Examples.api_down Examples.one_scheduled "1").2
  = Raise (mkExc RequestException "503 Server Error: Service Unavailable")
  ∧ scheduled_stories (fire Examples.api_down Examples.one_scheduled "1").1
    = [mkStory 1 "a.jpg" "2026-11-05T12:00:00" "hi" "failed"
               (Some "503 Server Error: Service Unavailable")]
  ∧ persisted (fire Examples.api_down Examples.one_scheduled "1").1.
Proof. repeat split; vm_compute; reflexivity. Qed.

(** After an upload without identifier the story is still scheduled, and its
    timer job is gone. *)
Example sample_no_identifier :
  (fire Examples.api_no_id Examples.one_scheduled "1").2 = Return tt
  ∧ scheduled_stories (fire Examples.api_no_id Examples.one_scheduled "1").1
    = [mkStory 1 "a.jpg" "2026-11-05T12:00:00" "hi" "scheduled" None]
  ∧ jobs (fire Examples.api_no_id Examples.one_scheduled "1").1 = ∅.
Proof. repeat split; vm_compute; reflexivity. Qed.

(** A restart keeps the list and loses the timer jobs. *)
Example sample_restarted :
  scheduled_stories Examples.restarted
  = [mkStory 1 "a.jpg" "2026-11-05T12:00:00" "hi" "scheduled" None]
  ∧ jobs Examples.restarted = ∅
  ∧ store Examples.restarted = store Examples.one_scheduled.
Proof. repeat split; vm_compute; reflexivity. Qed.

Example sample_roundtrip :
  loads (dumps [[("id", PInt (-20)); ("caption", PStr "a\b/c")]; []])
  = Some [[("id", PInt (-20)); ("caption", PStr "a\b/c")]; []].
Proof. vm_compute. reflexivity. Qed.

End InstaFacts.

(** ** Strings beyond Latin-1 *)

Module WideFacts.
Import Py Json JsonFacts Wide.

(** *** Hexadecimal digits *)

Lemma hex_value_digit (a : N) :
  (a < 16)%N → hex_value (hex_digit a) = Some a.
Proof.
  intros Ha.
  assert (Hn : a = N.of_nat (N.to_nat a)) by lia.
  assert (Hlt : N.to_nat a < 16) by lia.
  rewrite Hn. generalize (N.to_nat a) Hlt. clear.
  intros n Hn. do 16 (destruct n as [|n]; [reflexivity|]). lia.
Qed.

Lemma hex4_spec (n : N) :
  (n < 65536)%N →
  ∃ h3 h2 h1 h0,
    hex4 n = String h3 (String h2 (String h1 (String h0 "")))
    ∧ hex4_value h3 h2 h1 h0 = Some n.
Proof.
  intros Hn. do 4 eexists. split; [reflexivity|].
  unfold hex4_value.
  assert (H3 : (n / 4096 < 16)%N) by (apply N.Div0.div_lt_upper_bound; lia).
  assert (H2 : (n / 256 mod 16 < 16)%N) by (apply N.mod_lt; lia).
  assert (H1 : (n / 16 mod 16 < 16)%N) by (apply N.mod_lt; lia).
  assert (H0 : (n mod 16 < 16)%N) by (apply N.mod_lt; lia).
  rewrite !hex_value_digit by done. f_equal.
  replace (n / 4096)%N with (n / 16 / 16 / 16)%N in *
    by (rewrite !N.Div0.div_div; reflexivity).
  replace (n / 256)%N with (n / 16 / 16)%N in *
    by (rewrite !N.Div0.div_div; reflexivity).
  pose proof (N.div_mod n 16). pose proof (N.div_mod (n / 16) 16).
  pose proof (N.div_mod (n / 16 / 16) 16). lia.
Qed.

(** *** String literals *)

(** The decoder at a [\u] escape. *)
Lemma parse_chars_u (h3 h2 h1 h0 : ascii) (rest2 : string) :
  parse_chars
    (String backslash (String "u"
       (String h3 (String h2 (String h1 (String h0 rest2))))))
  = match hex4_value h3 h2 h1 h0 with
    | Some uni =>
        if high_surrogate uni then
          match rest2 with
          | String b (String u rest3) =>
              if Ascii.eqb b backslash && Ascii.eqb u "u" then
                match rest3 with
                | String g3 (String g2 (String g1 (String g0 rest4))) =>
                    match hex4_value g3 g2 g1 g0 with
                    | Some uni2 =>
                        if low_surrogate uni2
                        then prepend (join_surrogates uni uni2) (parse_chars rest4)
                        else prepend uni (parse_chars rest2)
                    | None => None
                    end
                | _ => None
                end
              else prepend uni (parse_chars rest2)
          | _ => prepend uni (parse_chars rest2)
          end
        else prepend uni (parse_chars rest2)
    | None => None
    end.
Proof. reflexivity. Qed.

(** One [\u] escape on its own gives back its code point. *)
Lemma parse_u_alone (c : N) (text : string) :
  (c < 65536)%N →
  (high_surrogate c = true → unpaired text) →
  parse_chars (u_escape c +:+ text) = prepend c (parse_chars text).
Proof.
  intros Hc Hnext. unfold u_escape.
  destruct (hex4_spec c Hc) as (h3 & h2 & h1 & h0 & -> & Hval).
  rewrite !append_cons, append_nil, parse_chars_u, Hval.
  destruct (high_surrogate c); [|reflexivity].
  specialize (Hnext eq_refl).
  destruct text as [|b [|u rest3]]; [reflexivity..|].
  unfold unpaired in Hnext.
  destruct (Ascii.eqb b backslash); [|reflexivity].
  destruct (Ascii.eqb u "u"); [|reflexivity]. cbn [andb].
  destruct rest3 as [|g3 [|g2 [|g1 [|g0 rest4]]]]; try done.
  destruct Hnext as (x & -> & ->). reflexivity.
Qed.

(** The two escapes of a code point above 0xFFFF give it back. *)
Lemma parse_u_pair (c : N) (text : string) :
  (65536 ≤ c)%N → is_char c →
  parse_chars
    (u_escape (55296 + (c - 65536) / 1024)
     +:+ u_escape (56320 + (c - 65536) mod 1024) +:+ text)
  = prepend c (parse_chars text).
Proof.
  intros Hc Hmax. unfold is_char in Hmax.
  assert (Hq : ((c - 65536) / 1024 < 1024)%N)
    by (apply N.Div0.div_lt_upper_bound; lia).
  assert (Hr : ((c - 65536) mod 1024 < 1024)%N) by (apply N.mod_lt; lia).
  pose proof (N.div_mod (c - 65536) 1024) as Hv.
  revert Hq Hr Hv.
  generalize ((c - 65536) / 1024)%N ((c - 65536) mod 1024)%N.
  intros q r Hq Hr Hv.
  unfold u_escape.
  destruct (hex4_spec (55296 + q)) as (h3 & h2 & h1 & h0 & -> & Hhi); [lia|].
  destruct (hex4_spec (56320 + r)) as (g3 & g2 & g1 & g0 & -> & Hlo); [lia|].
  rewrite !append_cons, !append_nil, parse_chars_u, Hhi.
  assert (high_surrogate (55296 + q) = true) as ->.
  { unfold high_surrogate. apply andb_true_iff. split; apply N.leb_le; lia. }
  change (Ascii.eqb backslash backslash && Ascii.eqb "u" "u") with true.
  cbv iota. rewrite Hlo.
  assert (low_surrogate (56320 + r) = true) as ->.
  { unfold low_surrogate. apply andb_true_iff. split; apply N.leb_le; lia. }
  f_equal. unfold join_surrogates. lia.
Qed.

(** The escapes of the code points from 0x100 on. *)
Lemma escape_char_above (c : N) :
  (256 ≤ c)%N →
  escape_char c =
  if (c <? 65536)%N then u_escape c
  else u_escape (55296 + (c - 65536) / 1024)
       +:+ u_escape (56320 + (c - 65536) mod 1024).
Proof.
  intros Hc. unfold escape_char.
  repeat match goal with
         | |- context [(c =? ?k)%N] =>
             replace (c =? k)%N with false by (symmetry; apply N.eqb_neq; lia)
         end.
  replace (c <=? 126)%N with false by (symmetry; apply N.leb_gt; lia).
  by rewrite andb_false_r.
Qed.

(** A code point below 0x100, whatever follows. *)
Lemma parse_chars_escape_latin (a : ascii) (text : string) :
  parse_chars (escape_char (N_of_ascii a) +:+ text)
  = prepend (N_of_ascii a) (parse_chars text).
Proof.
  destruct a as [[] [] [] [] [] [] [] []]; reflexivity.
Qed.

Lemma unpaired_latin (a : ascii) (text : string) :
  unpaired (escape_char (N_of_ascii a) +:+ text).
Proof.
  destruct a as [[] [] [] [] [] [] [] []];
    first [ exact I | eexists; split; reflexivity ].
Qed.

Lemma latin_char (c : N) : (c < 256)%N → c = N_of_ascii (ascii_of_N c).
Proof. intros Hc. symmetry. by apply N_ascii_embedding. Qed.

(** One character, whatever follows, unless it is a high surrogate and the
    escape of a low one follows. *)
Lemma wide_parse_chars_escape_char (c : N) (text : string) :
  is_char c →
  (high_surrogate c = true → unpaired text) →
  parse_chars (escape_char c +:+ text) = prepend c (parse_chars text).
Proof.
  intros Hmax Hnext.
  destruct (N.lt_ge_cases c 256) as [Hlatin | Hc].
  - rewrite (latin_char c Hlatin). apply parse_chars_escape_latin.
  - rewrite escape_char_above by done.
    destruct (N.ltb_spec c 65536) as [Hbmp | Hastral].
    + by apply parse_u_alone.
    + rewrite append_assoc. by apply parse_u_pair.
Qed.

(** The escape of a character that is not a low surrogate never pairs with
    a high surrogate before it. *)
Lemma unpaired_escape_char (c : N) (text : string) :
  is_char c → low_surrogate c = false →
  unpaired (escape_char c +:+ text).
Proof.
  intros Hmax Hlow. unfold is_char in Hmax.
  destruct (N.lt_ge_cases c 256) as [Hlatin | Hc].
  - rewrite (latin_char c Hlatin). apply unpaired_latin.
  - rewrite escape_char_above by done.
    destruct (N.ltb_spec c 65536) as [Hbmp | Hastral].
    + unfold u_escape.
      destruct (hex4_spec c Hbmp) as (h3 & h2 & h1 & h0 & -> & Hval).
      rewrite !append_cons. exists c. by split.
    + assert (Hq : ((c - 65536) / 1024 < 1024)%N)
        by (apply N.Div0.div_lt_upper_bound; lia).
      unfold u_escape at 1.
      destruct (hex4_spec (55296 + (c - 65536) / 1024))
        as (h3 & h2 & h1 & h0 & -> & Hval); [lia|].
      rewrite !append_cons. eexists. split; [exact Hval|].
      unfold low_surrogate. apply andb_false_iff. left. apply N.leb_gt. lia.
Qed.

Lemma plain_cons (c : N) (s : str) :
  plain (c :: s) →
  is_char c ∧ plain s
  ∧ (high_surrogate c = true →
     match s with c' :: _ => low_surrogate c' = false | [] => True end).
Proof.
  intros [Hstr Hpair]. apply Forall_cons in Hstr as [Hc Hs].
  destruct s as [|c' s].
  - by repeat split.
  - change (has_surrogate_pair (c :: c' :: s))
      with (high_surrogate c && low_surrogate c'
            || has_surrogate_pair (c' :: s)) in Hpair.
    apply orb_false_iff in Hpair as [Hhere Hrest].
    split; [done|]. split; [by split|].
    intros Hhigh. by rewrite Hhigh in Hhere.
Qed.

(** [json.loads(json.dumps(s)) == s] for a string without a surrogate
    pair. *)
Lemma wide_parse_chars_escape (s : str) (rest : string) :
  plain s →
  parse_chars (escape s +:+ String dquote rest) = Some (s, rest).
Proof.
  induction s as [|c s IH]; intros Hplain; [reflexivity|].
  apply plain_cons in Hplain as (Hc & Hs & Hnext).
  change (escape (c :: s)) with (escape_char c +:+ escape s).
  rewrite append_assoc, wide_parse_chars_escape_char; [by rewrite IH | done |].
  intros Hhigh. specialize (Hnext Hhigh).
  destruct s as [|c' s]; [exact I|].
  change (escape (c' :: s)) with (escape_char c' +:+ escape s).
  rewrite append_assoc. apply unpaired_escape_char; [|done].
  destruct Hs as [Hs _]. by apply Forall_cons in Hs as [? _].
Qed.

(** A high surrogate directly followed by a low one is read back as the one
    character the pair stands for. *)
Lemma parse_chars_joins (high low : N) (rest : string) :
  high_surrogate high = true → low_surrogate low = true →
  parse_chars (escape [high; low] +:+ String dquote rest)
  = Some ([join_surrogates high low], rest).
Proof.
  intros Hhigh Hlow.
  assert (Hh : (55296 ≤ high ≤ 56319)%N).
  { unfold high_surrogate in Hhigh. apply andb_true_iff in Hhigh as [H1 H2].
    apply N.leb_le in H1, H2. lia. }
  assert (Hl : (56320 ≤ low ≤ 57343)%N).
  { unfold low_surrogate in Hlow. apply andb_true_iff in Hlow as [H1 H2].
    apply N.leb_le in H1, H2. lia. }
  change (escape [high; low])
    with (escape_char high +:+ escape_char low +:+ "").
  rewrite !escape_char_above by lia.
  replace (high <? 65536)%N with true by (symmetry; apply N.ltb_lt; lia).
  replace (low <? 65536)%N with true by (symmetry; apply N.ltb_lt; lia).
  unfold u_escape.
  destruct (hex4_spec high) as (h3 & h2 & h1 & h0 & -> & Hhi); [lia|].
  destruct (hex4_spec low) as (g3 & g2 & g1 & g0 & -> & Hlo); [lia|].
  repeat first [rewrite append_cons | rewrite append_nil].
  rewrite parse_chars_u, Hhi, Hhigh.
  change (Ascii.eqb backslash backslash && Ascii.eqb "u" "u") with true.
  cbv iota. by rewrite Hlo, Hlow.
Qed.


Lemma wide_dump_str_append (s : str) (rest : string) :
  dump_str s +:+ rest = String dquote (escape s +:+ String dquote rest).
Proof. unfold dump_str. by rewrite append_cons, append_assoc. Qed.

(** *** Values and members *)

Lemma wide_parse_value_dump_val (v : value) (c : ascii) (r : string) :
  value_plain v → closes_value c →
  parse_value (dump_val v +:+ String c r) = Some (v, String c r).
Proof.
  intros Hv Hc. destruct v as [z|s]; unfold dump_val.
  - pose proof (parse_int_str_int z _ (closes_value_ends_number c r Hc)) as Hp.
    destruct (str_int_head z) as (x & s & Hz & Hx). rewrite Hz in *.
    rewrite append_cons in *. unfold parse_value.
    destruct (Ascii.eqb_spec x dquote) as [->|_].
    + by destruct Hx.
    + by rewrite Hp.
  - rewrite wide_dump_str_append. unfold parse_value.
    change (Ascii.eqb dquote dquote) with true. cbv iota.
    by rewrite wide_parse_chars_escape.
Qed.

Lemma wide_skip_ws_dump_val (v : value) (rest : string) :
  skip_ws (dump_val v +:+ rest) = dump_val v +:+ rest.
Proof.
  destruct v as [z|s]; unfold dump_val.
  - destruct (str_int_head z) as (x & s & -> & Hx). rewrite append_cons.
    destruct Hx as [Hx | ->]; [|reflexivity].
    destruct x as [[] [] [] [] [] [] [] []]; done.
  - by rewrite wide_dump_str_append.
Qed.

Lemma wide_parse_member (k : str) (v : value) (c : ascii) (r : string) :
  plain k → closes_value c →
  ∃ r0, dump_member (k, v) +:+ String c r = String dquote r0 ∧
        parse_chars r0 = Some (k, ": " +:+ dump_val v +:+ String c r) ∧
        skip_ws (": " +:+ dump_val v +:+ String c r) =
          String ":" (" " +:+ dump_val v +:+ String c r) ∧
        skip_ws (" " +:+ dump_val v +:+ String c r) = dump_val v +:+ String c r.
Proof.
  intros Hk Hc. unfold dump_member. simpl fst. simpl snd.
  rewrite !append_assoc, wide_dump_str_append.
  eexists. split; [reflexivity|]. split; [by apply wide_parse_chars_escape|].
  split; [reflexivity|].
  rewrite append_cons, append_nil.
  change (skip_ws (String " " ?x)) with (skip_ws x).
  apply wide_skip_ws_dump_val.
Qed.

Lemma wide_dump_members_head (d : dict) (rest : string) :
  d ≠ [] → ∃ x, dump_members d +:+ rest = String dquote x.
Proof.
  destruct d as [|[k v] d]; [done|]. intros _.
  destruct d; simpl dump_members; unfold dump_member;
    rewrite !append_assoc, wide_dump_str_append; eauto.
Qed.

Lemma wide_parse_members_dump (d : dict) :
  ∀ (fuel : nat) (acc : dict) (rest : string),
    d ≠ [] → dict_plain d → length d ≤ fuel →
    parse_members fuel (dump_members d +:+ rest) acc =
    Some (foldl set_member acc d, rest).
Proof.
  induction d as [|[k v] d IH]; intros fuel acc rest Hne Hplain Hfuel; [done|].
  destruct fuel as [|fuel]; [simpl in Hfuel; lia|].
  apply Forall_cons in Hplain as [[Hk Hv] Hplain]. cbn [fst snd] in Hk, Hv.
  destruct d as [|m d].
  - change (dump_members [(k, v)]) with (dump_member (k, v) +:+ "}").
    rewrite append_assoc, append_cons, append_nil.
    destruct (wide_parse_member k v "}" rest Hk) as (r0 & -> & Hk' & Hws1 & Hws2);
      [by right|].
    cbn [parse_members]. change (Ascii.eqb dquote dquote) with true. cbv iota.
    rewrite Hk'. cbv iota beta. rewrite Hws1.
    change (Ascii.eqb ":" ":") with true. cbv iota.
    rewrite Hws2, wide_parse_value_dump_val by (done || by right).
    reflexivity.
  - change (dump_members ((k, v) :: m :: d))
      with (dump_member (k, v) +:+ ", " +:+ dump_members (m :: d)).
    rewrite !append_assoc, append_cons.
    destruct (wide_parse_member k v ","
                (" " +:+ dump_members (m :: d) +:+ rest) Hk)
      as (r0 & -> & Hk' & Hws1 & Hws2); [by left|].
    cbn [parse_members]. change (Ascii.eqb dquote dquote) with true. cbv iota.
    rewrite Hk'. cbv iota beta. rewrite Hws1.
    change (Ascii.eqb ":" ":") with true. cbv iota.
    rewrite Hws2, wide_parse_value_dump_val by (done || by left).
    cbv iota beta. change (skip_ws (String "," ?x)) with (String "," x).
    cbv iota. change (Ascii.eqb "," ",") with true. cbv iota.
    rewrite append_cons, append_nil.
    change (skip_ws (String " " ?x)) with (skip_ws x).
    destruct (wide_dump_members_head (m :: d) rest) as [x Hx]; [done|].
    rewrite Hx. change (skip_ws (String dquote x)) with (String dquote x).
    rewrite <- Hx. apply IH; [done | done | simpl in *; lia].
Qed.

Lemma wide_dict_set_fresh (acc : dict) (k : str) (v : value) :
  k ∉ acc.*1 → dict_set acc k v = acc ++ [(k, v)].
Proof.
  induction acc as [|[k' v'] acc IH]; intros Hk; [reflexivity|].
  simpl in *. apply not_elem_of_cons in Hk as [Hne Hk].
  rewrite bool_decide_false by done.
  by rewrite IH.
Qed.

Lemma wide_foldl_set_member (d acc : dict) :
  dict_wf (acc ++ d) → foldl set_member acc d = acc ++ d.
Proof.
  revert acc. induction d as [|[k v] d IH]; intros acc Hwf; simpl.
  - by rewrite app_nil_r.
  - unfold set_member at 2. simpl.
    assert (Hwf' : dict_wf ((acc ++ [(k, v)]) ++ d)) by (by rewrite <- app_assoc).
    unfold dict_wf in Hwf. rewrite fmap_app in Hwf.
    apply NoDup_app in Hwf as (_ & Hdisj & _).
    rewrite wide_dict_set_fresh.
    + rewrite IH by done. by rewrite <- app_assoc.
    + intros Hin. apply (Hdisj _ Hin). csimpl. left.
Qed.

Lemma wide_dump_members_length (d : dict) (rest : string) :
  length d ≤ String.length (dump_members d +:+ rest).
Proof.
  induction d as [|[k v] d IH]; [simpl; lia|].
  destruct d as [|m d].
  - change (dump_members [(k, v)]) with (dump_member (k, v) +:+ "}").
    rewrite !length_append. simpl. lia.
  - change (dump_members ((k, v) :: m :: d))
      with (dump_member (k, v) +:+ ", " +:+ dump_members (m :: d)).
    rewrite !length_append in *. change (String.length ", ") with 2.
    change (length ((k, v) :: m :: d)) with (S (length (m :: d))). lia.
Qed.

(** *** Objects and the array *)

Lemma wide_parse_dict_dump (d : dict) (rest : string) :
  dict_wf d → dict_plain d →
  parse_dict (dump_members d +:+ rest) = Some (d, rest).
Proof.
  intros Hwf Hplain. destruct d as [|m d]; [reflexivity|].
  destruct (wide_dump_members_head (m :: d) rest) as [x Hx]; [done|].
  unfold parse_dict. rewrite Hx.
  change (skip_ws (String dquote x)) with (String dquote x). cbv iota.
  change (Ascii.eqb dquote "}") with false. cbv iota.
  rewrite <- Hx, wide_parse_members_dump;
    [| done | done | apply wide_dump_members_length].
  by rewrite wide_foldl_set_member.
Qed.

Lemma wide_dump_elements_length (l : list dict) (rest : string) :
  length l ≤ String.length (dump_elements l +:+ rest).
Proof.
  induction l as [|d l IH]; [simpl; lia|].
  destruct l as [|d' l].
  - change (dump_elements [d]) with (dump_dict d +:+ "]").
    rewrite !length_append. simpl. lia.
  - change (dump_elements (d :: d' :: l))
      with (dump_dict d +:+ ", " +:+ dump_elements (d' :: l)).
    rewrite !length_append in *. change (String.length ", ") with 2.
    change (length (d :: d' :: l)) with (S (length (d' :: l))). lia.
Qed.

Lemma wide_parse_elements_dump (l : list dict) :
  ∀ (fuel : nat) (acc : list dict) (rest : string),
    l ≠ [] → Forall dict_wf l → Forall dict_plain l → length l ≤ fuel →
    parse_elements fuel (dump_elements l +:+ rest) acc = Some (acc ++ l, rest).
Proof.
  induction l as [|d l IH]; intros fuel acc rest Hne Hwf Hplain Hfuel; [done|].
  destruct fuel as [|fuel]; [simpl in Hfuel; lia|].
  apply Forall_cons in Hwf as [Hd Hl].
  apply Forall_cons in Hplain as [Hpd Hpl].
  destruct l as [|d' l].
  - change (dump_elements [d]) with (String "{" (dump_members d) +:+ "]").
    rewrite append_assoc, !append_cons, append_nil.
    cbn [parse_elements]. change (Ascii.eqb "{" "{") with true. cbv iota.
    rewrite wide_parse_dict_dump by done. reflexivity.
  - change (dump_elements (d :: d' :: l))
      with (String "{" (dump_members d) +:+ ", " +:+ dump_elements (d' :: l)).
    rewrite !append_assoc, !append_cons, append_nil.
    cbn [parse_elements]. change (Ascii.eqb "{" "{") with true. cbv iota.
    rewrite wide_parse_dict_dump by done. cbv iota beta.
    change (skip_ws (String "," ?x)) with (String "," x). cbv iota.
    change (Ascii.eqb "," ",") with true. cbv iota.
    change (skip_ws (String " " ?x)) with (skip_ws x).
    assert (∃ x, dump_elements (d' :: l) +:+ rest = String "{" x) as [x Hx].
    { destruct l; simpl dump_elements; unfold dump_dict;
        rewrite ?append_assoc, append_cons; eauto. }
    rewrite Hx. change (skip_ws (String "{" x)) with (String "{" x).
    rewrite <- Hx, IH; [| done | done | done | simpl in *; lia].
    by rewrite <- app_assoc.
Qed.

(** [json.loads(json.dumps(l)) == l] when no string of [l] has a surrogate
    pair. *)
Lemma wide_loads_dumps (l : list dict) :
  Forall dict_wf l → Forall dict_plain l → loads (dumps l) = Some l.
Proof.
  intros Hwf Hplain. destruct l as [|d l]; [reflexivity|].
  unfold loads, dumps.
  change (skip_ws (String "[" ?x)) with (String "[" x). cbv iota.
  change (Ascii.eqb "[" "[") with true. cbv iota.
  assert (∃ x, dump_elements (d :: l) = String "{" x) as [x Hx].
  { destruct l; simpl dump_elements; unfold dump_dict;
      rewrite ?append_cons; eauto. }
  rewrite Hx. change (skip_ws (String "{" x)) with (String "{" x). cbv iota.
  change (Ascii.eqb "{" "]") with false. cbv iota.
  rewrite <- Hx, <- (append_nil_r (dump_elements (d :: l))).
  rewrite wide_parse_elements_dump; [reflexivity | done | done | done |].
  apply wide_dump_elements_length.
Qed.

(** *** Stories *)

Lemma plain_of_string (s : string) : plain (of_string s).
Proof.
  assert (Hsmall : Forall (λ c, (c < 256)%N) (of_string s)).
  { unfold of_string. induction s as [|a s IH]; [constructor|].
    csimpl. constructor; [apply N_ascii_bounded | done]. }
  split.
  - eapply Forall_impl; [exact Hsmall|]. unfold is_char. intros c Hc. lia.
  - induction Hsmall as [|c l Hc Hl IH]; [reflexivity|].
    destruct l as [|c' l]; [reflexivity|].
    change (has_surrogate_pair (c :: c' :: l))
      with (high_surrogate c && low_surrogate c'
            || has_surrogate_pair (c' :: l)).
    rewrite IH, orb_false_r. apply andb_false_iff. left.
    unfold high_surrogate. apply andb_false_iff. left. apply N.leb_gt. lia.
Qed.

Lemma wide_dict_of_story_wf (s : story) : dict_wf (dict_of_story s).
Proof.
  destruct s as [i p t c st [e|]]; unfold dict_wf, dict_of_story; simpl;
    apply (bool_decide_unpack _); vm_compute; exact I.
Qed.

Lemma dict_of_story_plain (s : story) :
  story_plain s → dict_plain (dict_of_story s).
Proof.
  intros (Hp & Ht & Hc & Hst & He).
  unfold dict_plain, dict_of_story. apply Forall_app. split.
  - repeat (apply Forall_cons; split;
            [split; [apply plain_of_string | done]|]).
    constructor.
  - destruct (error s) as [e|]; [|constructor].
    apply Forall_cons. split; [|constructor].
    split; [apply plain_of_string | by apply He].
Qed.

Lemma wide_story_of_dict_of_story (s : story) :
  story_of_dict (dict_of_story s) = Some s.
Proof.
  destruct s as [i p t c st [e|]]; unfold story_of_dict; simpl;
    by rewrite decide_True.
Qed.

Lemma wide_mapM_story_of_dict (l : list story) :
  mapM story_of_dict (map dict_of_story l) = Some l.
Proof.
  induction l as [|s l IH]; [reflexivity|].
  simpl. by rewrite wide_story_of_dict_of_story, IH.
Qed.

Lemma wide_loads_stories (l : list story) :
  Forall story_plain l →
  loads (dumps (map dict_of_story l)) ≫= mapM story_of_dict = Some l.
Proof.
  intros Hplain. rewrite wide_loads_dumps.
  - simpl. apply wide_mapM_story_of_dict.
  - apply Forall_forall. intros d Hd.
    apply list_elem_of_In, in_map_iff in Hd as (s & <- & _).
    apply wide_dict_of_story_wf.
  - apply Forall_forall. intros d Hd.
    apply list_elem_of_In, in_map_iff in Hd as (s & <- & Hs).
    apply dict_of_story_plain.
    rewrite Forall_forall in Hplain. apply Hplain. by apply list_elem_of_In.
Qed.


(** *** The records of [Insta] *)

Lemma escape_char_agrees (a : ascii) :
  Json.escape_char a = escape_char (N_of_ascii a).
Proof. destruct a as [[] [] [] [] [] [] [] []]; reflexivity. Qed.

Lemma escape_agrees (s : string) : Json.escape s = escape (of_string s).
Proof.
  induction s as [|a s IH]; [reflexivity|].
  change (Json.escape (String a s)) with (Json.escape_char a +:+ Json.escape s).
  change (escape (of_string (String a s)))
    with (escape_char (N_of_ascii a) +:+ escape (of_string s)).
  by rewrite escape_char_agrees, IH.
Qed.

Lemma dump_val_agrees (v : pyval) : Json.dump_val v = dump_val (widen_value v).
Proof.
  destruct v as [z|s]; [reflexivity|].
  unfold Json.dump_val, dump_val, widen_value, Json.dump_str, dump_str.
  by rewrite escape_agrees.
Qed.

Lemma dump_members_agrees (d : Py.dict) :
  Json.dump_members d = dump_members (widen_dict d).
Proof.
  assert (Hmember : ∀ m, Json.dump_member m
                         = dump_member (of_string m.1, widen_value m.2)).
  { intros [k v]. unfold Json.dump_member, dump_member, Json.dump_str, dump_str.
    cbn [fst snd]. by rewrite escape_agrees, dump_val_agrees. }
  induction d as [|m d IH]; [reflexivity|].
  destruct d as [|m' d].
  - change (Json.dump_members [m]) with (Json.dump_member m +:+ "}").
    by rewrite Hmember.
  - change (Json.dump_members (m :: m' :: d))
      with (Json.dump_member m +:+ ", " +:+ Json.dump_members (m' :: d)).
    rewrite Hmember, IH. reflexivity.
Qed.

Lemma dict_of_story_widen (s : Insta.story) :
  dict_of_story (widen s) = widen_dict (Insta.dict_of_story s).
Proof. by destruct s as [i p t c st [e|]]. Qed.

(** The text [Insta.save_scheduled_stories] writes is the text this module
    writes for the same records. *)
Lemma dumps_agrees (l : list Insta.story) :
  Json.dumps (map Insta.dict_of_story l)
  = dumps (map dict_of_story (map widen l)).
Proof.
  unfold Json.dumps, dumps. f_equal.
  induction l as [|s l IH]; [reflexivity|].
  destruct l as [|s' l].
  - cbn [map Json.dump_elements dump_elements].
    unfold Json.dump_dict, dump_dict.
    by rewrite dict_of_story_widen, dump_members_agrees.
  - change (Json.dump_elements (map Insta.dict_of_story (s :: s' :: l)))
      with (Json.dump_dict (Insta.dict_of_story s) +:+ ", "
            +:+ Json.dump_elements (map Insta.dict_of_story (s' :: l))).
    change (dump_elements (map dict_of_story (map widen (s :: s' :: l))))
      with (dump_dict (dict_of_story (widen s)) +:+ ", "
            +:+ dump_elements (map dict_of_story (map widen (s' :: l)))).
    rewrite IH. unfold Json.dump_dict, dump_dict.
    by rewrite dict_of_story_widen, dump_members_agrees.
Qed.

Lemma widen_plain (s : Insta.story) : story_plain (widen s).
Proof.
  unfold story_plain, widen. cbn [media_path scheduled_time caption status error].
  do 4 (split; [apply plain_of_string|]).
  intros e He. destruct (Insta.error s) as [e0|]; [|done].
  injection He as <-. apply plain_of_string.
Qed.

(** The file [Insta] leaves is read here as the records that wrote it. *)
Lemma load_of_insta_save (st : Insta.scheduler) :
  load_scheduled_stories
    (mkScheduler [] (Insta.store (Insta.save_scheduled_stories st)))
  = (mkScheduler (map widen (Insta.scheduled_stories st))
                 (Insta.store (Insta.save_scheduled_stories st)),
     Return tt).
Proof.
  unfold load_scheduled_stories. cbn [store Insta.store Insta.save_scheduled_stories
    Insta.with_store].
  rewrite dumps_agrees, wide_loads_stories; [reflexivity|].
  apply Forall_forall. intros s Hs.
  apply list_elem_of_In, in_map_iff in Hs as (s0 & <- & _). apply widen_plain.
Qed.

(** *** The decoder of [Json] inside this one *)

Lemma of_string_cons (a : ascii) (s : string) :
  of_string (String a s) = N_of_ascii a :: of_string s.
Proof. reflexivity. Qed.

Lemma of_string_inj (a b : string) : of_string a = of_string b → a = b.
Proof.
  revert b. induction a as [|x a IH]; intros [|y b]; try done.
  rewrite !of_string_cons. intros [= Hxy Hab].
  f_equal; [|by apply IH].
  by rewrite <- (ascii_N_embedding x), <- (ascii_N_embedding y), Hxy.
Qed.

(** Every literal the decoder of [Json] reads, this one reads as the same
    characters. *)
Lemma parse_chars_widen_aux (n : nat) :
  ∀ t s r, String.length t ≤ n →
    Json.parse_chars t = Some (s, r) → parse_chars t = Some (of_string s, r).
Proof.
  induction n as [|n IH]; intros t s r Hlen H.
  { destruct t; [done | simpl in Hlen; lia]. }
  destruct t as [|c rest]; [done|]. simpl in Hlen.
  cbn [Json.parse_chars parse_chars] in H |- *.
  destruct (Ascii.eqb c dquote); [by injection H as <- <-|].
  destruct (Ascii.eqb c backslash).
  - destruct rest as [|e rest1]; [done|].
    simpl in Hlen. cbv iota beta in H |- *.
    destruct (Ascii.eqb e "u").
    + destruct rest1 as [|h3 [|h2 [|h1 [|h0 rest2]]]]; try done.
      simpl in Hlen. cbv iota beta in H |- *. unfold hex4_value.
      destruct (hex_value h3) as [a|], (hex_value h2) as [b|],
        (hex_value h1) as [c1|], (hex_value h0) as [d|]; try done.
      cbv zeta in H |- *.
      destruct (N.ltb_spec (((a * 16 + b) * 16 + c1) * 16 + d) 256)
        as [Hcode|]; [|done].
      destruct (Json.parse_chars rest2) as [[str r']|] eqn:Hrest; [|done].
      injection H as <- <-.
      replace (high_surrogate (((a * 16 + b) * 16 + c1) * 16 + d)) with false.
      * rewrite (IH rest2 str r') by (done || lia).
        cbn [prepend]. by rewrite of_string_cons, N_ascii_embedding.
      * symmetry. unfold high_surrogate. apply andb_false_iff. left.
        apply N.leb_gt. lia.
    + cbv zeta in H |- *.
      destruct (Json.parse_chars rest1) as [[str r']|] eqn:Hrest.
      * rewrite (IH rest1 str r') by (done || lia).
        repeat (destruct (Ascii.eqb e _); [by injection H as <- <-|]). done.
      * repeat (destruct (Ascii.eqb e _); [done|]). done.
  - destruct (_ <? 32)%N; [done|].
    destruct (Json.parse_chars rest) as [[str r']|] eqn:Hrest; [|done].
    injection H as <- <-. by rewrite (IH rest str r') by (done || lia).
Qed.

Lemma parse_chars_widen (t s r : string) :
  Json.parse_chars t = Some (s, r) → parse_chars t = Some (of_string s, r).
Proof. by apply (parse_chars_widen_aux (String.length t)). Qed.

Lemma parse_value_widen (t : string) (v : pyval) (r : string) :
  Json.parse_value t = Some (v, r) → parse_value t = Some (widen_value v, r).
Proof.
  unfold Json.parse_value, parse_value. destruct t as [|x t]; [done|].
  destruct (Ascii.eqb x dquote).
  - destruct (Json.parse_chars t) as [[str r']|] eqn:Ht; [|done].
    intros [= <- <-]. by rewrite (parse_chars_widen _ _ _ Ht).
  - destruct (parse_int (String x t)) as [[z r']|]; [|done].
    by intros [= <- <-].
Qed.

Lemma dict_set_widen (acc : Py.dict) (k : string) (v : pyval) :
  widen_dict (Py.dict_set acc k v)
  = dict_set (widen_dict acc) (of_string k) (widen_value v).
Proof.
  induction acc as [|[k' v'] acc IH]; [reflexivity|].
  cbn [Py.dict_set]. destruct (String.eqb_spec k' k) as [->|Hne].
  - cbn [widen_dict fmap list_fmap dict_set fst snd].
    by rewrite bool_decide_true.
  - cbn [widen_dict fmap list_fmap dict_set fst snd].
    rewrite bool_decide_false by (intros Heq; by apply of_string_inj in Heq).
    f_equal. apply IH.
Qed.

Lemma parse_members_widen (fuel : nat) :
  ∀ t acc d r,
    Json.parse_members fuel t acc = Some (d, r) →
    parse_members fuel t (widen_dict acc) = Some (widen_dict d, r).
Proof.
  induction fuel as [|fuel IH]; intros t acc d r H; [done|].
  cbn [Json.parse_members parse_members] in H |- *.
  destruct t as [|c r0]; [done|].
  destruct (Ascii.eqb c dquote); [|done].
  destruct (Json.parse_chars r0) as [[k r1]|] eqn:Hk; [|done].
  rewrite (parse_chars_widen _ _ _ Hk).
  destruct (skip_ws r1) as [|c2 r2]; [done|].
  destruct (Ascii.eqb c2 ":"); [|done].
  destruct (Json.parse_value (skip_ws r2)) as [[v r3]|] eqn:Hv; [|done].
  rewrite (parse_value_widen _ _ _ Hv). cbv zeta in H |- *.
  destruct (skip_ws r3) as [|c4 r4]; [done|].
  rewrite <- dict_set_widen.
  destruct (Ascii.eqb c4 ","); [by apply IH|].
  destruct (Ascii.eqb c4 "}"); [|done].
  by injection H as <- <-.
Qed.

Lemma parse_dict_widen (t : string) (d : Py.dict) (r : string) :
  Json.parse_dict t = Some (d, r) → parse_dict t = Some (widen_dict d, r).
Proof.
  unfold Json.parse_dict, parse_dict.
  destruct (skip_ws t) as [|c r0]; [done|].
  destruct (Ascii.eqb c "}"); [by intros [= <- <-]|].
  apply (parse_members_widen _ _ []).
Qed.

Lemma parse_elements_widen (fuel : nat) :
  ∀ t acc l r,
    Json.parse_elements fuel t acc = Some (l, r) →
    parse_elements fuel t (widen_dict <$> acc) = Some (widen_dict <$> l, r).
Proof.
  induction fuel as [|fuel IH]; intros t acc l r H; [done|].
  cbn [Json.parse_elements parse_elements] in H |- *.
  destruct t as [|c r0]; [done|].
  destruct (Ascii.eqb c "{"); [|done].
  destruct (Json.parse_dict r0) as [[d r1]|] eqn:Hd; [|done].
  rewrite (parse_dict_widen _ _ _ Hd).
  destruct (skip_ws r1) as [|c2 r2]; [done|].
  replace ((widen_dict <$> acc) ++ [widen_dict d])
    with (widen_dict <$> (acc ++ [d])) by by rewrite fmap_app.
  destruct (Ascii.eqb c2 ","); [by apply IH|].
  destruct (Ascii.eqb c2 "]"); [|done].
  by injection H as <- <-.
Qed.

(** Every document [Json.loads] reads, [loads] reads as the same list. *)
Lemma loads_widen (text : string) (l : list Py.dict) :
  Json.loads text = Some l → loads text = Some (widen_dict <$> l).
Proof.
  unfold Json.loads, loads.
  destruct (skip_ws text) as [|c r]; [done|].
  destruct (Ascii.eqb c "["); [|done].
  destruct (skip_ws r) as [|c1 r1] eqn:Hr; [done|].
  destruct (Ascii.eqb c1 "]").
  - destruct (skip_ws r1); [|done]. by intros [= <-].
  - destruct (Json.parse_elements _ _ _) as [[l' r2]|] eqn:Hl; [|done].
    pose proof (parse_elements_widen _ _ [] _ _ Hl) as Hw.
    change (widen_dict <$> []) with (@nil dict) in Hw. rewrite Hw.
    destruct (skip_ws r2); [|done]. by intros [= <-].
Qed.

Lemma story_of_dict_widen (d : Py.dict) (s : Insta.story) :
  Insta.story_of_dict d = Some s →
  story_of_dict (widen_dict d) = Some (widen s).
Proof.
  intros H.
  assert (Hd : Insta.dict_of_story s = d).
  { unfold Insta.story_of_dict in H.
    repeat match type of H with
           | match ?x with _ => _ end = _ => destruct x; try done
           end.
    by injection H as <-. }
  rewrite <- Hd, <- dict_of_story_widen. apply wide_story_of_dict_of_story.
Qed.

Lemma mapM_story_of_dict_widen (l : list Py.dict) (ss : list Insta.story) :
  mapM Insta.story_of_dict l = Some ss →
  mapM story_of_dict (widen_dict <$> l) = Some (widen <$> ss).
Proof.
  revert ss. induction l as [|d l IH]; intros ss; [by intros [= <-]|].
  rewrite fmap_cons. cbn [mapM].
  destruct (Insta.story_of_dict d) as [s|] eqn:Hs; [|done].
  rewrite (story_of_dict_widen _ _ Hs).
  destruct (mapM Insta.story_of_dict l) as [ss'|]; [|done].
  rewrite (IH ss') by done. by intros [= <-].
Qed.

(** Whenever [Insta.load_scheduled_stories] returns, the load over full
    strings returns on the same file, with the same records. *)
Lemma load_widen (st : Insta.scheduler) :
  (Insta.load_scheduled_stories st).2 = Return tt →
  load_scheduled_stories (mkScheduler [] (Insta.store st))
  = (mkScheduler
       (widen <$> Insta.scheduled_stories (Insta.load_scheduled_stories st).1)
       (Insta.store st),
     Return tt).
Proof.
  unfold Insta.load_scheduled_stories, load_scheduled_stories.
  cbn [store]. destruct (Insta.store st) as [text|]; [|done].
  destruct (Json.loads text) as [l|] eqn:Hl; [|done].
  rewrite (loads_widen _ _ Hl). cbn [mbind option_bind].
  destruct (mapM Insta.story_of_dict l) as [ss|] eqn:Hss; [|done].
  intros _. by rewrite (mapM_story_of_dict_widen _ _ Hss).
Qed.

End WideFacts.

(** ** The claims of the specification *)

Module Spec.
Import Py Json Timer Insta JsonFacts InstaFacts.

(** *** Persistence *)

(** The round trip on the records of [Insta], whose strings have no code
    point from 0x100 on: the load returns normally and leaves the list as it
    was, in the running process and in a process started anew on the
    file. *)
Theorem save_load_latin (st : scheduler) (token account : string) :
  load_scheduled_stories (save_scheduled_stories st)
    = (save_scheduled_stories st, Return tt)
  ∧ get_scheduled_stories (load_scheduled_stories (save_scheduled_stories st)).1
    = get_scheduled_stories st
  ∧ (init token account (store (save_scheduled_stories st))).2 = Return tt
  ∧ get_scheduled_stories
      (init token account (store (save_scheduled_stories st))).1
    = get_scheduled_stories st.
Proof.
  unfold init, load_scheduled_stories, save_scheduled_stories,
    get_scheduled_stories.
  simpl. rewrite loads_stories. by destruct st.
Qed.

(** C9. Over the strings of Python.  When no string of the list holds a high
    surrogate directly followed by a low surrogate, saving the list and
    loading it again gives back the same sequence of records, in the same
    order and with the same field values: the load returns normally and
    leaves the list as it was, in the running process and in a process
    started anew on the file. *)
Theorem save_load_roundtrip (st : Wide.scheduler) :
  Forall Wide.story_plain (Wide.scheduled_stories st) →
  Wide.load_scheduled_stories (Wide.save_scheduled_stories st)
    = (Wide.save_scheduled_stories st, Return tt)
  ∧ Wide.scheduled_stories
      (Wide.load_scheduled_stories (Wide.save_scheduled_stories st)).1
    = Wide.scheduled_stories st
  ∧ Wide.load_scheduled_stories
      (Wide.mkScheduler [] (Wide.store (Wide.save_scheduled_stories st)))
    = (Wide.save_scheduled_stories st, Return tt).
Proof.
  intros Hplain.
  unfold Wide.load_scheduled_stories, Wide.save_scheduled_stories.
  cbn [Wide.store Wide.scheduled_stories].
  rewrite WideFacts.wide_loads_stories by done. done.
Qed.

Lemma save_load_roundtrip_witness :
  Wide.load_scheduled_stories
    (Wide.save_scheduled_stories (Wide.mkScheduler [Wide.mixed] None))
    = (Wide.save_scheduled_stories (Wide.mkScheduler [Wide.mixed] None),
       Return tt)
  ∧ Wide.scheduled_stories
      (Wide.load_scheduled_stories
         (Wide.save_scheduled_stories (Wide.mkScheduler [Wide.mixed] None))).1
    = [Wide.mixed]
  ∧ Wide.load_scheduled_stories
      (Wide.mkScheduler []
         (Wide.store
            (Wide.save_scheduled_stories (Wide.mkScheduler [Wide.mixed] None))))
    = (Wide.save_scheduled_stories (Wide.mkScheduler [Wide.mixed] None),
       Return tt).
Proof.
  apply (save_load_roundtrip (Wide.mkScheduler [Wide.mixed] None)).
  apply Forall_cons. split; [|by apply Forall_nil].
  unfold Wide.story_plain.
  cbn [Wide.mixed Wide.media_path Wide.scheduled_time Wide.caption Wide.status
       Wide.error].
  split; [apply WideFacts.plain_of_string|].
  split; [apply WideFacts.plain_of_string|].
  split; [|split; [apply WideFacts.plain_of_string | discriminate]].
  split; [|reflexivity].
  unfold Wide.is_str, Wide.is_char.
  repeat (apply Forall_cons; split; [lia|]). by apply Forall_nil.
Defined.

(** C9, as stated, fails on a list with one record whose caption is a high
    surrogate followed by a low surrogate, two characters.  The file holds
    the escapes of the two; the load returns normally and reads them as the
    one character 0x1F600 the pair stands for: the caption that comes back
    has one character and is not the caption that was saved. *)
Lemma save_load_roundtrip_counterexample :
  Wide.is_str (Wide.caption Wide.paired)
  ∧ Wide.store (Wide.save_scheduled_stories (Wide.mkScheduler [Wide.paired] None))
    = Some ("[{" +:+ Wide.dump_str (Wide.of_string "id") +:+ ": 1, "
            +:+ Wide.dump_str (Wide.of_string "media_path") +:+ ": "
            +:+ Wide.dump_str (Wide.of_string "a.jpg") +:+ ", "
            +:+ Wide.dump_str (Wide.of_string "scheduled_time") +:+ ": "
            +:+ Wide.dump_str (Wide.of_string "2026-11-05T12:00:00") +:+ ", "
            +:+ Wide.dump_str (Wide.of_string "caption") +:+ ": "
            +:+ String Json.dquote
                  (String Json.backslash "ud83d"
                   +:+ String Json.backslash "ude00"
                   +:+ String Json.dquote "")
            +:+ ", "
            +:+ Wide.dump_str (Wide.of_string "status") +:+ ": "
            +:+ Wide.dump_str (Wide.of_string "scheduled") +:+ "}]")
  ∧ (Wide.load_scheduled_stories
       (Wide.save_scheduled_stories (Wide.mkScheduler [Wide.paired] None))).2
    = Return tt
  ∧ Wide.caption
      <$> Wide.scheduled_stories
            (Wide.load_scheduled_stories
               (Wide.save_scheduled_stories
                  (Wide.mkScheduler [Wide.paired] None))).1
    = [[128512%N]]
  ∧ Wide.scheduled_stories
      (Wide.load_scheduled_stories
         (Wide.save_scheduled_stories (Wide.mkScheduler [Wide.paired] None))).1
    ≠ Wide.scheduled_stories (Wide.mkScheduler [Wide.paired] None).
Proof.
  split; [|split; [|split; [|split]]].
  - apply (bool_decide_unpack _). vm_compute. exact I.
  - vm_compute. reflexivity.
  - vm_compute. reflexivity.
  - vm_compute. reflexivity.
  - vm_compute. discriminate.
Qed.

(** *** Calls that are refused *)

(** C4. Scheduling a media path that does not exist raises
    [FileNotFoundError] and leaves the whole state as it was: the list, the
    file and the job store. *)
Theorem schedule_missing_media (w : world) (st : scheduler)
    (media_path : string) (scheduled_time : datetime) (caption : string) :
  path_exists w media_path = false →
  schedule_story w st media_path scheduled_time caption
    = (st, Raise (mkExc FileNotFoundError "Media file not found")).
Proof. intros Hmissing. unfold schedule_story. by rewrite Hmissing. Qed.

Lemma schedule_missing_media_witness :
  schedule_story Examples.no_files Examples.one_scheduled "gone.jpg"
    Examples.noon "hi"
  = (Examples.one_scheduled,
     Raise (mkExc FileNotFoundError "Media file not found")).
Proof. apply (schedule_missing_media Examples.no_files). reflexivity. Defined.

(** C5. Modifying an identifier under which no story is scheduled (no such
    story, or one that is posted, failed or cancelled) raises [ValueError]
    and leaves the whole state as it was: no record changed, nothing
    written. *)
Theorem modify_not_scheduled (st : scheduler) (story_id : Z)
    (new_time : option datetime) (new_caption : option string) :
  (∀ s, s ∈ scheduled_stories st → id s = story_id → status s ≠ "scheduled") →
  modify_scheduled_story st story_id new_time new_caption
    = (st, Raise (mkExc ValueError "Story not found or already posted/cancelled")).
Proof.
  intros Hnone. unfold modify_scheduled_story.
  replace (find_scheduled story_id (scheduled_stories st)) with (@None nat);
    [reflexivity|].
  symmetry. apply find_scheduled_None. intros s Hs [Hid Hst].
  by apply (Hnone s).
Qed.

Lemma modify_not_scheduled_witness :
  modify_scheduled_story Examples.one_cancelled 1 (Some Examples.evening)
    (Some "new")
  = (Examples.one_cancelled,
     Raise (mkExc ValueError "Story not found or already posted/cancelled")).
Proof.
  apply modify_not_scheduled.
  intros s Hs _. vm_compute in Hs.
  apply list_elem_of_singleton in Hs as ->. discriminate.
Defined.

(** C6. Cancelling an identifier that no story of the list has, or that only
    stories with status "posted", "failed" or "cancelled" have, returns
    [False] and leaves the whole state as it was: every record, the file and
    the job store. *)
Theorem cancel_not_scheduled (st : scheduler) (story_id : Z) :
  (∀ s, s ∈ scheduled_stories st → id s ≠ story_id)
  ∨ (∀ s, s ∈ scheduled_stories st → id s = story_id → terminal (status s)) →
  cancel_scheduled_story st story_id = (st, Return false).
Proof.
  intros Hnone. unfold cancel_scheduled_story.
  replace (find_scheduled story_id (scheduled_stories st)) with (@None nat);
    [reflexivity|].
  symmetry. apply find_scheduled_None. intros s Hs [Hid Hst].
  destruct Hnone as [Hnone | Hterm].
  - by apply (Hnone s).
  - destruct (Hterm s Hs Hid) as [H | [H | H]]; rewrite Hst in H; discriminate.
Qed.

Lemma cancel_not_scheduled_witness :
  cancel_scheduled_story Examples.one_cancelled 1
  = (Examples.one_cancelled, Return false).
Proof.
  apply cancel_not_scheduled. right.
  intros s Hs _. vm_compute in Hs.
  apply list_elem_of_singleton in Hs as ->. right. right. reflexivity.
Defined.

(** *** Scheduling *)

(** C3. A schedule call that returns gives a record with status "scheduled"
    and identifier one more than the number of stories before the call, and
    appends it as the last element of the list; in every reachable state this
    leaves the identifiers of the list pairwise distinct. *)
Theorem schedule_appends (w : world) (st st' : scheduler) (media_path : string)
    (scheduled_time : datetime) (caption : string) (r : story) :
  schedule_story w st media_path scheduled_time caption = (st', Return r) →
  status r = "scheduled"
  ∧ id r = (Z.of_nat (length (get_scheduled_stories st)) + 1)%Z
  ∧ get_scheduled_stories st' = get_scheduled_stories st ++ [r]
  ∧ last (get_scheduled_stories st') = Some r
  ∧ (reachable st → NoDup (id <$> get_scheduled_stories st')).
Proof.
  intros Hcall.
  assert (Hst' : st' = run (Schedule w media_path scheduled_time caption) st)
    by (simpl; by rewrite Hcall).
  unfold schedule_story in Hcall.
  destruct (path_exists w media_path); [|discriminate]. simpl in Hcall.
  destruct (add_job _ _ _) as [js|e]; [|discriminate].
  injection Hcall as <- <-. unfold get_scheduled_stories. simpl.
  repeat split.
  - by rewrite last_snoc.
  - intros Hreach. apply ids_ok_NoDup.
    apply (reachable_run (Schedule w media_path scheduled_time caption)) in Hreach.
    apply reachable_invariant in Hreach as [Hids _ _].
    rewrite <- Hst' in Hids. exact Hids.
Qed.

Lemma schedule_appends_witness :
  let r := mkStory 1 "a.jpg" "2026-11-05T12:00:00" "hi" "scheduled" None in
  status r = "scheduled"
  ∧ id r = (Z.of_nat (length (get_scheduled_stories Examples.first_start)) + 1)%Z
  ∧ get_scheduled_stories Examples.one_scheduled
      = get_scheduled_stories Examples.first_start ++ [r]
  ∧ last (get_scheduled_stories Examples.one_scheduled) = Some r
  ∧ (reachable Examples.first_start →
     NoDup (id <$> get_scheduled_stories Examples.one_scheduled)).
Proof.
  intros r.
  apply (schedule_appends Examples.api_ok Examples.first_start
           Examples.one_scheduled "a.jpg" Examples.noon "hi" r).
  reflexivity.
Defined.

(** *** Frame of cancel and modify *)

(** C10. A call to cancel or modify keeps the length of the list, keeps every
    story filed under another identifier where it was and as it was, and
    changes the record at one position at most; this holds whether the call
    returns or raises. *)
Theorem cancel_modify_frame (st : scheduler) (story_id : Z)
    (new_time : option datetime) (new_caption : option string) :
  only_touches story_id
    (get_scheduled_stories st)
    (get_scheduled_stories (cancel_scheduled_story st story_id).1)
  ∧ only_touches story_id
      (get_scheduled_stories st)
      (get_scheduled_stories
         (modify_scheduled_story st story_id new_time new_caption).1).
Proof.
  unfold get_scheduled_stories, cancel_scheduled_story, modify_scheduled_story.
  destruct (find_scheduled story_id (scheduled_stories st)) as [ref|] eqn:Hfind.
  - apply find_scheduled_Some in Hfind as [(s & Hs & <- & _) _].
    assert (Href : ∀ s', scheduled_stories st !! ref = Some s' → id s' = id s)
      by (intros s' Hs'; congruence).
    split; apply (agree_off_only_touches _ ref); try done.
    + unfold remove_job. simpl.
      destruct (jobs st !! _); simpl; apply agree_off_update.
    + destruct new_time as [t|]; simpl.
      * unfold reschedule_job. simpl. destruct (jobs st !! _); simpl.
        -- destruct new_caption; simpl; [|apply agree_off_update].
           eapply agree_off_trans; [apply agree_off_update|].
           apply (agree_off_update (with_jobs _ (update_story _ _ _))).
        -- apply agree_off_update.
      * destruct new_caption; simpl; [apply agree_off_update | apply agree_off_refl].
  - simpl. split; apply only_touches_refl.
Qed.

(** *** The state machine *)



(** *** Execution *)

(** C1 (where the code departs from it). When the upload is answered with a
    body that carries no media identifier, or an empty one, [post_story]
    returns normally and leaves the whole state as it was: the story stays
    "scheduled", gets no error text, nothing is written to the file and
    nothing is raised. *)
Theorem post_story_without_identifier (w : world) (st : scheduler) (ref : nat)
    (s : story) (resp : dict) :
  scheduled_stories st !! ref = Some s →
  status s = "scheduled" →
  upload_media w st (media_path s) = Return resp →
  (∀ v, dict_get resp "id" = Some v → truthy v = false) →
  post_story w st ref = (st, Return tt)
  ∧ scheduled_stories (post_story w st ref).1 !! ref = Some s
  ∧ store (post_story w st ref).1 = store st.
Proof.
  intros Hs Hst Hup Hid.
  assert (Hpost : post_story w st ref = (st, Return tt)).
  { unfold post_story. rewrite (list_lookup_total_correct _ _ _ Hs), Hup.
    destruct (dict_get resp "id") as [v|]; [|done].
    by rewrite (Hid v). }
  by rewrite Hpost.
Qed.

Lemma post_story_without_identifier_witness :
  post_story Examples.api_no_id Examples.one_scheduled 0
    = (Examples.one_scheduled, Return tt)
  ∧ scheduled_stories
      (post_story Examples.api_no_id Examples.one_scheduled 0).1 !! 0
    = Some (mkStory 1 "a.jpg" "2026-11-05T12:00:00" "hi" "scheduled" None)
  ∧ store (post_story Examples.api_no_id Examples.one_scheduled 0).1
    = store Examples.one_scheduled.
Proof.
  apply (post_story_without_identifier Examples.api_no_id
           Examples.one_scheduled 0 _ []).
  - reflexivity.
  - reflexivity.
  - reflexivity.
  - intros v Hv. simpl in Hv. discriminate.
Defined.

(** *** Cancelling and modifying a scheduled story *)

(** The path of cancel on which the timer job is found.  When a story is
    scheduled under the identifier and its timer job is still pending under
    that identifier, cancel returns [True]; the first such story of the list
    gets status "cancelled"; the job leaves the store, so that the timer no
    longer runs anything for that identifier; and the list is written to the
    file. *)
Theorem cancel_scheduled (st : scheduler) (story_id : Z) (s : story) :
  s ∈ scheduled_stories st →
  scheduled_with story_id s →
  is_Some (jobs st !! str_int story_id) →
  ∃ ref s0 st',
    first_scheduled story_id (scheduled_stories st) ref
    ∧ scheduled_stories st !! ref = Some s0
    ∧ cancel_scheduled_story st story_id = (st', Return true)
    ∧ scheduled_stories st' !! ref = Some (set_status "cancelled" s0)
    ∧ jobs st' = delete (str_int story_id) (jobs st)
    ∧ (∀ w, fire w st' (str_int story_id) = (st', Return tt))
    ∧ persisted st'.
Proof.
  intros Hin Hs [j Hj].
  destruct (find_scheduled_elem story_id _ s Hin Hs)
    as (ref & s0 & Hfind & Hfirst & Hs0 & Hm).
  exists ref, s0. eexists. split; [done|]. split; [done|].
  unfold cancel_scheduled_story. rewrite Hfind.
  unfold remove_job. simpl. rewrite Hj. split; [reflexivity|].
  split; [|split; [reflexivity|split; [|reflexivity]]].
  - simpl. rewrite list_lookup_alter, Hs0. by rewrite decide_True.
  - intros w. unfold fire. simpl. by rewrite lookup_delete_eq.
Qed.

Lemma cancel_scheduled_witness :
  ∃ ref s0 st',
    first_scheduled 1 (scheduled_stories Examples.one_scheduled) ref
    ∧ scheduled_stories Examples.one_scheduled !! ref = Some s0
    ∧ cancel_scheduled_story Examples.one_scheduled 1 = (st', Return true)
    ∧ scheduled_stories st' !! ref = Some (set_status "cancelled" s0)
    ∧ jobs st' = delete (str_int 1) (jobs Examples.one_scheduled)
    ∧ (∀ w, fire w st' (str_int 1) = (st', Return tt))
    ∧ persisted st'.
Proof.
  apply (cancel_scheduled Examples.one_scheduled 1
           (mkStory 1 "a.jpg" "2026-11-05T12:00:00" "hi" "scheduled" None)).
  - vm_compute. left.
  - split; reflexivity.
  - vm_compute. eexists. reflexivity.
Defined.

(** C7. The code does not do what the claim says for every scheduled story.
    Start the program, schedule one story, stop the program and start it
    again: the story is loaded from the file with status "scheduled", and
    the job store of the new process is empty.  [cancel_scheduled_story(1)]
    assigns "cancelled" to the story in memory, then [remove_job("1")]
    raises [JobLookupError], which nothing catches: the call does not return
    [True], [save_scheduled_stories] is not reached, and the file keeps
    saying "scheduled". *)
Theorem cancel_after_restart :
  reachable Examples.restarted
  ∧ (∃ s, s ∈ scheduled_stories Examples.restarted ∧ scheduled_with 1 s)
  ∧ jobs Examples.restarted = ∅
  ∧ (cancel_scheduled_story Examples.restarted 1).2
      = Raise (mkExc JobLookupError "'No job by the id of 1 was found'")
  ∧ status <$> scheduled_stories (cancel_scheduled_story Examples.restarted 1).1
      = ["cancelled"]
  ∧ store (cancel_scheduled_story Examples.restarted 1).1
      = store Examples.restarted
  ∧ (Json.loads <$> store (cancel_scheduled_story Examples.restarted 1).1)
      = Some (Some [dict_of_story
                      (mkStory 1 "a.jpg" "2026-11-05T12:00:00" "hi"
                               "scheduled" None)])
  ∧ ¬ persisted (cancel_scheduled_story Examples.restarted 1).1.
Proof.
  split; [|split; [|split; [|split; [|split; [|split; [|split]]]]]].
  - apply (reachable_restart "token" "account" Examples.one_scheduled).
    + apply (reachable_run
               (Schedule Examples.api_ok "a.jpg" Examples.noon "hi")
               Examples.first_start).
      apply reachable_first.
    + vm_compute. reflexivity.
  - exists (mkStory 1 "a.jpg" "2026-11-05T12:00:00" "hi" "scheduled" None).
    split; [vm_compute; left | split; reflexivity].
  - reflexivity.
  - vm_compute. reflexivity.
  - vm_compute. reflexivity.
  - vm_compute. reflexivity.
  - vm_compute. reflexivity.
  - unfold persisted. vm_compute. discriminate.
Qed.

(** The paths of modify that reach the end of the method.  When a story is
    scheduled under the identifier and either no new time is passed or its
    timer job is still pending under that identifier, modify returns the
    record of the first such story as it is after the call: its caption is
    the new caption when one is given, the empty string included, and the
    old caption otherwise; its time is the new time when one is given; the
    other fields are kept; and the list is written to the file. *)
Theorem modify_scheduled (st : scheduler) (story_id : Z)
    (new_time : option datetime) (new_caption : option string) (s : story) :
  s ∈ scheduled_stories st →
  scheduled_with story_id s →
  new_time = None ∨ is_Some (jobs st !! str_int story_id) →
  ∃ ref s0 st' r,
    first_scheduled story_id (scheduled_stories st) ref
    ∧ scheduled_stories st !! ref = Some s0
    ∧ modify_scheduled_story st story_id new_time new_caption = (st', Return r)
    ∧ scheduled_stories st' !! ref = Some r
    ∧ r = mkStory (id s0) (media_path s0)
                  (default (scheduled_time s0) (isoformat <$> new_time))
                  (default (caption s0) new_caption)
                  (status s0) (error s0)
    ∧ persisted st'.
Proof.
  intros Hin Hs Hjob.
  destruct (find_scheduled_elem story_id _ s Hin Hs)
    as (ref & s0 & Hfind & Hfirst & Hs0 & Hm).
  exists ref, s0.
  assert (Hlt : ref < length (scheduled_stories st))
    by by eapply lookup_lt_Some.
  unfold modify_scheduled_story. rewrite Hfind.
  assert (Hcap : ∀ c (l : list story) s1, l !! ref = Some s1 →
            alter (set_caption c) ref l !! ref = Some (set_caption c s1)).
  { intros c l s1 Hl. by rewrite list_lookup_alter, Hl, decide_True. }
  assert (Htime : ∀ t, alter (set_scheduled_time (isoformat t)) ref
                         (scheduled_stories st) !! ref
                       = Some (set_scheduled_time (isoformat t) s0)).
  { intros t. by rewrite list_lookup_alter, Hs0, decide_True. }
  destruct new_time as [t|].
  - destruct Hjob as [|[j Hj]]; [done|].
    unfold reschedule_job. simpl. rewrite Hj.
    destruct new_caption as [c|]; simpl.
    + pose proof (Hcap c _ _ (Htime t)) as Hlook.
      do 2 eexists. split; [done|]. split; [done|]. split; [reflexivity|].
      simpl. rewrite (list_lookup_total_correct _ _ _ Hlook).
      split; [done|]. split; [by destruct s0 | reflexivity].
    + pose proof (Htime t) as Hlook.
      do 2 eexists. split; [done|]. split; [done|]. split; [reflexivity|].
      simpl. rewrite (list_lookup_total_correct _ _ _ Hlook).
      split; [done|]. split; [by destruct s0 | reflexivity].
  - destruct new_caption as [c|]; simpl.
    + pose proof (Hcap c _ _ Hs0) as Hlook.
      do 2 eexists. split; [done|]. split; [done|]. split; [reflexivity|].
      simpl. rewrite (list_lookup_total_correct _ _ _ Hlook).
      split; [done|]. split; [by destruct s0 | reflexivity].
    + do 2 eexists. split; [done|]. split; [done|]. split; [reflexivity|].
      simpl. rewrite (list_lookup_total_correct _ _ _ Hs0).
      split; [done|]. split; [by destruct s0 | reflexivity].
Qed.

Lemma modify_scheduled_witness :
  ∃ ref s0 st' r,
    first_scheduled 1 (scheduled_stories Examples.one_scheduled) ref
    ∧ scheduled_stories Examples.one_scheduled !! ref = Some s0
    ∧ modify_scheduled_story Examples.one_scheduled 1 (Some Examples.evening)
        (Some "") = (st', Return r)
    ∧ scheduled_stories st' !! ref = Some r
    ∧ r = mkStory (id s0) (media_path s0)
                  (default (scheduled_time s0)
                           (isoformat <$> Some Examples.evening))
                  (default (caption s0) (Some ""))
                  (status s0) (error s0)
    ∧ persisted st'.
Proof.
  apply (modify_scheduled Examples.one_scheduled 1 (Some Examples.evening)
           (Some "")
           (mkStory 1 "a.jpg" "2026-11-05T12:00:00" "hi" "scheduled" None)).
  - vm_compute. left.
  - split; reflexivity.
  - right. vm_compute. eexists. reflexivity.
Defined.

(** C8. The code does not do what the claim says for every scheduled story.
    Start the program, schedule one story with caption "hi", stop the
    program and start it again: the story is loaded from the file with
    status "scheduled", and the job store of the new process is empty.
    [modify_scheduled_story(1, new_time, "new")] assigns the new time to the
    story in memory, then [reschedule_job] raises [JobLookupError], which
    nothing catches: the assignment of the caption is not reached, the
    caption stays "hi", no record is returned, and the file is not
    rewritten.  The same call without a new time returns the record with the
    caption "new" and writes the file. *)
Theorem modify_after_restart :
  reachable Examples.restarted
  ∧ (∃ s, s ∈ scheduled_stories Examples.restarted ∧ scheduled_with 1 s)
  ∧ jobs Examples.restarted = ∅
  ∧ (modify_scheduled_story Examples.restarted 1 (Some Examples.evening)
       (Some "new")).2
      = Raise (mkExc JobLookupError "'No job by the id of 1 was found'")
  ∧ scheduled_stories
      (modify_scheduled_story Examples.restarted 1 (Some Examples.evening)
         (Some "new")).1
      = [mkStory 1 "a.jpg" "2026-11-05T19:30:00" "hi" "scheduled" None]
  ∧ store (modify_scheduled_story Examples.restarted 1 (Some Examples.evening)
             (Some "new")).1
      = store Examples.restarted
  ∧ ¬ persisted
      (modify_scheduled_story Examples.restarted 1 (Some Examples.evening)
         (Some "new")).1
  ∧ (modify_scheduled_story Examples.restarted 1 None (Some "new")).2
      = Return (mkStory 1 "a.jpg" "2026-11-05T12:00:00" "new" "scheduled" None)
  ∧ persisted (modify_scheduled_story Examples.restarted 1 None (Some "new")).1.
Proof.
  split; [|split; [|split; [|split; [|split; [|split; [|split; [|split]]]]]]].
  - apply (reachable_restart "token" "account" Examples.one_scheduled).
    + apply (reachable_run
               (Schedule Examples.api_ok "a.jpg" Examples.noon "hi")
               Examples.first_start).
      apply reachable_first.
    + vm_compute. reflexivity.
  - exists (mkStory 1 "a.jpg" "2026-11-05T12:00:00" "hi" "scheduled" None).
    split; [vm_compute; left | split; reflexivity].
  - reflexivity.
  - vm_compute. reflexivity.
  - vm_compute. reflexivity.
  - vm_compute. reflexivity.
  - unfold persisted. vm_compute. discriminate.
  - vm_compute. reflexivity.
  - unfold persisted. vm_compute. reflexivity.
Qed.

End Spec.

(** ** Execution, scheduling and the driver: helper lemmas *)

Module LifecycleFacts.
Import Py Json Timer Insta Lifecycle JsonFacts InstaFacts.

(** *** [post_story], branch by branch *)

Lemma story_params_built (st : scheduler) (s : story) (media_id : pyval) :
  (if truthy (PStr (caption s))
   then dict_set [("access_token", PStr (access_token st));
                  ("media_type", PStr "STORY");
                  ("media_id", media_id)]
                 "caption" (PStr (caption s))
   else [("access_token", PStr (access_token st));
         ("media_type", PStr "STORY");
         ("media_id", media_id)])
  = story_params st s media_id.
Proof.
  unfold story_params, truthy. by destruct (String.eqb (caption s) "").
Qed.

Lemma post_story_eval (w : world) (st : scheduler) (ref : nat) (s : story) :
  scheduled_stories st !! ref = Some s →
  post_story w st ref =
  match upload_media w st (media_path s) with
  | Raise e => (marked_failed e ref st, Raise e)
  | Return resp =>
      match dict_get resp "id" with
      | Some media_id =>
          if truthy media_id then
            match http_create_story w (story_url st) (story_params st s media_id) with
            | Some e => (marked_failed e ref st, Raise e)
            | None => (marked_posted ref st, Return tt)
            end
          else (st, Return tt)
      | None => (st, Return tt)
      end
  end.
Proof.
  intros Hs. unfold post_story. rewrite (list_lookup_total_correct _ _ _ Hs).
  destruct (upload_media _ _ _) as [resp|e]; [|done].
  destruct (dict_get resp "id") as [media_id|]; [|done].
  destruct (truthy media_id); [|done].
  by rewrite story_params_built.
Qed.

Lemma alter_insert (l : list story) (ref : nat) (s : story) (f : story → story) :
  l !! ref = Some s → alter f ref l = <[ref := f s]> l.
Proof.
  intros Hs. apply list_eq. intros i.
  rewrite list_lookup_alter, list_lookup_insert.
  pose proof (lookup_lt_Some _ _ _ Hs) as Hlt.
  repeat case_decide; subst; try done; try lia; by rewrite ?Hs.
Qed.

Lemma marked_posted_stories (st : scheduler) (ref : nat) (s : story) :
  scheduled_stories st !! ref = Some s →
  scheduled_stories (marked_posted ref st)
  = <[ref := set_status "posted" s]> (scheduled_stories st).
Proof. intros Hs. unfold marked_posted. simpl. by apply alter_insert. Qed.

Lemma marked_failed_stories (e : exception) (st : scheduler) (ref : nat)
    (s : story) :
  scheduled_stories st !! ref = Some s →
  scheduled_stories (marked_failed e ref st)
  = <[ref := mkStory (id s) (media_path s) (scheduled_time s) (caption s)
                     "failed" (Some (exc_str e))]> (scheduled_stories st).
Proof.
  intros Hs. unfold marked_failed. simpl.
  rewrite (alter_insert _ _ (set_status "failed" s)).
  - rewrite (alter_insert _ _ s) by done. by rewrite list_insert_insert_eq.
  - rewrite list_lookup_alter, Hs. by rewrite decide_True.
Qed.

Lemma post_story_jobs (w : world) (st : scheduler) (ref : nat) :
  jobs (post_story w st ref).1 = jobs st.
Proof.
  by destruct (post_story_cases w st ref) as [-> | [[e ->] | ->]].
Qed.

(** *** Job identifiers *)

Lemma digits_inj (a b : N) : digits a = digits b → a = b.
Proof.
  unfold digits. intros Heq.
  apply DecimalN.Unsigned.to_uint_inj.
  pose proof (NilEmpty.usu (N.to_uint a)) as Ha.
  rewrite Heq, NilEmpty.usu in Ha. congruence.
Qed.

(** [str] gives different integers different texts. *)
Lemma str_int_inj (a b : Z) : str_int a = str_int b → a = b.
Proof.
  assert (Hsign : ∀ n s, digits n ≠ String "-" s).
  { intros n s Hn. destruct (digits_head n) as (c & s' & Hd & Hc).
    rewrite Hd in Hn. injection Hn as -> _. discriminate. }
  destruct a as [|p|p], b as [|q|q]; intros Heq; try reflexivity.
  - change (digits 0 = digits (N.pos q)) in Heq. by apply digits_inj in Heq.
  - change (digits 0 = String "-" (digits (N.pos q))) in Heq. by apply Hsign in Heq.
  - change (digits (N.pos p) = digits 0) in Heq. by apply digits_inj in Heq.
  - change (digits (N.pos p) = digits (N.pos q)) in Heq.
    apply digits_inj in Heq. congruence.
  - change (digits (N.pos p) = String "-" (digits (N.pos q))) in Heq.
    by apply Hsign in Heq.
  - change (String "-" (digits (N.pos p)) = digits 0) in Heq.
    symmetry in Heq. by apply Hsign in Heq.
  - change (String "-" (digits (N.pos p)) = digits (N.pos q)) in Heq.
    symmetry in Heq. by apply Hsign in Heq.
  - change (String "-" (digits (N.pos p)) = String "-" (digits (N.pos q))) in Heq.
    injection Heq as Heq. apply digits_inj in Heq. congruence.
Qed.

(** In a state that keeps the invariant the identifier of the next job is
    free. *)
Lemma next_job_free (st : scheduler) :
  invariant st →
  jobs st !! str_int (Z.of_nat (length (scheduled_stories st)) + 1) = None.
Proof.
  intros [Hids _ Hjobs].
  destruct (jobs st !! _) as [j|] eqn:Hj; [|done]. exfalso.
  destruct (Hjobs _ _ Hj) as (s & Hs & _ & Hk).
  apply str_int_inj in Hk. pose proof (Hids _ _ Hs) as Hid.
  apply lookup_lt_Some in Hs. lia.
Qed.

(** *** Scheduling, then finding the new story *)

Lemma schedule_story_ok (w : world) (st : scheduler) (media_path : string)
    (scheduled_time : datetime) (caption : string) :
  invariant st →
  path_exists w media_path = true →
  schedule_story w st media_path scheduled_time caption
  = (with_jobs
       (<[str_int (Z.of_nat (length (scheduled_stories st)) + 1)
          := mkJob scheduled_time (length (scheduled_stories st))]> (jobs st))
       (save_scheduled_stories
          (with_stories
             (scheduled_stories st
              ++ [mkStory (Z.of_nat (length (scheduled_stories st)) + 1)
                          media_path (isoformat scheduled_time) caption
                          "scheduled" None]) st)),
     Return (mkStory (Z.of_nat (length (scheduled_stories st)) + 1)
                     media_path (isoformat scheduled_time) caption
                     "scheduled" None)).
Proof.
  intros Hinv Hpath. unfold schedule_story. rewrite Hpath. simpl.
  unfold add_job. simpl. by rewrite (next_job_free st Hinv).
Qed.

Lemma alter_snoc (l : list story) (r : story) (f : story → story) :
  alter f (length l) (l ++ [r]) = l ++ [f r].
Proof.
  replace (length l) with (length l + 0) at 1 by lia.
  by rewrite alter_app_r.
Qed.

(** The loop stops at a new story appended to a list whose identifiers count
    the positions. *)
Lemma find_scheduled_new (l : list story) (r : story) :
  ids_ok l →
  id r = (Z.of_nat (length l) + 1)%Z → status r = "scheduled" →
  find_scheduled (id r) (l ++ [r]) = Some (length l).
Proof.
  intros Hids Hid Hst. apply find_scheduled_Some. split.
  - exists r. split; [by apply list_lookup_middle | by split].
  - intros i s Hi Hs [Hsid _].
    rewrite lookup_app_l in Hs by done. apply Hids in Hs. lia.
Qed.

(** In a list whose identifiers count the positions, the loop finds nothing
    under the identifier of a story that is not scheduled. *)
Lemma find_scheduled_other_status (l : list story) (s : story) :
  ids_ok l → s ∈ l → status s ≠ "scheduled" →
  find_scheduled (id s) l = None.
Proof.
  intros Hids Hin Hst. apply find_scheduled_None. intros s' Hin' [Hid Hst'].
  apply list_elem_of_lookup in Hin as [i Hi].
  apply list_elem_of_lookup in Hin' as [i' Hi'].
  pose proof (Hids _ _ Hi) as Hidi. pose proof (Hids _ _ Hi') as Hidi'.
  assert (i = i') by lia. subst i'. congruence.
Qed.

Lemma terminal_not_scheduled (v : string) : terminal v → v ≠ "scheduled".
Proof. by intros [-> | [-> | ->]]. Qed.

(** *** What never changes *)

Lemma post_key_alter (l : list story) (ref : nat) (f : story → story) :
  (∀ s, post_key (f s) = post_key s) →
  post_key <$> alter f ref l = post_key <$> l.
Proof.
  intros Hf. apply list_eq. intros i.
  rewrite !list_lookup_fmap, list_lookup_alter.
  case_decide; [|done]. subst.
  destruct (l !! i) as [s|]; simpl; [|done]. by rewrite Hf.
Qed.

Lemma post_key_update (st : scheduler) (ref : nat) (f : story → story) :
  (∀ s, post_key (f s) = post_key s) →
  post_key <$> scheduled_stories (update_story ref f st)
  = post_key <$> scheduled_stories st.
Proof. intros Hf. unfold update_story. simpl. by apply post_key_alter. Qed.

Lemma post_story_keys (w : world) (st : scheduler) (ref : nat) :
  post_key <$> scheduled_stories (post_story w st ref).1
  = post_key <$> scheduled_stories st.
Proof.
  destruct (post_story_cases w st ref) as [-> | [[e ->] | ->]]; cbn [fst];
    [done | |].
  - unfold marked_failed. rewrite stories_save.
    by rewrite !post_key_update.
  - unfold marked_posted. rewrite stories_save.
    by rewrite post_key_update.
Qed.

Lemma cancel_keys (st : scheduler) (story_id : Z) :
  post_key <$> scheduled_stories (cancel_scheduled_story st story_id).1
  = post_key <$> scheduled_stories st.
Proof.
  unfold cancel_scheduled_story.
  destruct (find_scheduled story_id (scheduled_stories st)) as [ref|]; [|done].
  unfold remove_job. simpl jobs.
  destruct (jobs st !! _); cbn [fst].
  - rewrite stories_save, stories_with_jobs. by rewrite post_key_update.
  - by rewrite post_key_update.
Qed.

Lemma modify_keys (st : scheduler) (story_id : Z) (new_time : option datetime)
    (new_caption : option string) :
  post_key <$> scheduled_stories
                 (modify_scheduled_story st story_id new_time new_caption).1
  = post_key <$> scheduled_stories st.
Proof.
  unfold modify_scheduled_story.
  destruct (find_scheduled story_id (scheduled_stories st)) as [ref|]; [|done].
  assert (Hcap : ∀ st0,
            post_key <$> scheduled_stories
                           (match new_caption with
                            | Some c => update_story ref (set_caption c) st0
                            | None => st0
                            end)
            = post_key <$> scheduled_stories st0).
  { intros st0. destruct new_caption; [|done]. by rewrite post_key_update. }
  destruct new_time as [t|].
  - unfold reschedule_job. simpl jobs. destruct (jobs st !! _); cbn [fst].
    + rewrite stories_save, Hcap, stories_with_jobs. by rewrite post_key_update.
    + by rewrite post_key_update.
  - cbn [fst]. by rewrite stories_save, Hcap.
Qed.

(** *** Operations as lifecycle steps *)

Lemma run_lifecycle (o : operation) (st : scheduler) :
  jobs_ok st →
  rtc lifecycle_step (scheduled_stories st) (scheduled_stories (run o st)).
Proof.
  intros Hjobs. destruct o as [w p t c | w k | story_id | story_id new_time new_caption];
    simpl.
  - unfold schedule_story. destruct (path_exists w p); simpl; [|done].
    destruct (add_job _ _ _); simpl; by apply rtc_once, life_new.
  - unfold fire. destruct (jobs st !! k) as [j|] eqn:Hj; [|done].
    destruct (Hjobs _ _ Hj) as (s & Hs & Hst & _).
    destruct (post_story_cases w (with_jobs (delete k (jobs st)) st) (args j))
      as [-> | [[e ->] | ->]]; cbn [fst]; [done | |].
    + unfold marked_failed. rewrite stories_save. unfold update_story. simpl.
      rewrite list_alter_alter_eq. by eapply rtc_once, (life_fail _ _ _ (exc_str e)).
    + unfold marked_posted. rewrite stories_save. unfold update_story. simpl.
      by eapply rtc_once, life_post.
  - unfold cancel_scheduled_story.
    destruct (find_scheduled story_id (scheduled_stories st)) as [ref|] eqn:Hfind;
      [|done].
    apply find_scheduled_Some in Hfind as [(s & Hs & _ & Hst) _].
    unfold remove_job. simpl jobs.
    destruct (jobs st !! _); cbn [fst]; rewrite ?stories_save, ?stories_with_jobs;
      by eapply rtc_once, life_cancel.
  - unfold modify_scheduled_story.
    destruct (find_scheduled story_id (scheduled_stories st)) as [ref|] eqn:Hfind;
      [|done].
    apply find_scheduled_Some in Hfind as [(s & Hs & _ & Hst) _].
    assert (Hcap : ∀ st0 s0, scheduled_stories st0 !! ref = Some s0 →
              status s0 = "scheduled" →
              rtc lifecycle_step (scheduled_stories st0)
                (scheduled_stories
                   (match new_caption with
                    | Some c => update_story ref (set_caption c) st0
                    | None => st0
                    end))).
    { intros st0 s0 Hs0 Hst0. destruct new_caption; [|done].
      by eapply rtc_once, life_recaption. }
    destruct new_time as [t|].
    + assert (Htime : lifecycle_step (scheduled_stories st)
                (scheduled_stories
                   (update_story ref (set_scheduled_time (isoformat t)) st)))
        by by eapply life_retime.
      unfold reschedule_job. simpl jobs. destruct (jobs st !! _); cbn [fst].
      * rewrite stories_save. eapply rtc_l; [exact Htime|].
        set (st1 := with_jobs _ (update_story _ _ st)).
        change (scheduled_stories
                  (update_story ref (set_scheduled_time (isoformat t)) st))
          with (scheduled_stories st1).
        apply (Hcap st1 (set_scheduled_time (isoformat t) s)); [|done].
        unfold st1.
        rewrite stories_with_jobs, (lookup_update_story_Some _ _ _ _ _ Hs).
        by rewrite decide_True.
      * by apply rtc_once.
    + cbn [fst]. rewrite stories_save. by eapply Hcap.
Qed.

(** An operation either writes the list it leaves, or leaves the file alone
    and the posts of the list too. *)
Lemma run_store (o : operation) (st : scheduler) :
  persisted (run o st)
  ∨ (store (run o st) = store st
     ∧ post_key <$> scheduled_stories (run o st)
       = post_key <$> scheduled_stories st).
Proof.
  destruct o as [w p t c | w k | story_id | story_id t c]; simpl.
  - unfold schedule_story. destruct (path_exists w p); simpl; [|by right].
    left. by destruct (add_job _ _ _).
  - unfold fire. destruct (jobs st !! k) as [j|]; [|by right].
    destruct (post_story_cases w (with_jobs (delete k (jobs st)) st) (args j))
      as [-> | [[e ->] | ->]]; cbn [fst]; [by right | by left | by left].
  - pose proof (cancel_keys st story_id) as Hkeys.
    unfold cancel_scheduled_story in *.
    destruct (find_scheduled story_id (scheduled_stories st)) as [ref|];
      [|by right].
    unfold remove_job in *. simpl jobs in *.
    destruct (jobs st !! _); cbn [fst] in *; [by left | by right].
  - pose proof (modify_keys st story_id t c) as Hkeys.
    unfold modify_scheduled_story in *.
    destruct (find_scheduled story_id (scheduled_stories st)) as [ref|];
      [|by right].
    destruct t as [t|].
    + unfold reschedule_job in *. simpl jobs in *.
      destruct (jobs st !! _); cbn [fst] in *; [by left | by right].
    + by left.
Qed.

(** A property of lists that the empty list has and every lifecycle step
    keeps holds of the list of every reachable state, and of the list in its
    file. *)
Lemma reachable_lists (P : list story → Prop) :
  P [] →
  (∀ l l', P l → lifecycle_step l l' → P l') →
  ∀ st, reachable st → P (scheduled_stories st) ∧ file_holds P (store st).
Proof.
  intros Hnil Hstep st Hreach.
  induction Hreach as [token account | o st Hreach [IHl IHf] | k st _ IH
                      | token account st st' _ [IHl IHf] Hinit].
  - split; [done|]. intros text Htext. discriminate.
  - assert (Hl : P (scheduled_stories (run o st))).
    { pose proof (run_lifecycle o st
                    (inv_jobs _ (reachable_invariant _ Hreach))) as Hrtc.
      induction Hrtc as [|l1 l2 l3 H12 _ IH]; [done|].
      apply IH. by apply (Hstep l1). }
    split; [done|].
    destruct (run_store o st) as [Hsaved | [Hsame _]].
    + intros text Htext. rewrite Hsaved in Htext. injection Htext as <-. eauto.
    + by rewrite Hsame.
  - done.
  - unfold init, load_scheduled_stories in Hinit. simpl in Hinit.
    destruct (store st) as [text|] eqn:Hstore.
    + destruct (IHf text eq_refl) as (l & -> & Hl).
      rewrite loads_stories in Hinit. injection Hinit as <-. simpl.
      split; [done|]. intros text Htext. injection Htext as <-. eauto.
    + injection Hinit as <-. simpl. split; [done|]. intros text Htext. discriminate.
Qed.


Lemma status_ok_step (l l' : list story) :
  status_ok l → lifecycle_step l l' → status_ok l'.
Proof.
  intros Hok Hstep s' Hin.
  assert (Halter : ∀ ref (f : story → story),
            (∀ x, status (f x) = "scheduled" ∨ terminal (status (f x))
                  ∨ status (f x) = status x) →
            s' ∈ alter f ref l →
            status s' = "scheduled" ∨ terminal (status s')).
  { intros ref f Hf Hin'. apply list_elem_of_lookup in Hin' as [i Hi].
    rewrite list_lookup_alter in Hi. case_decide.
    - apply fmap_Some in Hi as (x & Hx & ->).
      destruct (Hf x) as [? | [? | Heq]]; [by left | by right |].
      rewrite Heq. apply Hok, list_elem_of_lookup. eauto.
    - apply Hok, list_elem_of_lookup. eauto. }
  destruct Hstep as [l r _ Hst _ | l ref s0 t _ _ | l ref s0 c _ _
                    | l ref s0 _ _ | l ref s0 _ _ | l ref s0 e _ _].
  - apply elem_of_app in Hin as [Hin | Hin]; [by apply Hok|].
    apply list_elem_of_singleton in Hin as ->. by left.
  - eapply Halter; [|exact Hin]. intros x. right. by right.
  - eapply Halter; [|exact Hin]. intros x. right. by right.
  - eapply Halter; [|exact Hin]. intros x. right. left. right. by right.
  - eapply Halter; [|exact Hin]. intros x. right. left. by left.
  - eapply Halter; [|exact Hin]. intros x. right. left. right. by left.
Qed.

Lemma error_ok_step (l l' : list story) :
  error_ok l → lifecycle_step l l' → error_ok l'.
Proof.
  intros Hok Hstep s' Hin.
  assert (Halter : ∀ ref (f : story → story) s0,
            l !! ref = Some s0 →
            (is_Some (error (f s0)) ↔ status (f s0) = "failed") →
            s' ∈ alter f ref l →
            is_Some (error s') ↔ status s' = "failed").
  { intros ref f s0 Hs0 Hf Hin'. apply list_elem_of_lookup in Hin' as [i Hi].
    rewrite list_lookup_alter in Hi. case_decide.
    - subst. rewrite Hs0 in Hi. by injection Hi as <-.
    - apply Hok, list_elem_of_lookup. eauto. }
  assert (Hnone : ∀ ref s0, l !! ref = Some s0 → status s0 = "scheduled" →
                            error s0 = None).
  { intros ref s0 Hs0 Hst0.
    destruct (error s0) as [e|] eqn:He; [|done]. exfalso.
    assert (Hfailed : status s0 = "failed").
    { apply Hok; [apply list_elem_of_lookup; eauto | by rewrite He]. }
    congruence. }
  destruct Hstep as [l r _ Hst Herr | l ref s0 t Hs0 Hst0 | l ref s0 c Hs0 Hst0
                    | l ref s0 Hs0 Hst0 | l ref s0 Hs0 Hst0 | l ref s0 e Hs0 Hst0].
  - apply elem_of_app in Hin as [Hin | Hin]; [by apply Hok|].
    apply list_elem_of_singleton in Hin as ->. rewrite Herr, Hst.
    split; [by intros [? ?] | done].
  - eapply (Halter ref _ s0); [done | | exact Hin]. simpl.
    rewrite (Hnone _ _ Hs0 Hst0), Hst0. split; [by intros [? ?] | done].
  - eapply (Halter ref _ s0); [done | | exact Hin]. simpl.
    rewrite (Hnone _ _ Hs0 Hst0), Hst0. split; [by intros [? ?] | done].
  - eapply (Halter ref _ s0); [done | | exact Hin]. simpl.
    rewrite (Hnone _ _ Hs0 Hst0). split; [by intros [? ?] | done].
  - eapply (Halter ref _ s0); [done | | exact Hin]. simpl.
    rewrite (Hnone _ _ Hs0 Hst0). split; [by intros [? ?] | done].
  - eapply (Halter ref _ s0); [done | | exact Hin]. simpl. split; [done | eauto].
Qed.

Lemma reachable_in_step (st : scheduler) : reachable st → in_step st.
Proof.
  induction 1 as [token account | o st _ IH | k st _ IH
                 | token account st st' _ IH Hinit]; unfold in_step in *.
  - done.
  - destruct (run_store o st) as [Hsaved | [Hsame Hkeys]].
    + rewrite Hsaved. eauto.
    + rewrite Hsame. destruct (store st) as [text|].
      * destruct IH as (l & -> & Hl). exists l. by rewrite Hkeys.
      * rewrite IH in Hkeys. by apply fmap_nil_inv in Hkeys.
  - done.
  - unfold init, load_scheduled_stories in Hinit. simpl in Hinit.
    destruct (store st) as [text|] eqn:Hstore.
    + destruct IH as (l & -> & Hl).
      rewrite loads_stories in Hinit. injection Hinit as <-. simpl. eauto.
    + by injection Hinit as <-.
Qed.

(** *** The text of the file *)

Lemma skip_ws_blank (s : string) : blank s → skip_ws s = "".
Proof.
  induction s as [|c s IH]; [done|]. intros [Hc Hs]. simpl. rewrite Hc. auto.
Qed.

Lemma printable_append (a b : string) :
  printable a → printable b → printable (a +:+ b).
Proof.
  induction a as [|c a IH]; [done|]. intros [Hc Ha] Hb.
  rewrite append_cons. split; [done | auto].
Qed.

Lemma printable_escape_char (c : ascii) : printable (escape_char c).
Proof.
  destruct c as [[] [] [] [] [] [] [] []]; vm_compute;
    repeat split; discriminate.
Qed.

Lemma printable_escape (s : string) : printable (escape s).
Proof.
  induction s as [|c s IH]; [done|].
  change (escape (String c s)) with (escape_char c +:+ escape s).
  apply printable_append; [apply printable_escape_char | done].
Qed.

Lemma printable_dump_str (s : string) : printable (dump_str s).
Proof.
  unfold dump_str. split; [by vm_compute|].
  apply printable_append; [apply printable_escape|].
  split; [by vm_compute | done].
Qed.

Lemma printable_uint (d : Decimal.uint) :
  printable (NilEmpty.string_of_uint d).
Proof.
  induction d; simpl; try done; (split; [by vm_compute | done]).
Qed.

Lemma printable_str_int (z : Z) : printable (str_int z).
Proof.
  destruct z as [|p|p]; simpl.
  - by vm_compute.
  - apply printable_uint.
  - split; [by vm_compute | apply printable_uint].
Qed.

Lemma printable_dump_member (m : string * pyval) : printable (dump_member m).
Proof.
  unfold dump_member. apply printable_append; [apply printable_dump_str|].
  apply printable_append; [by vm_compute|].
  destruct m.2; [apply printable_str_int | apply printable_dump_str].
Qed.

Lemma printable_dump_members (d : dict) : printable (dump_members d).
Proof.
  induction d as [|m d IH]; [by vm_compute|].
  destruct d as [|m' d].
  - apply printable_append; [apply printable_dump_member | by vm_compute].
  - change (dump_members (m :: m' :: d))
      with (dump_member m +:+ ", " +:+ dump_members (m' :: d)).
    apply printable_append; [apply printable_dump_member|].
    apply printable_append; [by vm_compute | done].
Qed.

Lemma printable_dumps (l : list dict) : printable (dumps l).
Proof.
  unfold dumps. split; [by vm_compute|].
  induction l as [|d l IH]; [by vm_compute|].
  assert (Hd : printable (dump_dict d))
    by (split; [by vm_compute | apply printable_dump_members]).
  destruct l as [|d' l].
  - apply printable_append; [done | by vm_compute].
  - change (dump_elements (d :: d' :: l))
      with (dump_dict d +:+ ", " +:+ dump_elements (d' :: l)).
    apply printable_append; [done|].
    apply printable_append; [by vm_compute | done].
Qed.

(** *** The steps of the driver *)

Lemma init_reachable (token account : string) (st0 : scheduler) :
  reachable st0 →
  ∃ l, init token account (store st0)
       = (mkScheduler token account ∅ l (store st0), Return tt)
       ∧ ids_ok l
       ∧ post_key <$> l = post_key <$> scheduled_stories st0.
Proof.
  intros Hreach. pose proof (reachable_in_step _ Hreach) as Hstep.
  apply reachable_invariant in Hreach as [_ Hstore _].
  unfold in_step in Hstep. unfold init, load_scheduled_stories. simpl.
  destruct (store st0) as [text|].
  - destruct Hstep as (l & -> & Hl).
    destruct (Hstore _ eq_refl) as (l' & Heq & Hids).
    rewrite loads_stories. exists l. split; [done|]. split; [|done].
    assert (Some l = Some l') as [= ->]; [|done].
    by rewrite <- (loads_stories l), Heq, loads_stories.
  - exists []. split; [done|]. split; [|by rewrite Hstep].
    intros i s Hs. by rewrite lookup_nil in Hs.
Qed.

Lemma modify_new (st : scheduler) (l : list story) (r : story) (j : job)
    (t : datetime) (c : string) :
  scheduled_stories st = l ++ [r] →
  ids_ok l → id r = (Z.of_nat (length l) + 1)%Z → status r = "scheduled" →
  jobs st !! str_int (Z.of_nat (length l) + 1) = Some j →
  modify_scheduled_story st (Z.of_nat (length l) + 1) (Some t) (Some c)
  = (save_scheduled_stories
       (with_stories (l ++ [set_caption c (set_scheduled_time (isoformat t) r)])
          (with_jobs (<[str_int (Z.of_nat (length l) + 1)
                        := mkJob t (args j)]> (jobs st)) st)),
     Return (set_caption c (set_scheduled_time (isoformat t) r))).
Proof.
  intros Hl Hids Hid Hst Hj. unfold modify_scheduled_story.
  rewrite <- Hid in *. rewrite Hl, (find_scheduled_new l r Hids Hid Hst).
  unfold reschedule_job. cbn [jobs update_story with_stories]. rewrite Hj.
  unfold save_scheduled_stories, update_story, with_jobs, with_stories,
    with_store. simpl.
  rewrite Hl, !alter_snoc.
  by rewrite (list_lookup_total_correct _ _ _ (list_lookup_middle _ _ _ _ eq_refl)).
Qed.

Lemma cancel_new (st : scheduler) (l : list story) (r : story) (j : job) :
  scheduled_stories st = l ++ [r] →
  ids_ok l → id r = (Z.of_nat (length l) + 1)%Z → status r = "scheduled" →
  jobs st !! str_int (Z.of_nat (length l) + 1) = Some j →
  cancel_scheduled_story st (Z.of_nat (length l) + 1)
  = (save_scheduled_stories
       (with_jobs (delete (str_int (Z.of_nat (length l) + 1)) (jobs st))
          (with_stories (l ++ [set_status "cancelled" r]) st)),
     Return true).
Proof.
  intros Hl Hids Hid Hst Hj. unfold cancel_scheduled_story.
  rewrite <- Hid in *. rewrite Hl, (find_scheduled_new l r Hids Hid Hst).
  unfold remove_job. cbn [jobs update_story with_stories]. rewrite Hj.
  unfold save_scheduled_stories, update_story, with_jobs, with_stories,
    with_store. simpl.
  by rewrite Hl, !alter_snoc.
Qed.

Lemma init_keeps (token account : string) (file : option string) :
  store (init token account file).1 = file
  ∧ jobs (init token account file).1 = ∅.
Proof.
  unfold init, load_scheduled_stories. simpl.
  destruct file as [text|]; [|done].
  by destruct (loads text ≫= mapM story_of_dict).
Qed.

(** *** Reading a text that goes on *)

Lemma skip_ws_ext (s q : string) (c : ascii) (r : string) :
  skip_ws s = String c r → skip_ws (s +:+ q) = String c (r +:+ q).
Proof.
  induction s as [|x s IH]; [done|]. rewrite append_cons. simpl.
  destruct (is_ws x); [done|]. by intros [= -> ->].
Qed.

Lemma span_digits_ext (s q ds : string) (c : ascii) (r : string) :
  span_digits s = (ds, String c r) →
  span_digits (s +:+ q) = (ds, String c r +:+ q).
Proof.
  revert ds. induction s as [|x s IH]; intros ds; [done|].
  rewrite append_cons. simpl. destruct (is_digit x).
  - destruct (span_digits s) as [ds' r'] eqn:Hs. intros [= <- ->].
    by rewrite (IH ds' eq_refl).
  - intros [= <- -> ->]. by rewrite append_cons.
Qed.

Lemma parse_nat_ext (s q : string) (n : N) (c : ascii) (r : string) :
  parse_nat s = Some (n, String c r) →
  parse_nat (s +:+ q) = Some (n, String c r +:+ q).
Proof.
  unfold parse_nat. destruct (span_digits s) as [ds rest] eqn:Hs.
  destruct (NilEmpty.uint_of_string ds) as [d|] eqn:Hd; [|done].
  destruct (String.eqb _ ds && negb (starts_float rest)) eqn:Hok; [|done].
  intros [= <- ->]. rewrite (span_digits_ext _ _ _ _ _ Hs). cbv beta iota.
  rewrite Hd. cbv beta iota zeta.
  change (starts_float (String c r +:+ q)) with (starts_float (String c r)).
  by rewrite Hok.
Qed.

Lemma parse_int_ext (s q : string) (z : Z) (c : ascii) (r : string) :
  parse_int s = Some (z, String c r) →
  parse_int (s +:+ q) = Some (z, String c r +:+ q).
Proof.
  unfold parse_int. destruct s as [|x s]; [done|]. rewrite append_cons.
  destruct (Ascii.eqb x "-").
  - destruct (parse_nat s) as [[n rest]|] eqn:Hn; [|done].
    intros [= <- ->]. by rewrite (parse_nat_ext _ _ _ _ _ Hn).
  - destruct (parse_nat (String x s)) as [[n rest]|] eqn:Hn; [|done].
    intros [= <- ->]. rewrite <- append_cons.
    by rewrite (parse_nat_ext _ _ _ _ _ Hn).
Qed.

Lemma parse_chars_ext_aux (n : nat) :
  ∀ s q x r, String.length s ≤ n →
    parse_chars s = Some (x, r) → parse_chars (s +:+ q) = Some (x, r +:+ q).
Proof.
  induction n as [|n IH]; intros s q x r Hlen H.
  { destruct s; [done | simpl in Hlen; lia]. }
  destruct s as [|c rest]; [done|].
  rewrite append_cons. simpl in Hlen.
  cbn [parse_chars] in H |- *.
  destruct (Ascii.eqb c dquote); [by injection H as <- <-|].
  destruct (Ascii.eqb c backslash).
  - destruct rest as [|e rest1]; [done|]. rewrite append_cons.
    simpl in Hlen. cbv iota beta in H |- *.
    destruct (Ascii.eqb e "u").
    + destruct rest1 as [|h3 [|h2 [|h1 [|h0 rest2]]]]; try done.
      rewrite !append_cons. simpl in Hlen. cbv iota beta in H |- *.
      destruct (hex_value h3), (hex_value h2), (hex_value h1), (hex_value h0);
        try done.
      cbv zeta in H |- *.
      destruct (_ <? 256)%N; [|done].
      destruct (parse_chars rest2) as [[str r']|] eqn:Hrest; [|done].
      injection H as <- <-. by rewrite (IH rest2 q str r') by (done || lia).
    + cbv zeta in H |- *.
      destruct (parse_chars rest1) as [[str r']|] eqn:Hrest.
      * rewrite (IH rest1 q str r') by (done || lia).
        repeat (destruct (Ascii.eqb e _); [by injection H as <- <-|]). done.
      * repeat (destruct (Ascii.eqb e _); [done|]). done.
  - destruct (_ <? 32)%N; [done|].
    destruct (parse_chars rest) as [[str r']|] eqn:Hrest; [|done].
    injection H as <- <-. by rewrite (IH rest q str r') by (done || lia).
Qed.

Lemma parse_chars_ext (s q x r : string) :
  parse_chars s = Some (x, r) → parse_chars (s +:+ q) = Some (x, r +:+ q).
Proof. by apply (parse_chars_ext_aux (String.length s)). Qed.

Lemma parse_value_ext (s q : string) (v : pyval) (c : ascii) (r : string) :
  parse_value s = Some (v, String c r) →
  parse_value (s +:+ q) = Some (v, String c r +:+ q).
Proof.
  unfold parse_value. destruct s as [|x s]; [done|]. rewrite append_cons.
  destruct (Ascii.eqb x dquote).
  - destruct (parse_chars s) as [[str r']|] eqn:Hs; [|done].
    intros [= <- ->]. by rewrite (parse_chars_ext _ _ _ _ Hs).
  - destruct (parse_int (String x s)) as [[z r']|] eqn:Hs; [|done].
    intros [= <- ->]. rewrite <- append_cons.
    by rewrite (parse_int_ext _ _ _ _ _ Hs).
Qed.

Lemma parse_members_nil (fuel : nat) (acc : dict) :
  parse_members fuel "" acc = None.
Proof. by destruct fuel. Qed.

Lemma skip_ws_ext' (s q : string) :
  skip_ws s ≠ "" → skip_ws (s +:+ q) = skip_ws s +:+ q.
Proof.
  intros Hne. destruct (skip_ws s) as [|c r] eqn:Hs; [done|].
  by rewrite (skip_ws_ext _ _ _ _ Hs).
Qed.

Lemma parse_members_ext (fuel : nat) :
  ∀ fuel' s q acc d r, fuel ≤ fuel' →
    parse_members fuel s acc = Some (d, r) →
    parse_members fuel' (s +:+ q) acc = Some (d, r +:+ q).
Proof.
  induction fuel as [|fuel IH]; intros fuel' s q acc d r Hfuel H; [done|].
  destruct fuel' as [|fuel']; [lia|].
  destruct s as [|c r0]; [done|]. rewrite append_cons.
  cbn [parse_members] in H |- *.
  destruct (Ascii.eqb c dquote); [|done].
  destruct (parse_chars r0) as [[k r1]|] eqn:Hk; [|done].
  rewrite (parse_chars_ext _ q _ _ Hk).
  destruct (skip_ws r1) as [|c2 r2] eqn:Hr1; [done|].
  rewrite (skip_ws_ext _ q _ _ Hr1).
  destruct (Ascii.eqb c2 ":"); [|done].
  destruct (parse_value (skip_ws r2)) as [[v r3]|] eqn:Hv; [|done].
  assert (Hr2 : skip_ws r2 ≠ "") by (intros Heq; by rewrite Heq in Hv).
  destruct (skip_ws r3) as [|c4 r4] eqn:Hr3; [done|].
  assert (∃ y r3', r3 = String y r3') as (y & r3' & ->)
    by (destruct r3; [done | eauto]).
  rewrite (skip_ws_ext' _ q Hr2), (parse_value_ext _ q _ _ _ Hv).
  rewrite (skip_ws_ext _ q _ _ Hr3).
  destruct (Ascii.eqb c4 ",").
  - assert (Hr4 : skip_ws r4 ≠ "")
      by (intros Heq; by rewrite Heq, parse_members_nil in H).
    rewrite (skip_ws_ext' _ q Hr4). apply IH; [lia | done].
  - destruct (Ascii.eqb c4 "}"); [|done]. by injection H as <- <-.
Qed.

Lemma parse_dict_ext (s q : string) (d : dict) (r : string) :
  parse_dict s = Some (d, r) → parse_dict (s +:+ q) = Some (d, r +:+ q).
Proof.
  unfold parse_dict. destruct (skip_ws s) as [|c r0] eqn:Hs; [done|].
  rewrite (skip_ws_ext _ q _ _ Hs).
  destruct (Ascii.eqb c "}"); [by intros [= <- <-]|].
  intros H.
  assert (Hle : String.length (String c r0)
                ≤ String.length (String c (r0 +:+ q)))
    by (simpl; rewrite length_append; lia).
  by apply (parse_members_ext _ _ _ q _ _ _ Hle H).
Qed.

Lemma parse_elements_nil (fuel : nat) (acc : list dict) :
  parse_elements fuel "" acc = None.
Proof. by destruct fuel. Qed.

Lemma parse_elements_ext (fuel : nat) :
  ∀ fuel' s q acc l r, fuel ≤ fuel' →
    parse_elements fuel s acc = Some (l, r) →
    parse_elements fuel' (s +:+ q) acc = Some (l, r +:+ q).
Proof.
  induction fuel as [|fuel IH]; intros fuel' s q acc l r Hfuel H; [done|].
  destruct fuel' as [|fuel']; [lia|].
  destruct s as [|c r0]; [done|]. rewrite append_cons.
  cbn [parse_elements] in H |- *.
  destruct (Ascii.eqb c "{"); [|done].
  destruct (parse_dict r0) as [[d r1]|] eqn:Hd; [|done].
  rewrite (parse_dict_ext _ q _ _ Hd).
  destruct (skip_ws r1) as [|c2 r2] eqn:Hr1; [done|].
  rewrite (skip_ws_ext _ q _ _ Hr1).
  destruct (Ascii.eqb c2 ",").
  - assert (Hr2 : skip_ws r2 ≠ "")
      by (intros Heq; by rewrite Heq, parse_elements_nil in H).
    rewrite (skip_ws_ext' _ q Hr2). apply IH; [lia | done].
  - destruct (Ascii.eqb c2 "]"); [|done]. by injection H as <- <-.
Qed.

Lemma skip_ws_append_nil (a b : string) :
  skip_ws (a +:+ b) = "" → skip_ws b = "".
Proof.
  induction a as [|x a IH]; [done|]. rewrite append_cons. simpl.
  by destruct (is_ws x).
Qed.

(** Text after a document that loads, if the whole still loads, is blank. *)
Lemma loads_ext (p q : string) (l l' : list dict) :
  loads p = Some l → loads (p +:+ q) = Some l' → skip_ws q = "".
Proof.
  unfold loads. destruct (skip_ws p) as [|c r] eqn:Hp; [done|].
  rewrite (skip_ws_ext _ q _ _ Hp).
  destruct (Ascii.eqb c "["); [|done].
  destruct (skip_ws r) as [|c1 r1] eqn:Hr; [done|].
  rewrite (skip_ws_ext _ q _ _ Hr).
  destruct (Ascii.eqb c1 "]").
  - intros _ H. destruct (skip_ws (r1 +:+ q)) eqn:Hq; [|done].
    by apply skip_ws_append_nil in Hq.
  - destruct (parse_elements _ (String c1 r1) []) as [[l0 r2]|] eqn:He; [|done].
    intros _.
    assert (Hle : String.length (String c1 r1)
                  ≤ String.length (String c1 (r1 +:+ q)))
      by (simpl; rewrite length_append; lia).
    pose proof (parse_elements_ext _ _ _ q _ _ _ Hle He) as He'.
    rewrite append_cons in He'. rewrite He'.
    intros H. destruct (skip_ws (r2 +:+ q)) eqn:Hq; [|done].
    by apply skip_ws_append_nil in Hq.
Qed.

Lemma dump_elements_last (l : list dict) :
  ∃ x, dump_elements l = x +:+ "]".
Proof.
  induction l as [|d l [x IH]]; [by exists ""|].
  destruct l as [|d' l].
  - by exists (dump_dict d).
  - change (dump_elements (d :: d' :: l))
      with (dump_dict d +:+ ", " +:+ dump_elements (d' :: l)).
    rewrite IH. exists (dump_dict d +:+ ", " +:+ x).
    by rewrite !append_assoc.
Qed.

Lemma suffix_last (p q y : string) (c : ascii) :
  p +:+ q = y +:+ String c "" → q ≠ "" → ∃ q', q = q' +:+ String c "".
Proof.
  revert y. induction p as [|a p IH]; intros y Heq Hq; [by exists y|].
  destruct y as [|b y].
  - rewrite append_cons, append_nil in Heq. injection Heq as _ Heq.
    destruct p; [by rewrite append_nil in Heq | done].
  - rewrite !append_cons in Heq. injection Heq as _ Heq. by apply (IH y).
Qed.

Lemma loads_truncated (l : list dict) (p q : string) :
  Forall dict_wf l → dumps l = p +:+ q → q ≠ "" → loads p = None.
Proof.
  intros Hwf Heq Hq. destruct (loads p) as [l'|] eqn:Hp; [exfalso|done].
  pose proof (loads_dumps l Hwf) as Hfull. rewrite Heq in Hfull.
  pose proof (loads_ext p q l' l Hp Hfull) as Hblank.
  destruct (dump_elements_last l) as [x Hx].
  unfold dumps in Heq. rewrite Hx, <- append_cons in Heq. symmetry in Heq.
  destruct (suffix_last p q _ _ Heq Hq) as [q' ->].
  by apply skip_ws_append_nil in Hblank.
Qed.

End LifecycleFacts.

(** ** More of the code's behaviour *)

Module Behaviour.
Import Py Json Timer Insta Lifecycle JsonFacts InstaFacts LifecycleFacts.

(** *** Execution *)

(** X1. When the upload answers with a media identifier and the publication
    call, made with that identifier and with the caption if it is not empty,
    succeeds, [post_story] returns normally; the story gets status "posted"
    and keeps its other fields, every other story and the job store are left
    alone, and the list is written to the file. *)
Theorem execute_posts (w : world) (st : scheduler) (ref : nat) (s : story)
    (resp : dict) (media_id : pyval) :
  scheduled_stories st !! ref = Some s →
  upload_media w st (media_path s) = Return resp →
  dict_get resp "id" = Some media_id →
  truthy media_id = true →
  http_create_story w (story_url st) (story_params st s media_id) = None →
  ∃ st', post_story w st ref = (st', Return tt)
         ∧ scheduled_stories st'
           = <[ref := set_status "posted" s]> (scheduled_stories st)
         ∧ jobs st' = jobs st
         ∧ persisted st'.
Proof.
  intros Hs Hup Hid Htruthy Hpub. exists (marked_posted ref st).
  rewrite (post_story_eval w st ref s Hs), Hup, Hid, Htruthy, Hpub.
  split; [done|]. split; [by apply marked_posted_stories|]. by split.
Qed.

Lemma execute_posts_witness :
  ∃ st', post_story Examples.api_ok Examples.one_scheduled 0 = (st', Return tt)
         ∧ scheduled_stories st'
           = <[0 := set_status "posted"
                      (mkStory 1 "a.jpg" "2026-11-05T12:00:00" "hi" "scheduled" None)]>
               (scheduled_stories Examples.one_scheduled)
         ∧ jobs st' = jobs Examples.one_scheduled
         ∧ persisted st'.
Proof.
  apply (execute_posts Examples.api_ok Examples.one_scheduled 0 _
           [("id", PStr "17900000000000001")] (PStr "17900000000000001"));
    reflexivity.
Defined.

(** X2. When the upload raises, or the upload answers with a media
    identifier and the publication call raises, [post_story] raises the same
    exception again after it has set the story's status to "failed" and its
    error to [str(e)], keeping the other fields, every other story and the
    job store, and has written the list to the file.  Media that was uploaded
    before the publication failed is not taken back. *)
Theorem execute_fails (w : world) (st : scheduler) (ref : nat) (s : story)
    (e : exception) :
  scheduled_stories st !! ref = Some s →
  upload_media w st (media_path s) = Raise e
  ∨ (∃ resp media_id,
       upload_media w st (media_path s) = Return resp
       ∧ dict_get resp "id" = Some media_id
       ∧ truthy media_id = true
       ∧ http_create_story w (story_url st) (story_params st s media_id) = Some e) →
  ∃ st', post_story w st ref = (st', Raise e)
         ∧ scheduled_stories st'
           = <[ref := mkStory (id s) (media_path s) (scheduled_time s) (caption s)
                              "failed" (Some (exc_str e))]> (scheduled_stories st)
         ∧ jobs st' = jobs st
         ∧ persisted st'.
Proof.
  intros Hs Hfail. exists (marked_failed e ref st).
  rewrite (post_story_eval w st ref s Hs).
  split; [|split; [by apply marked_failed_stories | by split]].
  destruct Hfail as [-> | (resp & media_id & -> & -> & -> & ->)]; done.
Qed.

Lemma execute_fails_witness :
  ∃ st', post_story publish_down Examples.one_scheduled 0
         = (st', Raise (mkExc RequestException "400 Client Error: Bad Request"))
         ∧ scheduled_stories st'
           = <[0 := mkStory 1 "a.jpg" "2026-11-05T12:00:00" "hi" "failed"
                            (Some "400 Client Error: Bad Request")]>
               (scheduled_stories Examples.one_scheduled)
         ∧ jobs st' = jobs Examples.one_scheduled
         ∧ persisted st'.
Proof.
  apply (execute_fails publish_down Examples.one_scheduled 0
           (mkStory 1 "a.jpg" "2026-11-05T12:00:00" "hi" "scheduled" None)
           (mkExc RequestException "400 Client Error: Bad Request")).
  - reflexivity.
  - right. exists [("id", PStr "17900000000000001")], (PStr "17900000000000001").
    repeat split; reflexivity.
Defined.

(** X3. The media file is looked for again when the story is executed: if it
    is no longer there, no call is made to the API, whatever the API would
    answer, and [post_story] raises [FileNotFoundError] with the story marked
    "failed", the error text set, and the list written to the file. *)
Theorem execute_missing_media (w : world) (st : scheduler) (ref : nat)
    (s : story) :
  scheduled_stories st !! ref = Some s →
  path_exists w (media_path s) = false →
  ∃ st' e, post_story w st ref = (st', Raise e)
           ∧ exc_type e = FileNotFoundError
           ∧ (∀ w', path_exists w' = path_exists w →
                    post_story w' st ref = (st', Raise e))
           ∧ scheduled_stories st'
             = <[ref := mkStory (id s) (media_path s) (scheduled_time s)
                                (caption s) "failed" (Some (exc_str e))]>
                 (scheduled_stories st)
           ∧ persisted st'.
Proof.
  intros Hs Hgone.
  set (e := mkExc FileNotFoundError
              ("[Errno 2] No such file or directory: '" +:+ media_path s +:+ "'")).
  assert (Hup : ∀ w', path_exists w' = path_exists w →
                      upload_media w' st (media_path s) = Raise e).
  { intros w' Hw'. unfold upload_media. by rewrite Hw', Hgone. }
  exists (marked_failed e ref st), e.
  split; [by rewrite (post_story_eval w st ref s Hs), Hup|].
  split; [done|].
  split; [intros w' Hw'; by rewrite (post_story_eval w' st ref s Hs), Hup|].
  split; [by apply marked_failed_stories | done].
Qed.

Lemma execute_missing_media_witness :
  ∃ st' e, post_story Examples.no_files Examples.one_scheduled 0 = (st', Raise e)
           ∧ exc_type e = FileNotFoundError
           ∧ (∀ w', path_exists w' = path_exists Examples.no_files →
                    post_story w' Examples.one_scheduled 0 = (st', Raise e))
           ∧ scheduled_stories st'
             = <[0 := mkStory 1 "a.jpg" "2026-11-05T12:00:00" "hi" "failed"
                              (Some (exc_str e))]>
                 (scheduled_stories Examples.one_scheduled)
           ∧ persisted st'.
Proof.
  apply (execute_missing_media Examples.no_files Examples.one_scheduled 0
           (mkStory 1 "a.jpg" "2026-11-05T12:00:00" "hi" "scheduled" None));
    reflexivity.
Defined.

(** X4. [post_story] assigns to nothing but the status and the error of the
    story it is called on.  Whatever the file system and the API answer, and
    whether the call returns or raises: the job store and the credentials
    are as before; the list has the same length; every story at another
    position is the same; and the story itself keeps its identifier, media
    path, time and caption. *)
Theorem execute_frame (w : world) (st : scheduler) (ref : nat) :
  jobs (post_story w st ref).1 = jobs st
  ∧ access_token (post_story w st ref).1 = access_token st
  ∧ instagram_account_id (post_story w st ref).1 = instagram_account_id st
  ∧ length (scheduled_stories (post_story w st ref).1)
    = length (scheduled_stories st)
  ∧ ∀ i s, scheduled_stories st !! i = Some s →
      ∃ s', scheduled_stories (post_story w st ref).1 !! i = Some s'
            ∧ id s' = id s ∧ media_path s' = media_path s
            ∧ scheduled_time s' = scheduled_time s ∧ caption s' = caption s
            ∧ (i ≠ ref → s' = s).
Proof.
  destruct (post_story_cases w st ref) as [-> | [[e ->] | ->]]; cbn [fst].
  - repeat split; try done. intros i s Hs. exists s. by repeat split.
  - unfold marked_failed. repeat split; try done.
    + rewrite stories_save. by rewrite !length_update_story.
    + intros i s Hs. rewrite stories_save.
      erewrite lookup_update_story_Some by by apply lookup_update_story_Some.
      eexists. split; [reflexivity|].
      repeat case_decide; by subst.
  - unfold marked_posted. repeat split; try done.
    + rewrite stories_save. by rewrite length_update_story.
    + intros i s Hs. rewrite stories_save.
      erewrite lookup_update_story_Some by done.
      eexists. split; [reflexivity|].
      case_decide; by subst.
Qed.

(** *** Scheduling *)

(** X5. In every reachable state a schedule call on a media path that exists
    returns normally: the identifier of its timer job is never taken.  The
    new record is appended and returned, the list is written to the file,
    and one job is added to the store, filed under [str] of the new
    identifier, with the given run date and the new story as its argument. *)
Theorem schedule_succeeds (w : world) (st : scheduler) (media_path : string)
    (scheduled_time : datetime) (caption : string) :
  reachable st →
  path_exists w media_path = true →
  ∃ st' r,
    schedule_story w st media_path scheduled_time caption = (st', Return r)
    ∧ r = mkStory (Z.of_nat (length (scheduled_stories st)) + 1) media_path
                  (isoformat scheduled_time) caption "scheduled" None
    ∧ scheduled_stories st' = scheduled_stories st ++ [r]
    ∧ jobs st !! str_int (id r) = None
    ∧ jobs st' = <[str_int (id r)
                   := mkJob scheduled_time (length (scheduled_stories st))]>
                   (jobs st)
    ∧ persisted st'.
Proof.
  intros Hreach Hpath. apply reachable_invariant in Hreach.
  do 2 eexists. split; [by apply schedule_story_ok|].
  split; [reflexivity|]. split; [reflexivity|].
  split; [by apply next_job_free|]. by split.
Qed.

Lemma schedule_succeeds_witness :
  ∃ st' r,
    schedule_story Examples.api_ok Examples.one_scheduled "b.jpg"
      Examples.evening "" = (st', Return r)
    ∧ r = mkStory
            (Z.of_nat (length (scheduled_stories Examples.one_scheduled)) + 1)
            "b.jpg" (isoformat Examples.evening) "" "scheduled" None
    ∧ scheduled_stories st' = scheduled_stories Examples.one_scheduled ++ [r]
    ∧ jobs Examples.one_scheduled !! str_int (id r) = None
    ∧ jobs st' = <[str_int (id r)
                   := mkJob Examples.evening
                        (length (scheduled_stories Examples.one_scheduled))]>
                   (jobs Examples.one_scheduled)
    ∧ persisted st'.
Proof.
  apply (schedule_succeeds Examples.api_ok Examples.one_scheduled "b.jpg"
           Examples.evening "").
  - apply (reachable_run
             (Schedule Examples.api_ok "a.jpg" Examples.noon "hi")
             Examples.first_start).
    apply reachable_first.
  - reflexivity.
Defined.

(** X6. Scheduling and then cancelling: in a reachable state, a story that
    schedule has just returned is cancelled by the next cancel call on its
    identifier, which returns [True]; the list is then the old list followed
    by the new record with status "cancelled", the job store is what it was
    before the story was scheduled, and the list is in the file. *)
Theorem schedule_then_cancel (w : world) (st st1 : scheduler)
    (media_path : string) (scheduled_time : datetime) (caption : string)
    (r : story) :
  reachable st →
  schedule_story w st media_path scheduled_time caption = (st1, Return r) →
  ∃ st2, cancel_scheduled_story st1 (id r) = (st2, Return true)
         ∧ scheduled_stories st2
           = scheduled_stories st ++ [set_status "cancelled" r]
         ∧ jobs st2 = jobs st
         ∧ persisted st2.
Proof.
  intros Hreach Hcall. apply reachable_invariant in Hreach as Hinv.
  destruct (path_exists w media_path) eqn:Hpath;
    [|unfold schedule_story in Hcall; by rewrite Hpath in Hcall].
  rewrite (schedule_story_ok w st _ _ _ Hinv Hpath) in Hcall.
  set (r0 := mkStory _ media_path _ caption "scheduled" None) in Hcall.
  injection Hcall as <- <-.
  assert (Hfind : find_scheduled (id r0) (scheduled_stories st ++ [r0])
                  = Some (length (scheduled_stories st)))
    by (apply find_scheduled_new; [apply Hinv | done | done]).
  unfold cancel_scheduled_story.
  cbn [scheduled_stories with_jobs save_scheduled_stories with_stories with_store].
  rewrite Hfind. unfold remove_job.
  cbn [jobs update_story scheduled_stories with_jobs save_scheduled_stories
       with_stories with_store].
  rewrite lookup_insert_eq.
  eexists. split; [reflexivity|].
  cbn [jobs update_story scheduled_stories with_jobs save_scheduled_stories
       with_stories with_store].
  split; [apply alter_snoc|]. split; [|reflexivity].
  change (id r0) with (Z.of_nat (length (scheduled_stories st)) + 1)%Z.
  rewrite delete_insert_eq. apply delete_id. by apply next_job_free.
Qed.

Lemma schedule_then_cancel_witness :
  ∃ st2, cancel_scheduled_story Examples.one_scheduled
           (id (mkStory 1 "a.jpg" "2026-11-05T12:00:00" "hi" "scheduled" None))
         = (st2, Return true)
         ∧ scheduled_stories st2
           = scheduled_stories Examples.first_start
             ++ [set_status "cancelled"
                   (mkStory 1 "a.jpg" "2026-11-05T12:00:00" "hi" "scheduled" None)]
         ∧ jobs st2 = jobs Examples.first_start
         ∧ persisted st2.
Proof.
  apply (schedule_then_cancel Examples.api_ok Examples.first_start
           Examples.one_scheduled "a.jpg" Examples.noon "hi").
  - apply reachable_first.
  - reflexivity.
Defined.

(** X7. Nothing is ever deleted or moved: whatever the state and whatever the
    operation (schedule, execute, cancel, modify), returning or raising, the
    identifiers and media paths of the old list are, in the same order, the
    beginning of those of the new list, which is at most one story longer. *)
Theorem history_kept (o : operation) (st : scheduler) :
  (post_key <$> scheduled_stories st)
    `prefix_of` (post_key <$> scheduled_stories (run o st))
  ∧ length (scheduled_stories st) ≤ length (scheduled_stories (run o st))
      ≤ S (length (scheduled_stories st)).
Proof.
  assert (Hsame : ∀ l l' : list story,
            post_key <$> l' = post_key <$> l →
            (post_key <$> l) `prefix_of` (post_key <$> l')
            ∧ length l ≤ length l' ≤ S (length l)).
  { intros l l' Heq. rewrite Heq. split; [done|].
    apply (f_equal length) in Heq. rewrite !length_fmap in Heq. lia. }
  destruct o as [w p t c | w k | story_id | story_id t c]; simpl.
  - unfold schedule_story. destruct (path_exists w p); simpl; [|by apply Hsame].
    destruct (add_job _ _ _); simpl; rewrite fmap_app, length_app; simpl;
      (split; [by apply prefix_app_r | lia]).
  - apply Hsame. unfold fire. destruct (jobs st !! k); [|done].
    by rewrite post_story_keys.
  - apply Hsame, cancel_keys.
  - apply Hsame, modify_keys.
Qed.

(** X8. Scheduling and then executing: in a reachable state, the timer job
    that schedule registers runs [post_story] on the very story it returned.
    With an upload that answers with an identifier and a publication that
    succeeds, firing that job leaves the old list followed by the new record
    with status "posted", the job store as it was before the story was
    scheduled, and the list in the file. *)
Theorem schedule_then_execute (w w' : world) (st st1 : scheduler)
    (media_path : string) (scheduled_time : datetime) (caption : string)
    (r : story) (resp : dict) (media_id : pyval) :
  reachable st →
  schedule_story w st media_path scheduled_time caption = (st1, Return r) →
  upload_media w' st1 media_path = Return resp →
  dict_get resp "id" = Some media_id →
  truthy media_id = true →
  http_create_story w' (story_url st1) (story_params st1 r media_id) = None →
  ∃ st2, fire w' st1 (str_int (id r)) = (st2, Return tt)
         ∧ scheduled_stories st2 = scheduled_stories st ++ [set_status "posted" r]
         ∧ jobs st2 = jobs st
         ∧ persisted st2.
Proof.
  intros Hreach Hcall Hup Hid Htruthy Hpub.
  apply reachable_invariant in Hreach as Hinv.
  destruct (path_exists w media_path) eqn:Hpath;
    [|unfold schedule_story in Hcall; by rewrite Hpath in Hcall].
  rewrite (schedule_story_ok w st _ _ _ Hinv Hpath) in Hcall.
  set (r0 := mkStory _ media_path _ caption "scheduled" None) in Hcall.
  injection Hcall as <- <-.
  unfold fire. cbn [jobs with_jobs]. rewrite lookup_insert_eq. cbn [args].
  erewrite post_story_eval by by apply list_lookup_middle.
  change (upload_media w' _ (Insta.media_path r0))
    with (upload_media w'
            (with_jobs
               (<[str_int (Z.of_nat (length (scheduled_stories st)) + 1)
                  := mkJob scheduled_time (length (scheduled_stories st))]>
                  (jobs st))
               (save_scheduled_stories
                  (with_stories (scheduled_stories st ++ [r0]) st)))
            media_path).
  rewrite Hup, Hid, Htruthy.
  change (http_create_story w' _ _)
    with (http_create_story w'
            (story_url
               (with_jobs
                  (<[str_int (Z.of_nat (length (scheduled_stories st)) + 1)
                     := mkJob scheduled_time (length (scheduled_stories st))]>
                     (jobs st))
                  (save_scheduled_stories
                     (with_stories (scheduled_stories st ++ [r0]) st))))
            (story_params
               (with_jobs
                  (<[str_int (Z.of_nat (length (scheduled_stories st)) + 1)
                     := mkJob scheduled_time (length (scheduled_stories st))]>
                     (jobs st))
                  (save_scheduled_stories
                     (with_stories (scheduled_stories st ++ [r0]) st)))
               r0 media_id)).
  rewrite Hpub. eexists. split; [reflexivity|].
  unfold marked_posted.
  cbn [jobs update_story scheduled_stories with_jobs save_scheduled_stories
       with_stories with_store].
  split; [apply alter_snoc|]. split; [|reflexivity].
  rewrite delete_insert_eq. apply delete_id. by apply next_job_free.
Qed.

Lemma schedule_then_execute_witness :
  ∃ st2, fire Examples.api_ok Examples.one_scheduled
           (str_int (id (mkStory 1 "a.jpg" "2026-11-05T12:00:00" "hi"
                                 "scheduled" None)))
         = (st2, Return tt)
         ∧ scheduled_stories st2
           = scheduled_stories Examples.first_start
             ++ [set_status "posted"
                   (mkStory 1 "a.jpg" "2026-11-05T12:00:00" "hi" "scheduled" None)]
         ∧ jobs st2 = jobs Examples.first_start
         ∧ persisted st2.
Proof.
  apply (schedule_then_execute Examples.api_ok Examples.api_ok
           Examples.first_start Examples.one_scheduled "a.jpg" Examples.noon
           "hi" _ [("id", PStr "17900000000000001")] (PStr "17900000000000001"));
    try reflexivity.
  apply reachable_first.
Defined.

(** *** Calls on stories that are done, or that have lost their timer *)

(** X9. In every reachable state a story that is posted, failed or cancelled
    can be neither cancelled nor modified: cancel on its identifier returns
    [False], modify on its identifier raises [ValueError], and both leave the
    whole state as it was. *)
Theorem finished_story_refused (st : scheduler) (s : story)
    (new_time : option datetime) (new_caption : option string) :
  reachable st →
  s ∈ scheduled_stories st →
  terminal (status s) →
  cancel_scheduled_story st (id s) = (st, Return false)
  ∧ modify_scheduled_story st (id s) new_time new_caption
    = (st, Raise (mkExc ValueError "Story not found or already posted/cancelled")).
Proof.
  intros Hreach Hin Hterm. apply reachable_invariant in Hreach as [Hids _ _].
  unfold cancel_scheduled_story, modify_scheduled_story.
  by rewrite (find_scheduled_other_status _ s Hids Hin
                (terminal_not_scheduled _ Hterm)).
Qed.

Lemma finished_story_refused_witness :
  cancel_scheduled_story Examples.one_cancelled
    (id (mkStory 1 "a.jpg" "2026-11-05T12:00:00" "hi" "cancelled" None))
  = (Examples.one_cancelled, Return false)
  ∧ modify_scheduled_story Examples.one_cancelled
      (id (mkStory 1 "a.jpg" "2026-11-05T12:00:00" "hi" "cancelled" None))
      (Some Examples.evening) None
    = (Examples.one_cancelled,
       Raise (mkExc ValueError "Story not found or already posted/cancelled")).
Proof.
  apply (finished_story_refused Examples.one_cancelled
           (mkStory 1 "a.jpg" "2026-11-05T12:00:00" "hi" "cancelled" None)).
  - apply (reachable_run (Cancel 1) Examples.one_scheduled).
    apply (reachable_run
             (Schedule Examples.api_ok "a.jpg" Examples.noon "hi")
             Examples.first_start).
    apply reachable_first.
  - vm_compute. left.
  - right. right. reflexivity.
Defined.

(** X10. Cancelling twice: in a reachable state, once cancel has returned
    [True] for an identifier, the next cancel on it returns [False] and
    changes nothing. *)
Theorem cancel_twice (st st' : scheduler) (story_id : Z) :
  reachable st →
  cancel_scheduled_story st story_id = (st', Return true) →
  cancel_scheduled_story st' story_id = (st', Return false).
Proof.
  intros Hreach Hcall.
  assert (Hinv' : invariant st').
  { replace st' with (run (Cancel story_id) st) by (simpl; by rewrite Hcall).
    by apply reachable_invariant, reachable_run. }
  unfold cancel_scheduled_story in Hcall.
  destruct (find_scheduled story_id (scheduled_stories st)) as [ref|] eqn:Hfind;
    [|discriminate].
  apply find_scheduled_Some in Hfind as [(s & Hs & <- & Hst) _].
  destruct (remove_job _ _) as [js|e]; [|discriminate].
  injection Hcall as <-.
  unfold cancel_scheduled_story at 1.
  rewrite (find_scheduled_other_status _ (set_status "cancelled" s)); try done.
  - apply Hinv'.
  - apply list_elem_of_lookup. exists ref.
    rewrite stories_save, stories_with_jobs.
    by apply lookup_update_story_Some with (ref := ref) (f := set_status "cancelled")
      in Hs as ->; rewrite decide_True.
Qed.

Lemma cancel_twice_witness :
  cancel_scheduled_story Examples.one_cancelled 1
  = (Examples.one_cancelled, Return false).
Proof.
  apply (cancel_twice Examples.one_scheduled Examples.one_cancelled 1).
  - apply (reachable_run
             (Schedule Examples.api_ok "a.jpg" Examples.noon "hi")
             Examples.first_start).
    apply reachable_first.
  - reflexivity.
Defined.

(** X11. Cancelling a story that has no timer job: when a story is scheduled
    under the identifier but the job store holds nothing under it, cancel
    raises [JobLookupError]; by then it has set the status of the first such
    story to "cancelled" in memory, and it leaves the file and the job store
    as they were. *)
Theorem cancel_without_timer (st : scheduler) (story_id : Z) (s : story) :
  s ∈ scheduled_stories st →
  scheduled_with story_id s →
  jobs st !! str_int story_id = None →
  ∃ ref s0 st' e,
    first_scheduled story_id (scheduled_stories st) ref
    ∧ scheduled_stories st !! ref = Some s0
    ∧ cancel_scheduled_story st story_id = (st', Raise e)
    ∧ exc_type e = JobLookupError
    ∧ scheduled_stories st'
      = <[ref := set_status "cancelled" s0]> (scheduled_stories st)
    ∧ store st' = store st
    ∧ jobs st' = jobs st.
Proof.
  intros Hin Hs Hj.
  destruct (find_scheduled_elem story_id _ s Hin Hs)
    as (ref & s0 & Hfind & Hfirst & Hs0 & Hm).
  exists ref, s0. unfold cancel_scheduled_story. rewrite Hfind.
  unfold remove_job. cbn [jobs update_story with_stories]. rewrite Hj.
  do 2 eexists. split; [done|]. split; [done|]. split; [reflexivity|].
  split; [reflexivity|]. split; [|done].
  cbn [scheduled_stories update_story with_stories]. by apply alter_insert.
Qed.

Lemma cancel_without_timer_witness :
  ∃ ref s0 st' e,
    first_scheduled 1 (scheduled_stories Examples.restarted) ref
    ∧ scheduled_stories Examples.restarted !! ref = Some s0
    ∧ cancel_scheduled_story Examples.restarted 1 = (st', Raise e)
    ∧ exc_type e = JobLookupError
    ∧ scheduled_stories st'
      = <[ref := set_status "cancelled" s0]>
          (scheduled_stories Examples.restarted)
    ∧ store st' = store Examples.restarted
    ∧ jobs st' = jobs Examples.restarted.
Proof.
  apply (cancel_without_timer Examples.restarted 1
           (mkStory 1 "a.jpg" "2026-11-05T12:00:00" "hi" "scheduled" None)).
  - vm_compute. left.
  - split; reflexivity.
  - vm_compute. reflexivity.
Defined.

(** X12. Modifying the time of a story that has no timer job: when a story
    is scheduled under the identifier but the job store holds nothing under
    it, a modify call with a new time raises [JobLookupError]; by then it has
    set the time of the first such story in memory, it has not looked at the
    new caption, and it leaves the file and the job store as they were. *)
Theorem modify_without_timer (st : scheduler) (story_id : Z) (s : story)
    (t : datetime) (new_caption : option string) :
  s ∈ scheduled_stories st →
  scheduled_with story_id s →
  jobs st !! str_int story_id = None →
  ∃ ref s0 st' e,
    first_scheduled story_id (scheduled_stories st) ref
    ∧ scheduled_stories st !! ref = Some s0
    ∧ modify_scheduled_story st story_id (Some t) new_caption = (st', Raise e)
    ∧ exc_type e = JobLookupError
    ∧ scheduled_stories st'
      = <[ref := set_scheduled_time (isoformat t) s0]> (scheduled_stories st)
    ∧ store st' = store st
    ∧ jobs st' = jobs st.
Proof.
  intros Hin Hs Hj.
  destruct (find_scheduled_elem story_id _ s Hin Hs)
    as (ref & s0 & Hfind & Hfirst & Hs0 & Hm).
  exists ref, s0. unfold modify_scheduled_story. rewrite Hfind.
  unfold reschedule_job. cbn [jobs update_story with_stories]. rewrite Hj.
  do 2 eexists. split; [done|]. split; [done|]. split; [reflexivity|].
  split; [reflexivity|]. split; [|done].
  cbn [scheduled_stories update_story with_stories]. by apply alter_insert.
Qed.

Lemma modify_without_timer_witness :
  ∃ ref s0 st' e,
    first_scheduled 1 (scheduled_stories Examples.restarted) ref
    ∧ scheduled_stories Examples.restarted !! ref = Some s0
    ∧ modify_scheduled_story Examples.restarted 1 (Some Examples.evening)
        (Some "new") = (st', Raise e)
    ∧ exc_type e = JobLookupError
    ∧ scheduled_stories st'
      = <[ref := set_scheduled_time (isoformat Examples.evening) s0]>
          (scheduled_stories Examples.restarted)
    ∧ store st' = store Examples.restarted
    ∧ jobs st' = jobs Examples.restarted.
Proof.
  apply (modify_without_timer Examples.restarted 1
           (mkStory 1 "a.jpg" "2026-11-05T12:00:00" "hi" "scheduled" None)).
  - vm_compute. left.
  - split; reflexivity.
  - vm_compute. reflexivity.
Defined.

(** X13. A modify call never adds a timer job and never removes one: the job
    store holds the same identifiers afterwards, each job keeps its story,
    and the only run date that can change is that of the job filed under the
    modified identifier, which becomes the new time.  So a story whose time
    was changed fires once, at the new time. *)
Theorem modify_keeps_jobs (st : scheduler) (story_id : Z)
    (new_time : option datetime) (new_caption : option string) (k : string) :
  match jobs (modify_scheduled_story st story_id new_time new_caption).1 !! k with
  | Some j' =>
      ∃ j, jobs st !! k = Some j ∧ args j' = args j
           ∧ (j' = j ∨ (k = str_int story_id ∧ new_time = Some (run_date j')))
  | None => jobs st !! k = None
  end.
Proof.
  assert (Hsame : match jobs st !! k with
                  | Some j' =>
                      ∃ j, jobs st !! k = Some j ∧ args j' = args j
                           ∧ (j' = j ∨ (k = str_int story_id
                                        ∧ new_time = Some (run_date j')))
                  | None => jobs st !! k = None
                  end).
  { destruct (jobs st !! k) as [j|]; [|done]. exists j. auto. }
  unfold modify_scheduled_story.
  destruct (find_scheduled story_id (scheduled_stories st)) as [ref|]; [|done].
  destruct new_time as [t|].
  - unfold reschedule_job. cbn [jobs update_story with_stories].
    destruct (jobs st !! str_int story_id) as [j|] eqn:Hj; [|done].
    assert (Hjobs : ∀ st0, jobs (save_scheduled_stories
                             (match new_caption with
                              | Some c => update_story ref (set_caption c) st0
                              | None => st0
                              end)) = jobs st0)
      by (intros st0; by destruct new_caption).
    cbn [fst]. rewrite Hjobs. cbn [jobs with_jobs].
    destruct (decide (k = str_int story_id)) as [->|Hne].
    + rewrite lookup_insert_eq. exists j. split; [done|]. split; [done|].
      by right.
    + by rewrite lookup_insert_ne.
  - assert (Hjobs : jobs (save_scheduled_stories
                            (match new_caption with
                             | Some c => update_story ref (set_caption c) st
                             | None => st
                             end)) = jobs st)
      by (by destruct new_caption).
    cbn [fst]. by rewrite Hjobs.
Qed.

(** *** What holds in every reachable state *)





(** X16. In every reachable state each story of the list has one of the four
    statuses "scheduled", "posted", "failed", "cancelled", and it carries an
    error text exactly when its status is "failed". *)
Theorem records_well_formed (st : scheduler) :
  reachable st →
  status_ok (scheduled_stories st) ∧ error_ok (scheduled_stories st).
Proof.
  intros Hreach. split.
  - apply (reachable_lists status_ok); [| apply status_ok_step | done].
    intros s Hs. by apply elem_of_nil in Hs.
  - apply (reachable_lists error_ok); [| apply error_ok_step | done].
    intros s Hs. by apply elem_of_nil in Hs.
Qed.

Lemma records_well_formed_witness :
  status_ok (scheduled_stories Examples.restarted)
  ∧ error_ok (scheduled_stories Examples.restarted).
Proof.
  apply (records_well_formed Examples.restarted).
  apply (reachable_restart "token" "account" Examples.one_scheduled).
  - apply (reachable_run
             (Schedule Examples.api_ok "a.jpg" Examples.noon "hi")
             Examples.first_start).
    apply reachable_first.
  - vm_compute. reflexivity.
Defined.

(** X17. In every reachable state the identifiers number the list from one:
    the story at position [i], counted from zero, has identifier [i + 1]. *)
Theorem identifiers_count_positions (st : scheduler) (i : nat) (s : story) :
  reachable st →
  scheduled_stories st !! i = Some s →
  id s = (Z.of_nat i + 1)%Z.
Proof.
  intros Hreach Hs. apply reachable_invariant in Hreach as [Hids _ _].
  by apply Hids.
Qed.

Lemma identifiers_count_positions_witness :
  id (mkStory 1 "a.jpg" "2026-11-05T12:00:00" "hi" "scheduled" None)
  = (Z.of_nat 0 + 1)%Z.
Proof.
  apply (identifiers_count_positions Examples.one_scheduled 0).
  - apply (reachable_run
             (Schedule Examples.api_ok "a.jpg" Examples.noon "hi")
             Examples.first_start).
    apply reachable_first.
  - reflexivity.
Defined.

(** X18. In every reachable state each pending timer job belongs to a story
    that is still scheduled: its argument is a story of the list with status
    "scheduled", it is filed under [str] of that story's identifier, and no
    other job has the same story as its argument. *)
Theorem pending_jobs_are_scheduled (st : scheduler) (k : string) (j : job) :
  reachable st →
  jobs st !! k = Some j →
  (∃ s, scheduled_stories st !! args j = Some s
        ∧ status s = "scheduled"
        ∧ k = str_int (id s))
  ∧ (∀ k' j', jobs st !! k' = Some j' → args j' = args j → k' = k).
Proof.
  intros Hreach Hj. apply reachable_invariant in Hreach as [_ _ Hjobs].
  split; [by apply Hjobs|].
  intros k' j' Hj' Hargs. by apply (jobs_ok_unique st k' k j' j).
Qed.

Lemma pending_jobs_are_scheduled_witness :
  (∃ s, scheduled_stories Examples.one_scheduled
          !! args (mkJob Examples.noon 0) = Some s
        ∧ status s = "scheduled"
        ∧ "1" = str_int (id s))
  ∧ (∀ k' j', jobs Examples.one_scheduled !! k' = Some j' →
              args j' = args (mkJob Examples.noon 0) → k' = "1").
Proof.
  apply (pending_jobs_are_scheduled Examples.one_scheduled "1"
           (mkJob Examples.noon 0)).
  - apply (reachable_run
             (Schedule Examples.api_ok "a.jpg" Examples.noon "hi")
             Examples.first_start).
    apply reachable_first.
  - vm_compute. reflexivity.
Defined.



(** *** The file *)

(** X20. A file that is empty or holds nothing but whitespace is not taken
    for an empty list: while a missing file makes [load_scheduled_stories]
    start from the empty list, on such a file it raises [JSONDecodeError]
    (only [FileNotFoundError] is caught) and leaves the list, the job store
    and the file as they were. *)
Theorem load_missing_or_blank (st : scheduler) :
  load_scheduled_stories (with_store None st)
    = (with_stories [] (with_store None st), Return tt)
  ∧ ∀ text, blank text →
      ∃ e, exc_type e = JSONDecodeError
           ∧ load_scheduled_stories (with_store (Some text) st)
             = (with_store (Some text) st, Raise e).
Proof.
  split; [done|]. intros text Hblank.
  eexists. split; [|unfold load_scheduled_stories; simpl].
  2: { unfold loads. rewrite (skip_ws_blank text Hblank). simpl. reflexivity. }
  done.
Qed.

(** X21. What [save_scheduled_stories] writes is printable ASCII whatever the
    fields of the stories hold: every character of the text in the file has
    a code from 32 to 126, so writing it does not depend on the encoding the
    file is opened with. *)
Theorem saved_text_is_ascii (st : scheduler) :
  ∃ text, store (save_scheduled_stories st) = Some text ∧ printable text.
Proof.
  eexists. split; [reflexivity|]. apply printable_dumps.
Qed.

(** *** The driver *)

(** X22. The example run: started on the file a reachable state has left,
    and with the media file "/media.jpg" in place, [main] runs to its end
    without an exception.  It prints a new story that is scheduled under the
    next identifier, the loaded list followed by that story, the story with
    the new time and caption, and [True]; it leaves the loaded list followed
    by that story with status "cancelled", an empty job store, and the list
    in the file. *)
Theorem main_completes (w : world) (token account : string) (st0 : scheduler)
    (in_one_hour in_two_hours : datetime) :
  reachable st0 →
  path_exists w "/media.jpg" = true →
  ∃ l st r m,
    post_key <$> l = post_key <$> scheduled_stories st0
    ∧ r = mkStory (Z.of_nat (length l) + 1) "/media.jpg"
                  (isoformat in_one_hour)
                  "Check out our new product launch! #newproduct"
                  "scheduled" None
    ∧ m = mkStory (Z.of_nat (length l) + 1) "/media.jpg"
                  (isoformat in_two_hours)
                  "Updated caption for our product launch! #newproduct"
                  "scheduled" None
    ∧ main w token account (store st0) in_one_hour in_two_hours
      = (st, Return (r, l ++ [r], m, true))
    ∧ scheduled_stories st = l ++ [set_status "cancelled" m]
    ∧ jobs st = ∅
    ∧ persisted st.
Proof.
  intros Hreach Hpath.
  destruct (init_reachable token account st0 Hreach) as (l & Hinit & Hids & Hkeys).
  assert (Hinv : invariant (mkScheduler token account ∅ l (store st0))).
  { eapply invariant_init; [|exact Hinit].
    by apply reachable_invariant in Hreach as [_ ? _]. }
  exists l. do 3 eexists. split; [done|]. split; [reflexivity|].
  split; [reflexivity|].
  unfold main. rewrite Hinit. cbv beta iota.
  rewrite (schedule_story_ok w _ _ _ _ Hinv Hpath). cbv beta iota zeta.
  cbn [scheduled_stories jobs id args get_scheduled_stories].
  erewrite (modify_new _ l);
    [| reflexivity | exact Hids | reflexivity | reflexivity
     | apply lookup_insert_eq].
  cbv beta iota. cbn [args].
  erewrite (cancel_new _ l);
    [| reflexivity | exact Hids | reflexivity | reflexivity
     | apply lookup_insert_eq].
  split; [reflexivity|].
  split; [reflexivity|]. split; [|reflexivity].
  cbn [jobs save_scheduled_stories with_jobs with_stories with_store].
  by rewrite !delete_insert_eq, delete_empty.
Qed.

Lemma main_completes_witness :
  ∃ l st r m,
    post_key <$> l = post_key <$> scheduled_stories Examples.one_cancelled
    ∧ r = mkStory (Z.of_nat (length l) + 1) "/media.jpg"
                  (isoformat Examples.noon)
                  "Check out our new product launch! #newproduct"
                  "scheduled" None
    ∧ m = mkStory (Z.of_nat (length l) + 1) "/media.jpg"
                  (isoformat Examples.evening)
                  "Updated caption for our product launch! #newproduct"
                  "scheduled" None
    ∧ main Examples.api_ok "token" "account" (store Examples.one_cancelled)
        Examples.noon Examples.evening
      = (st, Return (r, l ++ [r], m, true))
    ∧ scheduled_stories st = l ++ [set_status "cancelled" m]
    ∧ jobs st = ∅
    ∧ persisted st.
Proof.
  apply (main_completes Examples.api_ok "token" "account"
           Examples.one_cancelled Examples.noon Examples.evening).
  - apply (reachable_run (Cancel 1) Examples.one_scheduled).
    apply (reachable_run
             (Schedule Examples.api_ok "a.jpg" Examples.noon "hi")
             Examples.first_start).
    apply reachable_first.
  - reflexivity.
Defined.

(** X23. The example run without its media: when "/media.jpg" does not
    exist, [main] ends with an exception, whatever the file holds; the file
    is left as it was found and no timer job is registered.  When the file
    could be loaded, the exception is the [FileNotFoundError] of
    [schedule_story]. *)
Theorem main_without_media (w : world) (token account : string)
    (file : option string) (in_one_hour in_two_hours : datetime) :
  path_exists w "/media.jpg" = false →
  ∃ st e,
    main w token account file in_one_hour in_two_hours = (st, Raise e)
    ∧ store st = file
    ∧ jobs st = ∅
    ∧ ((init token account file).2 = Return tt →
       e = mkExc FileNotFoundError "Media file not found").
Proof.
  intros Hpath. destruct (init_keeps token account file) as [Hstore Hjobs].
  unfold main.
  destruct (init token account file) as [st [[]|e]]; simpl in *.
  - unfold schedule_story. rewrite Hpath. simpl. by do 2 eexists.
  - do 2 eexists. split; [reflexivity|]. split; [done|]. split; [done|].
    intros H. discriminate.
Qed.

Lemma main_without_media_witness :
  ∃ st e,
    main Examples.no_files "token" "account" (store Examples.one_scheduled)
      Examples.noon Examples.evening = (st, Raise e)
    ∧ store st = store Examples.one_scheduled
    ∧ jobs st = ∅
    ∧ ((init "token" "account" (store Examples.one_scheduled)).2 = Return tt →
       e = mkExc FileNotFoundError "Media file not found").
Proof.
  apply (main_without_media Examples.no_files "token" "account"
           (store Examples.one_scheduled) Examples.noon Examples.evening).
  reflexivity.
Defined.

(** X24. A file that was cut short is never loaded as a shorter list: if
    only a part of what [save_scheduled_stories] writes is in the file,
    anything less than the whole text, [load_scheduled_stories] raises
    [JSONDecodeError] and leaves the scheduler it is called on as it was. *)
Theorem truncated_file_rejected (st st' : scheduler) (p q : string) :
  store (save_scheduled_stories st) = Some (p +:+ q) →
  q ≠ "" →
  ∃ e, exc_type e = JSONDecodeError
       ∧ load_scheduled_stories (with_store (Some p) st')
         = (with_store (Some p) st', Raise e).
Proof.
  intros Hsaved Hq. injection Hsaved as Hsaved.
  assert (Hnone : loads p = None).
  { apply (loads_truncated (map dict_of_story (scheduled_stories st)) p q);
      [|done|done].
    apply Forall_forall. intros d Hd.
    apply list_elem_of_In, in_map_iff in Hd as (s & <- & _).
    apply dict_of_story_wf. }
  eexists. split; [|unfold load_scheduled_stories; simpl; by rewrite Hnone].
  done.
Qed.

Lemma truncated_file_rejected_witness :
  ∃ e, exc_type e = JSONDecodeError
       ∧ load_scheduled_stories (with_store (Some "[") Examples.first_start)
         = (with_store (Some "[") Examples.first_start, Raise e).
Proof.
  apply (truncated_file_rejected Examples.one_scheduled Examples.first_start
           "["
           (dump_elements
              (map dict_of_story (scheduled_stories Examples.one_scheduled)))).
  - reflexivity.
  - vm_compute. discriminate.
Defined.

End Behaviour.
